(** * ssdsim: the NAND disk state machine and its full-block write policies

    A shallow embedding of [simulator/BaseNANDDisk.py] (the disk, its raw
    operations and the naive relocation policy), of
    [simulator/NAND/WritePolicies/WritePolicyInPlace.py] (the in-place
    garbage collector) and of the statistics that are ratios of counters.

    Python integers are unbounded, so every counter and coordinate is a [Z].
    The state [self._ftl] is a dict of dicts: it is a [gmap] here, with the
    two summary keys ['empty'] and ['dirty'] of a block as record fields.
    A method is a function from the disk to an outcome: a returned value
    with the new disk, or a raised exception with the disk as it was left.

    [BaseNANDDisk.py] imports [simulator.common], which is not among the
    sources; the constants it uses (the page statuses and
    [DECIMAL_PRECISION]) are taken from [simulator/NAND/common.py], where
    they are defined with the same names. *)

From Stdlib Require Import ZArith Lia.
From stdpp Require Import base decidable option list numbers gmap.

Local Open Scope Z_scope.

(** ** Data model *)

(** [simulator/NAND/common.py]: PAGE_IN_USE = "U", PAGE_DIRTY = "D",
    PAGE_EMPTY = "E". *)
Inductive page_status := PAGE_IN_USE | PAGE_DIRTY | PAGE_EMPTY.

#[global] Instance page_status_eq_dec : EqDecision page_status.
Proof. solve_decision. Defined.

(** One entry [self._ftl[b]]: the integer keys give the page statuses, the
    keys ['empty'] and ['dirty'] the cached counters. *)
Record block_state := Block {
  pages : gmap Z page_status;
  empty_count : Z;
  dirty_count : Z
}.

(** The instance attributes set by [__init__]. *)
Record disk := Disk {
  _elapsed_time : Z;
  _host_page_write_request : Z;
  _page_write_executed : Z;
  _page_write_failed : Z;
  _host_page_read_request : Z;
  _page_read_executed : Z;
  _block_erase_executed : Z;
  _ftl : gmap Z block_state
}.

(** The class attributes: geometry and timing. *)
Record config := Config {
  total_blocks : Z;
  pages_per_block : Z;
  page_size : Z;
  write_page_time : Z;
  read_page_time : Z;
  erase_block_time : Z
}.

(** Which class the disk object is an instance of: [BaseNANDDisk] keeps the
    naive [full_block_write_policy], [WritePolicyInPlace] overrides it and
    takes every other method from its base class, here the methods of
    [BaseNANDDisk]. *)
Inductive write_policy := Naive | InPlace.

(** The exceptions the code can raise.  The two [raise] statements of
    [get_empty_page] carry the same message; they are kept apart here by
    the place they are raised from. *)
Inductive exn :=
| ValueError_block        (* "block parameter out of range." *)
| ValueError_page         (* "page parameter out of range." *)
| ValueError_no_empty     (* get_empty_page, the check before the scan *)
| ValueError_after_scan   (* get_empty_page, after the scan loop *)
| KeyError.               (* a dict lookup of a missing key *)

Inductive outcome (A : Type) :=
| Return (a : A) (d : disk)
| Raise (e : exn) (d : disk)
| OutOfFuel.
Arguments Return {A} a d.
Arguments Raise {A} e d.
Arguments OutOfFuel {A}.

Definition M (A : Type) : Type := disk -> outcome A.

#[global] Instance M_ret : MRet M := fun A a d => Return a d.
#[global] Instance M_bind : MBind M := fun A B k c d =>
  match c d with
  | Return a d' => k a d'
  | Raise e d' => Raise e d'
  | OutOfFuel => OutOfFuel
  end.

Definition raise {A} (e : exn) : M A := fun d => Raise e d.
Definition modify (f : disk -> disk) : M unit := fun d => Return tt (f d).

(** Field updates of the two records. *)
Definition set_pages (f : gmap Z page_status -> gmap Z page_status)
    (b : block_state) : block_state :=
  Block (f (pages b)) (empty_count b) (dirty_count b).
Definition set_empty_count (f : Z -> Z) (b : block_state) : block_state :=
  Block (pages b) (f (empty_count b)) (dirty_count b).
Definition set_dirty_count (f : Z -> Z) (b : block_state) : block_state :=
  Block (pages b) (empty_count b) (f (dirty_count b)).

Definition set_ftl (f : gmap Z block_state -> gmap Z block_state)
    (d : disk) : disk :=
  Disk (_elapsed_time d) (_host_page_write_request d)
       (_page_write_executed d) (_page_write_failed d)
       (_host_page_read_request d) (_page_read_executed d)
       (_block_erase_executed d) (f (_ftl d)).
Definition add_elapsed_time (t : Z) (d : disk) : disk :=
  Disk (_elapsed_time d + t) (_host_page_write_request d)
       (_page_write_executed d) (_page_write_failed d)
       (_host_page_read_request d) (_page_read_executed d)
       (_block_erase_executed d) (_ftl d).
Definition incr_host_page_write_request (d : disk) : disk :=
  Disk (_elapsed_time d) (_host_page_write_request d + 1)
       (_page_write_executed d) (_page_write_failed d)
       (_host_page_read_request d) (_page_read_executed d)
       (_block_erase_executed d) (_ftl d).
Definition incr_page_write_executed (d : disk) : disk :=
  Disk (_elapsed_time d) (_host_page_write_request d)
       (_page_write_executed d + 1) (_page_write_failed d)
       (_host_page_read_request d) (_page_read_executed d)
       (_block_erase_executed d) (_ftl d).
Definition incr_page_write_failed (d : disk) : disk :=
  Disk (_elapsed_time d) (_host_page_write_request d)
       (_page_write_executed d) (_page_write_failed d + 1)
       (_host_page_read_request d) (_page_read_executed d)
       (_block_erase_executed d) (_ftl d).
Definition incr_page_read_executed (d : disk) : disk :=
  Disk (_elapsed_time d) (_host_page_write_request d)
       (_page_write_executed d) (_page_write_failed d)
       (_host_page_read_request d) (_page_read_executed d + 1)
       (_block_erase_executed d) (_ftl d).
Definition incr_block_erase_executed (d : disk) : disk :=
  Disk (_elapsed_time d) (_host_page_write_request d)
       (_page_write_executed d) (_page_write_failed d)
       (_host_page_read_request d) (_page_read_executed d)
       (_block_erase_executed d + 1) (_ftl d).

Section Disk.

Variable cfg : config.

(** ** Construction: [BaseNANDDisk.__init__] *)

Definition init_pages : gmap Z page_status :=
  foldl (fun m p => <[p := PAGE_EMPTY]> m) ∅ (seqZ 0 (pages_per_block cfg)).

Definition init_block : block_state :=
  Block init_pages (pages_per_block cfg) 0.

Definition init_disk : disk :=
  Disk 0 0 0 0 0 0 0
    (foldl (fun m b => <[b := init_block]> m) ∅ (seqZ 0 (total_blocks cfg))).

(** ** The decorators [check_block] and [check_page] *)

Definition check_block (block : Z) : M unit := fun d =>
  if (block <? 0) || (block >=? total_blocks cfg)
  then Raise ValueError_block d else Return tt d.

Definition check_page (page : Z) : M unit := fun d =>
  if (page <? 0) || (page >=? pages_per_block cfg)
  then Raise ValueError_page d else Return tt d.

(** ** Dict accesses *)

(** [self._ftl[block]] *)
Definition ftl_block (block : Z) : M block_state := fun d =>
  match _ftl d !! block with
  | Some b => Return b d
  | None => Raise KeyError d
  end.

(** [self._ftl[block][page]] read *)
Definition ftl_page (block page : Z) : M page_status :=
  b ← ftl_block block;
  match pages b !! page with
  | Some s => mret s
  | None => raise KeyError
  end.

(** [self._ftl[block][page] = s]: the block must exist, the key is created
    when it is missing. *)
Definition ftl_set_page (block page : Z) (s : page_status) : M unit :=
  b ← ftl_block block;
  modify (set_ftl <[block := set_pages <[page := s]> b]>).

(** [self._ftl[block]['empty'] += k] *)
Definition ftl_add_empty (block k : Z) : M unit :=
  b ← ftl_block block;
  modify (set_ftl <[block := set_empty_count (fun n => n + k) b]>).

(** [self._ftl[block]['dirty'] += k] *)
Definition ftl_add_dirty (block k : Z) : M unit :=
  b ← ftl_block block;
  modify (set_ftl <[block := set_dirty_count (fun n => n + k) b]>).

(** ** [get_empty_page] *)

Fixpoint scan_empty_page (block : Z) (ps : list Z) : M Z :=
  match ps with
  | [] => raise ValueError_after_scan
  | p :: ps' =>
      s ← ftl_page block p;
      if decide (s = PAGE_EMPTY) then mret p else scan_empty_page block ps'
  end.

Definition get_empty_page (block : Z) : M Z :=
  check_block block;;
  b ← ftl_block block;
  if empty_count b <=? 0 then raise ValueError_no_empty
  else scan_empty_page block (seqZ 0 (pages_per_block cfg)).

(** ** [BaseNANDDisk.full_block_write_policy]: the naive policy *)

Fixpoint naive_scan (block page : Z) (bs : list Z) : M bool :=
  match bs with
  | [] => mret false
  | b :: bs' =>
      if decide (b = block) then naive_scan block page bs'
      else
        blk ← ftl_block b;
        if 0 <? empty_count blk then
          p ← get_empty_page b;
          ftl_set_page block page PAGE_DIRTY;;
          ftl_set_page b p PAGE_IN_USE;;
          ftl_add_dirty block 1;;
          ftl_add_empty b (-1);;
          modify (add_elapsed_time (write_page_time cfg));;
          modify incr_page_write_executed;;
          mret true
        else naive_scan block page bs'
  end.

Definition naive_full_block_write_policy (block page : Z) : M bool :=
  check_block block;;
  check_page page;;
  naive_scan block page (seqZ 0 (total_blocks cfg)).

(** ** The raw operations *)

Section RawOperations.

(** [self.full_block_write_policy], resolved by the class of the object. *)
Variable full_block_write_policy : Z -> Z -> M bool.

Definition raw_write_page_with (block page : Z) : M bool :=
  check_block block;;
  check_page page;;
  s ← ftl_page block page;
  match s with
  | PAGE_EMPTY =>
      ftl_set_page block page PAGE_IN_USE;;
      ftl_add_empty block (-1);;
      modify (add_elapsed_time (write_page_time cfg));;
      modify incr_page_write_executed;;
      mret true
  | PAGE_IN_USE =>
      b ← ftl_block block;
      if empty_count b <=? 0 then
        ok ← full_block_write_policy block page;
        if ok : bool then mret true
        else modify incr_page_write_failed;; mret false
      else
        newpage ← get_empty_page block;
        ftl_set_page block page PAGE_DIRTY;;
        ftl_set_page block newpage PAGE_IN_USE;;
        ftl_add_empty block (-1);;
        ftl_add_dirty block 1;;
        modify (add_elapsed_time (write_page_time cfg));;
        modify incr_page_write_executed;;
        mret true
  | PAGE_DIRTY => mret false
  end.

End RawOperations.

Definition raw_read_page (block page : Z) : M bool :=
  check_block block;;
  check_page page;;
  s ← ftl_page block page;
  if decide (s = PAGE_IN_USE) then
    modify (add_elapsed_time (read_page_time cfg));;
    modify incr_page_read_executed;;
    mret true
  else mret false.

Fixpoint erase_pages (block : Z) (ps : list Z) : M unit :=
  match ps with
  | [] => mret tt
  | p :: ps' => ftl_set_page block p PAGE_EMPTY;; erase_pages block ps'
  end.

Definition raw_erase_block (block : Z) : M bool :=
  check_block block;;
  erase_pages block (seqZ 0 (pages_per_block cfg));;
  b ← ftl_block block;
  modify (set_ftl <[block := set_empty_count (fun _ => pages_per_block cfg) b]>);;
  b ← ftl_block block;
  modify (set_ftl <[block := set_dirty_count (fun _ => 0) b]>);;
  modify incr_block_erase_executed;;
  modify (add_elapsed_time (erase_block_time cfg));;
  mret true.

(** ** [WritePolicyInPlace.full_block_write_policy]: in-place collection *)

(** Modelled from the spec: the class [WritePolicyInterface] that
    [WritePolicyInPlace] extends is not among the sources, and the policy
    unpacks a pair, [res, status = self.raw_read_page(...)].  By the spec
    ("raw_read_page(block, page) -> Success | NoData") [res] is the flag
    that [BaseNANDDisk.raw_read_page] returns, with the same effects; the
    policy never looks at [status], which is left without content here. *)
Definition raw_read_page_status (block page : Z) : M (bool * unit) :=
  res ← raw_read_page block page;
  mret (res, tt).

(** STEP 1: the loop that fills [temp_block]. *)
Fixpoint snapshot_block (block : Z) (ps : list Z)
    (temp_block : gmap Z page_status) : M (gmap Z page_status) :=
  match ps with
  | [] => mret temp_block
  | p :: ps' =>
      '(res, status) ← raw_read_page_status block p;
      if res : bool
      then snapshot_block block ps' (<[p := PAGE_IN_USE]> temp_block)
      else snapshot_block block ps' (<[p := PAGE_EMPTY]> temp_block)
  end.

(** STEP 3: the loop that writes the pages marked in use; the result of
    each [raw_write_page] is dropped. *)
Fixpoint rewrite_block (raw_write_page : Z -> Z -> M bool) (block : Z)
    (temp_block : gmap Z page_status) (ps : list Z) : M unit :=
  match ps with
  | [] => mret tt
  | p :: ps' =>
      match temp_block !! p with
      | None => raise KeyError
      | Some s =>
          (if decide (s = PAGE_IN_USE)
           then raw_write_page block p;; mret tt
           else mret tt);;
          rewrite_block raw_write_page block temp_block ps'
      end
  end.

(** The policy calls [self.raw_write_page], which may call the policy
    again: the recursion is bounded by [fuel]. *)
Fixpoint in_place_full_block_write_policy (fuel : nat) (block page : Z)
    : M bool :=
  match fuel with
  | O => fun _ => OutOfFuel
  | S fuel' =>
      check_block block;;
      check_page page;;
      ftl_set_page block page PAGE_DIRTY;;
      temp_block ← snapshot_block block (seqZ 0 (pages_per_block cfg)) ∅;
      let temp_block := <[page := PAGE_IN_USE]> temp_block in
      raw_erase_block block;;
      rewrite_block
        (raw_write_page_with (in_place_full_block_write_policy fuel'))
        block temp_block (seqZ 0 (pages_per_block cfg));;
      mret true
  end.

(** ** Method resolution and the host operations *)

Definition full_block_write_policy (pol : write_policy) (fuel : nat)
    : Z -> Z -> M bool :=
  match pol with
  | Naive => naive_full_block_write_policy
  | InPlace => in_place_full_block_write_policy fuel
  end.

Definition raw_write_page (pol : write_policy) (fuel : nat)
    : Z -> Z -> M bool :=
  raw_write_page_with (full_block_write_policy pol fuel).

Definition host_write_page (pol : write_policy) (fuel : nat)
    (block page : Z) : M bool :=
  check_block block;;
  check_page page;;
  ok ← raw_write_page pol fuel block page;
  if ok : bool then modify incr_host_page_write_request;; mret true
  else mret false.

(** ** Views of the state used in the statements *)

(** The status stored at a coordinate, when the keys exist. *)
Definition page_at (d : disk) (block page : Z) : option page_status :=
  b ← _ftl d !! block; pages b !! page.

(** How many of the page indices [ps] hold status [s] in a page dict. *)
Fixpoint count_in (m : gmap Z page_status) (s : page_status) (ps : list Z)
    : Z :=
  match ps with
  | [] => 0
  | p :: ps' => (if decide (m !! p = Some s) then 1 else 0) + count_in m s ps'
  end.

(** The actual number of pages of a block with status [s]. *)
Definition count_pages (s : page_status) (b : block_state) : Z :=
  count_in (pages b) s (seqZ 0 (pages_per_block cfg)).

(** The page dict after the loop of [raw_erase_block] over [ps]. *)
Definition erased_pages (m : gmap Z page_status) (ps : list Z)
    : gmap Z page_status :=
  foldl (fun m p => <[p := PAGE_EMPTY]> m) m ps.

(** A block whose page keys all exist and whose two cached counters agree
    with its pages. *)
Definition block_ok (b : block_state) : Prop :=
  (∀ p, 0 ≤ p < pages_per_block cfg → is_Some (pages b !! p)) ∧
  empty_count b = count_pages PAGE_EMPTY b ∧
  dirty_count b = count_pages PAGE_DIRTY b.

Definition ftl_ok (f : gmap Z block_state) : Prop :=
  ∀ block, 0 ≤ block < total_blocks cfg →
    ∃ b, f !! block = Some b ∧ block_ok b.

Definition disk_ok (d : disk) : Prop := ftl_ok (_ftl d).

(** ** Sequences of operations *)

Inductive op :=
| Raw_write_page (block page : Z)
| Host_write_page (block page : Z)
| Raw_read_page (block page : Z)
| Raw_erase_block (block : Z)
| Full_block_write_policy (block page : Z).

Definition in_range (block page : Z) : Prop :=
  (0 ≤ block < total_blocks cfg) ∧ (0 ≤ page < pages_per_block cfg).

Definition op_in_range (o : op) : Prop :=
  match o with
  | Raw_write_page b p | Host_write_page b p
  | Raw_read_page b p | Full_block_write_policy b p => in_range b p
  | Raw_erase_block b => 0 ≤ b < total_blocks cfg
  end.

Definition exec (pol : write_policy) (fuel : nat) (o : op) : M bool :=
  match o with
  | Raw_write_page b p => raw_write_page pol fuel b p
  | Host_write_page b p => host_write_page pol fuel b p
  | Raw_read_page b p => raw_read_page b p
  | Raw_erase_block b => raw_erase_block b
  | Full_block_write_policy b p => full_block_write_policy pol fuel b p
  end.

(** The states a disk of class [pol] reaches from [init_disk] by in-range
    operations that return, each allowed in the state it is called in. *)
Inductive reachable_by (allowed : op → disk → Prop) (pol : write_policy)
    : disk → Prop :=
| reachable_init : reachable_by allowed pol init_disk
| reachable_step d o fuel r d' :
    reachable_by allowed pol d →
    allowed o d →
    op_in_range o →
    exec pol fuel o d = Return r d' →
    reachable_by allowed pol d'.

(** Every operation, the policy method included, whatever the state. *)
Definition any_op (o : op) (d : disk) : Prop := True.

(** The operations of a driver: host writes, reads and erases. *)
Definition driver_op (o : op) (d : disk) : Prop :=
  match o with
  | Host_write_page _ _ | Raw_read_page _ _ | Raw_erase_block _ => True
  | _ => False
  end.

(** Every operation, the naive policy method only on a page in use (the
    state [raw_write_page] calls it in). *)
Definition contract_op (pol : write_policy) (o : op) (d : disk) : Prop :=
  match o with
  | Full_block_write_policy b p =>
      pol = InPlace ∨ page_at d b p = Some PAGE_IN_USE
  | _ => True
  end.

Definition reachable (pol : write_policy) : disk → Prop :=
  reachable_by (contract_op pol) pol.

End Disk.

(** ** Statistics: the two ratios *)

(** The statistics are computed with Python's [decimal] module, which is
    not part of the repository.  A finite [Decimal] is a sign, a string of
    digits and an exponent; it is modelled by the digits and the sign as
    one signed integer [coefficient], and the [exponent], so that the
    trailing zeros of a result are the ones Python gives it and
    [Decimal('1')] is not [Decimal('1.00')].  The sign of a zero is not
    kept, and the exponent limits of the context (Emax = 999999) are not
    modelled.  Multiplication, division and the rounding of their results
    follow [Decimal.__mul__], [Decimal.__truediv__] and [Decimal._fix] of
    the standard library on finite numbers, with the default rounding
    [ROUND_HALF_EVEN]; division by zero signals [DivisionByZero], or
    [InvalidOperation] for 0 / 0, and both are trapped by the default
    context, so they are raised. *)
Record decimal := Dec { coefficient : Z; exponent : Z }.

Inductive decimal_signal := DivisionByZero | InvalidOperation.

(** [DECIMAL_PRECISION = 12], the precision [__init__] gives the context. *)
Definition DECIMAL_PRECISION : Z := 12.

(** [len(str(n))] for a positive [n]. *)
Fixpoint digits_fuel (fuel : nat) (n : Z) : Z :=
  match fuel with
  | O => 1
  | S fuel' => if n <? 10 then 1 else 1 + digits_fuel fuel' (n / 10)
  end.

Definition digits (n : Z) : Z := digits_fuel (Z.to_nat (Z.log2 n)) n.

(** The integer nearest to [n / d], the even one of two equally near. *)
Definition div_half_even (n d : Z) : Z :=
  let q := n / d in
  let r := n mod d in
  if 2 * r <? d then q
  else if d <? 2 * r then q + 1
  else if Z.even q then q else q + 1.

(** [Decimal._fix] on a finite number: a coefficient of more than [prec]
    digits is cut to its first [prec] digits and rounded half to even on
    the digits dropped; when the rounding carries out of the top digit the
    last zero is dropped and the exponent raised once more. *)
Definition decimal_fix (prec : Z) (x : decimal) : decimal :=
  if coefficient x =? 0 then x
  else
    let exp_min := digits (Z.abs (coefficient x)) + exponent x - prec in
    if exponent x <? exp_min then
      let coeff :=
        div_half_even (Z.abs (coefficient x)) (10 ^ (exp_min - exponent x)) in
      if prec <? digits coeff
      then Dec (Z.sgn (coefficient x) * (coeff / 10)) (exp_min + 1)
      else Dec (Z.sgn (coefficient x) * coeff) exp_min
    else x.

(** The loop of [__truediv__] on an exact quotient,
    [while exp < ideal_exp and coeff % 10 == 0], with [fuel] the distance
    of [exp] to the ideal exponent. *)
Fixpoint strip_zeros (fuel : nat) (coeff exp : Z) : Z * Z :=
  match fuel with
  | O => (coeff, exp)
  | S fuel' =>
      if coeff mod 10 =? 0 then strip_zeros fuel' (coeff / 10) (exp + 1)
      else (coeff, exp)
  end.

(** [Decimal(n)] for an integer [n]: exact, whatever the precision. *)
Definition Decimal (n : Z) : decimal := Dec n 0.

(** [x * y] *)
Definition decimal_mul (prec : Z) (x y : decimal) : decimal :=
  decimal_fix prec
    (Dec (coefficient x * coefficient y) (exponent x + exponent y)).

(** [x / y]: the quotient is computed to [prec + 1] or [prec + 2] digits,
    with a last digit 0 or 5 raised by one when a remainder is left so that
    the rounding of [_fix] goes the right way; an exact quotient loses its
    trailing zeros down to the ideal exponent. *)
Definition decimal_div (prec : Z) (x y : decimal)
    : decimal + decimal_signal :=
  if coefficient y =? 0 then
    if coefficient x =? 0 then inr InvalidOperation else inr DivisionByZero
  else if coefficient x =? 0 then inl (Dec 0 (exponent x - exponent y))
  else
    let op1 := Z.abs (coefficient x) in
    let op2 := Z.abs (coefficient y) in
    let ideal_exp := exponent x - exponent y in
    let shift := digits op2 - digits op1 + prec + 1 in
    let exp := ideal_exp - shift in
    let num := if 0 <=? shift then op1 * 10 ^ shift else op1 in
    let den := if 0 <=? shift then op2 else op2 * 10 ^ (- shift) in
    let coeff := num / den in
    let remainder := num mod den in
    let '(coeff, exp) :=
      if remainder =? 0
      then strip_zeros (Z.to_nat (ideal_exp - exp)) coeff exp
      else (if coeff mod 5 =? 0 then coeff + 1 else coeff, exp) in
    inl (decimal_fix prec
           (Dec (Z.sgn (coefficient x) * Z.sgn (coefficient y) * coeff) exp)).

(** [BaseNANDDisk.write_amplification] *)
Definition write_amplification (d : disk) : decimal + decimal_signal :=
  decimal_div DECIMAL_PRECISION (Decimal (_page_write_executed d))
    (Decimal (_host_page_write_request d)).

(** [BaseNANDDisk.failure_rate] *)
Definition failure_rate (d : disk) : decimal + decimal_signal :=
  decimal_div DECIMAL_PRECISION
    (decimal_mul DECIMAL_PRECISION (Decimal (_page_write_failed d))
       (Decimal 100))
    (Decimal (_page_write_executed d)).

(** The decimal [r] is exactly the ratio [a / b]. *)
Definition decimal_is_ratio (r : decimal) (a b : Z) : Prop :=
  coefficient r * 10 ^ Z.max 0 (exponent r) * b
  = a * 10 ^ Z.max 0 (- exponent r).

(** The decimal [r] is within half a unit of its last digit of [a / b]. *)
Definition decimal_rounds_ratio (r : decimal) (a b : Z) : Prop :=
  2 * Z.abs (coefficient r * 10 ^ Z.max 0 (exponent r) * b
             - a * 10 ^ Z.max 0 (- exponent r))
  ≤ Z.abs b * 10 ^ Z.max 0 (exponent r).

(** The ratio [a / b] lies half-way between [r] and a neighbour of [r] in
    the last digit. *)
Definition decimal_tie (r : decimal) (a b : Z) : Prop :=
  2 * Z.abs (coefficient r * 10 ^ Z.max 0 (exponent r) * b
             - a * 10 ^ Z.max 0 (- exponent r))
  = Z.abs b * 10 ^ Z.max 0 (exponent r).

(** With an exponent one lower the coefficient nearest to [a / b] would
    reach [10 ^ prec]: [a / b] is at least [(10 ^ prec - 1/2)] units of
    [10 ^ (exponent r - 1)]. *)
Definition decimal_least_exponent (prec : Z) (r : decimal) (a b : Z) : Prop :=
  (2 * 10 ^ prec - 1) * b * 10 ^ Z.max 0 (exponent r - 1)
  ≤ 2 * a * 10 ^ Z.max 0 (1 - exponent r).

(** [r] is the ratio [a / b] of two integers that are not negative, rounded
    half to even to [prec] significant digits, as Python writes it:
    - the coefficient has at most [prec] digits and is the integer nearest
      to the ratio in units of [10 ^ exponent], the even one at a tie;
    - when [r] is the ratio exactly, it has exponent 0, or a negative
      exponent and no trailing zero, or a positive exponent and [prec]
      digits;
    - when it is not, the coefficient has [prec] digits and the exponent is
      the least that allows it.
    At most one decimal is that ([half_even_unique] below). *)
Definition decimal_half_even (prec : Z) (r : decimal) (a b : Z) : Prop :=
  0 ≤ coefficient r < 10 ^ prec ∧
  decimal_rounds_ratio r a b ∧
  (decimal_tie r a b → Z.even (coefficient r) = true) ∧
  (decimal_is_ratio r a b →
   exponent r = 0 ∨
   (exponent r < 0 ∧ coefficient r mod 10 ≠ 0) ∨
   (0 < exponent r ∧ 10 ^ (prec - 1) ≤ coefficient r)) ∧
  (¬ decimal_is_ratio r a b →
   10 ^ (prec - 1) ≤ coefficient r ∧ decimal_least_exponent prec r a b).

(** ** A driver *)

(** The disk an outcome leaves behind; an exception leaves the disk as it
    was when it was raised. *)
Definition state_of {A} (o : outcome A) (default : disk) : disk :=
  match o with
  | Return _ d => d
  | Raise _ d => d
  | OutOfFuel => default
  end.

(** A driver that issues the operations one after the other. *)
Fixpoint run_ops (cfg : config) (pol : write_policy) (fuel : nat)
    (ops : list op) (d : disk) : disk :=
  match ops with
  | [] => d
  | o :: ops' => run_ops cfg pol fuel ops' (state_of (exec cfg pol fuel o d) d)
  end.

(** ** Concrete disks *)

(** Two blocks of one page (Scenario 3 of the specification) and two blocks
    of two pages (Scenario 4), with the default timings of the class. *)
Definition cfg21 : config := Config 2 1 4096 250 25 1500.
Definition cfg22 : config := Config 2 2 4096 250 25 1500.

(** The naive disk after a write and an overwrite of page (0,0): page (0,0)
    is dirty, page (1,0) is in use, no block has an empty page. *)
Definition disk_naive_full : disk :=
  run_ops cfg21 Naive 1 [Host_write_page 0 0; Host_write_page 0 0]
    (init_disk cfg21).

(** The naive disk after one write of page (0,0): block 0 is full, block 1
    is empty. *)
Definition disk_naive_one : disk :=
  run_ops cfg21 Naive 1 [Host_write_page 0 0] (init_disk cfg21).

(** The naive policy method called on the empty page (0,0) of a new disk. *)
Definition disk_policy_on_empty : disk :=
  run_ops cfg21 Naive 1 [Full_block_write_policy 0 0] (init_disk cfg21).

(** The in-place disk with both pages of block 0 written. *)
Definition disk_in_place_full : disk :=
  run_ops cfg22 InPlace 1 [Host_write_page 0 0; Host_write_page 0 1]
    (init_disk cfg22).

(** The in-place disk after both pages of block 0 are written and page
    (0,0) is overwritten: three host writes, four page writes. *)
Definition disk_in_place_gc : disk :=
  run_ops cfg22 InPlace 1
    [Host_write_page 0 0; Host_write_page 0 1; Host_write_page 0 0]
    (init_disk cfg22).

(** The in-place disk after one write of page (0,0): block 0 has room. *)
Definition disk_in_place_one : disk :=
  run_ops cfg22 InPlace 1 [Host_write_page 0 0] (init_disk cfg22).

(** ** The remaining statistics of [BaseNANDDisk] *)

(** The loop [for b in range(0, self.total_blocks): tot += self._ftl[b][key]]
    of [number_of_empty_pages] and [number_of_dirty_pages]. *)
Fixpoint sum_blocks (key : block_state → Z) (bs : list Z) (tot : Z) : M Z :=
  match bs with
  | [] => mret tot
  | b :: bs' => blk ← ftl_block b; sum_blocks key bs' (tot + key blk)
  end.

Definition number_of_empty_pages (cfg : config) : M Z :=
  sum_blocks empty_count (seqZ 0 (total_blocks cfg)) 0.

Definition number_of_dirty_pages (cfg : config) : M Z :=
  sum_blocks dirty_count (seqZ 0 (total_blocks cfg)) 0.

(** [BaseNANDDisk.elapsed_time] *)
Definition elapsed_time (d : disk) : decimal + decimal_signal :=
  decimal_div DECIMAL_PRECISION (Decimal (_elapsed_time d)) (Decimal 1000000).

(** [int(x)] for a decimal [x]: the digits after the point are dropped. *)
Definition decimal_to_int (x : decimal) : Z :=
  if 0 <=? exponent x then coefficient x * 10 ^ exponent x
  else Z.quot (coefficient x) (10 ^ (- exponent x)).

(** [BaseNANDDisk.IOPS]: [ops] is an [int], so [ops / self.elapsed_time()]
    is the decimal division of [Decimal(ops)]. *)
Definition IOPS (d : disk) : Z + decimal_signal :=
  let ops := _page_write_executed d + _page_read_executed d in
  match elapsed_time d with
  | inl t =>
      match decimal_div DECIMAL_PRECISION (Decimal ops) t with
      | inl q => inl (decimal_to_int q)
      | inr s => inr s
      end
  | inr s => inr s
  end.

(** A view: the sum of [key] over the blocks [bs] of a state. *)
Fixpoint block_total (key : block_state → Z) (f : gmap Z block_state)
    (bs : list Z) : Z :=
  match bs with
  | [] => 0
  | b :: bs' =>
      match f !! b with Some blk => key blk | None => 0 end
      + block_total key f bs'
  end.

(** A view: the actual number of pages of the disk with status [s]. *)
Definition pages_with (cfg : config) (s : page_status) (d : disk) : Z :=
  block_total (count_pages cfg s) (_ftl d) (seqZ 0 (total_blocks cfg)).

(** ** The helpers of [simulator/NAND/common.py] *)

(** These run in whatever decimal context is current; its precision is the
    parameter [prec]. *)

(** [TWOPLACES = Decimal('0.01')] and [NOPLACES = Decimal('0')] *)
Definition TWOPLACES : decimal := Dec 1 (-2).
Definition NOPLACES : decimal := Dec 0 0.

(** [bytes_to_mib] *)
Definition bytes_to_mib (prec : Z) (pbytes : Z) : decimal + decimal_signal :=
  decimal_div prec (Decimal pbytes) (Decimal 1048576).

(** [pages_to_mib] *)
Definition pages_to_mib (prec : Z) (pages page_size_bytes : Z)
    : decimal + decimal_signal :=
  bytes_to_mib prec (pages * page_size_bytes).

(** [x.quantize(exp)]: [x] rounded half to even to the exponent of [exp];
    [InvalidOperation] is raised when the coefficient of the result would
    have more digits than the precision. *)
Definition decimal_quantize (prec : Z) (x exp : decimal)
    : decimal + decimal_signal :=
  let c :=
    if exponent exp <=? exponent x
    then coefficient x * 10 ^ (exponent x - exponent exp)
    else Z.sgn (coefficient x)
         * div_half_even (Z.abs (coefficient x))
             (10 ^ (exponent exp - exponent x)) in
  if (c =? 0) || (digits (Z.abs c) <=? prec)
  then inl (Dec c (exponent exp))
  else inr InvalidOperation.

(** [get_quantized_decimal] and [get_integer_decimal], for an argument
    that is a decimal already ([Decimal(dec)] is then [dec]). *)
Definition get_quantized_decimal (prec : Z) (dec : decimal)
    : decimal + decimal_signal :=
  decimal_quantize prec dec TWOPLACES.

Definition get_integer_decimal (prec : Z) (dec : decimal)
    : decimal + decimal_signal :=
  decimal_quantize prec dec NOPLACES.

(** ** Views used by the further properties *)

(** An outcome that returns or raises with the disk [d] untouched. *)
Definition unchanged {A} (o : outcome A) (d : disk) : Prop :=
  (∃ a, o = Return a d) ∨ (∃ e, o = Raise e d).

(** What the naive disk never does between two states: no page leaves the
    dirty status, no page in use becomes empty, no page becomes empty. *)
Definition forward_only (d d' : disk) : Prop :=
  ∀ b p,
    (page_at d b p = Some PAGE_DIRTY → page_at d' b p = Some PAGE_DIRTY) ∧
    (page_at d b p = Some PAGE_IN_USE →
     page_at d' b p = Some PAGE_IN_USE ∨ page_at d' b p = Some PAGE_DIRTY) ∧
    (page_at d' b p = Some PAGE_EMPTY → page_at d b p = Some PAGE_EMPTY).

(** The time the counters account for: every executed page write, page
    read and block erase at its configured cost. *)
Definition accounted_time (cfg : config) (d : disk) : Z :=
  _page_write_executed d * write_page_time cfg
  + _page_read_executed d * read_page_time cfg
  + _block_erase_executed d * erase_block_time cfg.

(** A step that keeps the elapsed time in line with the counters and does
    not touch the host read counter. *)
Definition keeps_account (cfg : config) (d d' : disk) : Prop :=
  _elapsed_time d' - accounted_time cfg d'
  = _elapsed_time d - accounted_time cfg d ∧
  _host_page_read_request d' = _host_page_read_request d.

(** No counter of the disk is lower in [d'] than in [d]. *)
Definition counters_le (d d' : disk) : Prop :=
  _host_page_write_request d ≤ _host_page_write_request d' ∧
  _page_write_executed d ≤ _page_write_executed d' ∧
  _page_write_failed d ≤ _page_write_failed d' ∧
  _page_read_executed d ≤ _page_read_executed d' ∧
  _block_erase_executed d ≤ _block_erase_executed d'.

(** * Proofs *)

(** ** Running the monad *)

Lemma bind_eq {A B} (c : M A) (k : A → M B) d :
  (c ≫= k) d =
  match c d with
  | Return a d' => k a d'
  | Raise e d' => Raise e d'
  | OutOfFuel => OutOfFuel
  end.
Proof. reflexivity. Qed.

Lemma bind_Return {A B} (c : M A) (k : A → M B) d a d' :
  c d = Return a d' → (c ≫= k) d = k a d'.
Proof. intros H. rewrite bind_eq, H. reflexivity. Qed.

Lemma bind_Return_drop {A} (c : M A) d a d' :
  c d = Return a d' → (c ;; mret tt) d = Return tt d'.
Proof. intros H. by rewrite (bind_Return _ _ _ _ _ H). Qed.

Lemma bind_modify {B} (f : disk → disk) (k : unit → M B) d :
  (modify f ≫= k) d = k tt (f d).
Proof. reflexivity. Qed.

Lemma mret_eq {A} (a : A) d : (mret a : M A) d = Return a d.
Proof. reflexivity. Qed.

(** One step of a computation whose first action is known to return. *)
Ltac run_with tac :=
  cbv beta iota; erewrite bind_Return by tac; cbv beta iota.

(** Unfold the field updates and project through the constructors. *)
Ltac norm_disk :=
  unfold incr_host_page_write_request, incr_page_write_executed,
    incr_page_write_failed, incr_page_read_executed,
    incr_block_erase_executed, add_elapsed_time, set_ftl,
    set_pages, set_empty_count, set_dirty_count in *;
  cbn [_elapsed_time _host_page_write_request _page_write_executed
       _page_write_failed _host_page_read_request _page_read_executed
       _block_erase_executed _ftl pages empty_count dirty_count] in *.

Section Basics.

Variable cfg : config.

Lemma check_block_ok block d :
  0 ≤ block < total_blocks cfg → check_block cfg block d = Return tt d.
Proof.
  intros H. unfold check_block.
  destruct (Z.ltb_spec block 0); [lia|].
  destruct (Z.geb_spec block (total_blocks cfg)); [lia|]. reflexivity.
Qed.

Lemma check_page_ok page d :
  0 ≤ page < pages_per_block cfg → check_page cfg page d = Return tt d.
Proof.
  intros H. unfold check_page.
  destruct (Z.ltb_spec page 0); [lia|].
  destruct (Z.geb_spec page (pages_per_block cfg)); [lia|]. reflexivity.
Qed.

Lemma ftl_block_eq block b d :
  _ftl d !! block = Some b → ftl_block block d = Return b d.
Proof. intros H. unfold ftl_block. rewrite H. reflexivity. Qed.

Lemma ftl_page_eq block page b s d :
  _ftl d !! block = Some b → pages b !! page = Some s →
  ftl_page block page d = Return s d.
Proof.
  intros Hb Hp. unfold ftl_page.
  rewrite (bind_Return _ _ _ _ _ (ftl_block_eq _ _ _ Hb)), Hp. reflexivity.
Qed.

Lemma ftl_set_page_eq block page s b d :
  _ftl d !! block = Some b →
  ftl_set_page block page s d =
  Return tt (set_ftl <[block := set_pages <[page := s]> b]> d).
Proof.
  intros Hb. unfold ftl_set_page.
  rewrite (bind_Return _ _ _ _ _ (ftl_block_eq _ _ _ Hb)). reflexivity.
Qed.

Lemma ftl_add_empty_eq block k b d :
  _ftl d !! block = Some b →
  ftl_add_empty block k d =
  Return tt (set_ftl <[block := set_empty_count (fun n => n + k) b]> d).
Proof.
  intros Hb. unfold ftl_add_empty.
  rewrite (bind_Return _ _ _ _ _ (ftl_block_eq _ _ _ Hb)). reflexivity.
Qed.

Lemma ftl_add_dirty_eq block k b d :
  _ftl d !! block = Some b →
  ftl_add_dirty block k d =
  Return tt (set_ftl <[block := set_dirty_count (fun n => n + k) b]> d).
Proof.
  intros Hb. unfold ftl_add_dirty.
  rewrite (bind_Return _ _ _ _ _ (ftl_block_eq _ _ _ Hb)). reflexivity.
Qed.

(** ** Counting pages *)

Lemma count_in_bounds m s ps : 0 ≤ count_in m s ps ≤ Z.of_nat (length ps).
Proof.
  induction ps as [|p ps IH]; simpl; [lia|]. destruct (decide _); lia.
Qed.

Lemma count_in_ext m m' s ps :
  (∀ p, p ∈ ps → m !! p = m' !! p) → count_in m s ps = count_in m' s ps.
Proof.
  induction ps as [|p ps IH]; intros H; simpl; [done|].
  rewrite (H p) by (left; done). rewrite IH; [done|].
  intros q Hq. apply H. by right.
Qed.

(** Changing one page moves one unit from the count of its old status to
    the count of its new status. *)
Lemma count_in_insert m s ps i old new :
  NoDup ps → i ∈ ps → m !! i = Some old →
  count_in (<[i := new]> m) s ps =
  count_in m s ps - (if decide (old = s) then 1 else 0)
                  + (if decide (new = s) then 1 else 0).
Proof.
  intros Hnd Hi Hm. induction ps as [|p ps IH]; [by inversion Hi|].
  apply NoDup_cons in Hnd as [Hp Hnd]. simpl.
  destruct (decide (p = i)) as [->|Hne].
  - rewrite lookup_insert_eq, Hm.
    rewrite (count_in_ext (<[i:=new]> m) m).
    + repeat destruct (decide _); try congruence; lia.
    + intros q Hq. apply lookup_insert_ne. intros ->. done.
  - rewrite lookup_insert_ne by done.
    apply elem_of_cons in Hi as [->|Hi]; [done|].
    rewrite IH by done. lia.
Qed.

(** With every key present the three counts add up to the length. *)
Lemma count_in_total m ps :
  (∀ p, p ∈ ps → is_Some (m !! p)) →
  count_in m PAGE_EMPTY ps + count_in m PAGE_DIRTY ps
    + count_in m PAGE_IN_USE ps = Z.of_nat (length ps).
Proof.
  induction ps as [|p ps IH]; intros H; [done|].
  cbn [count_in length]. rewrite Nat2Z.inj_succ.
  destruct (H p) as [s Hs]; [by left|].
  rewrite <- IH by (intros q Hq; apply H; by right).
  rewrite Hs. destruct s; repeat destruct (decide _); try congruence; lia.
Qed.

Lemma count_in_pos_elem m s ps :
  0 < count_in m s ps → ∃ p, p ∈ ps ∧ m !! p = Some s.
Proof.
  induction ps as [|p ps IH]; simpl; [lia|].
  destruct (decide (m !! p = Some s)) as [Hp|Hp].
  - intros _. exists p. split; [by left|done].
  - intros H. destruct IH as (q & Hq & Hs); [lia|].
    exists q. split; [by right|done].
Qed.

Lemma count_in_all m s ps :
  (∀ p, p ∈ ps → m !! p = Some s) → count_in m s ps = Z.of_nat (length ps).
Proof.
  induction ps as [|p ps IH]; intros H; [done|].
  cbn [count_in length]. rewrite Nat2Z.inj_succ.
  rewrite IH by (intros q Hq; apply H; by right).
  rewrite (H p) by (by left). destruct (decide _); [lia|done].
Qed.

Lemma count_in_none m s ps :
  (∀ p, p ∈ ps → m !! p ≠ Some s) → count_in m s ps = 0.
Proof.
  induction ps as [|p ps IH]; intros H; [done|].
  cbn [count_in]. rewrite IH by (intros q Hq; apply H; by right).
  destruct (decide _) as [Hp|]; [|done]. exfalso. by apply (H p); [left|].
Qed.

Lemma count_pages_total b :
  0 ≤ pages_per_block cfg →
  (∀ p, 0 ≤ p < pages_per_block cfg → is_Some (pages b !! p)) →
  count_pages cfg PAGE_EMPTY b + count_pages cfg PAGE_DIRTY b
    + count_pages cfg PAGE_IN_USE b = pages_per_block cfg.
Proof.
  intros Hn H. unfold count_pages. rewrite count_in_total.
  - rewrite length_seqZ. lia.
  - intros p Hp. apply elem_of_seqZ in Hp. apply H. lia.
Qed.

Lemma count_range_insert (m : gmap Z page_status) s i old new :
  0 ≤ i < pages_per_block cfg → m !! i = Some old →
  count_in (<[i := new]> m) s (seqZ 0 (pages_per_block cfg)) =
  count_in m s (seqZ 0 (pages_per_block cfg))
    - (if decide (old = s) then 1 else 0)
    + (if decide (new = s) then 1 else 0).
Proof.
  intros Hi Hold. apply count_in_insert; [apply NoDup_seqZ| |done].
  apply elem_of_seqZ. lia.
Qed.

End Basics.

(** ** [get_empty_page] *)

Section GetEmptyPage.

Variable cfg : config.

(** The scan over a list of page indices whose keys all exist: it returns
    the first index holding [PAGE_EMPTY], or falls through when there is
    none. *)
Lemma scan_empty_page_spec block b d ps :
  _ftl d !! block = Some b →
  (∀ p, p ∈ ps → is_Some (pages b !! p)) →
  (∃ i p0, ps !! i = Some p0 ∧ pages b !! p0 = Some PAGE_EMPTY ∧
           (∀ j q, (j < i)%nat → ps !! j = Some q →
                   pages b !! q ≠ Some PAGE_EMPTY) ∧
           scan_empty_page block ps d = Return p0 d)
  ∨ ((∀ p, p ∈ ps → pages b !! p ≠ Some PAGE_EMPTY) ∧
     scan_empty_page block ps d = Raise ValueError_after_scan d).
Proof.
  intros Hb. induction ps as [|p ps IH]; intros Hall.
  - right. split; [|done]. intros p Hp. by inversion Hp.
  - destruct (Hall p) as [s Hs]; [by left|].
    cbn [scan_empty_page].
    rewrite (bind_Return _ _ _ _ _ (ftl_page_eq _ _ _ _ _ Hb Hs)).
    destruct (decide (s = PAGE_EMPTY)) as [->|Hne].
    + left. exists 0%nat, p. split_and!; [done|done| |done]. intros; lia.
    + destruct IH as [(i & p0 & Hi & Hp0 & Hmin & Hrun)|[Hno Hrun]].
      * intros q Hq. apply Hall. by right.
      * left. exists (S i), p0. split_and!; [done|done| |done].
        intros [|j] q Hj Hq; cbn in Hq.
        -- inversion Hq; subst. congruence.
        -- apply (Hmin j); [lia|done].
      * right. split; [|done]. intros q Hq.
        apply elem_of_cons in Hq as [->|Hq]; [congruence|by apply Hno].
Qed.

(** [get_empty_page] on a block with a positive cached counter and at
    least one empty page. *)
Lemma get_empty_page_first block b d :
  0 ≤ block < total_blocks cfg →
  _ftl d !! block = Some b →
  (∀ p, 0 ≤ p < pages_per_block cfg → is_Some (pages b !! p)) →
  0 < empty_count b →
  (∃ p, 0 ≤ p < pages_per_block cfg ∧ pages b !! p = Some PAGE_EMPTY) →
  ∃ p0, get_empty_page cfg block d = Return p0 d ∧
        0 ≤ p0 < pages_per_block cfg ∧
        pages b !! p0 = Some PAGE_EMPTY ∧
        ∀ q, 0 ≤ q < p0 → pages b !! q ≠ Some PAGE_EMPTY.
Proof.
  intros Hblock Hb Hkeys Hcnt (p & Hp & Hpe).
  unfold get_empty_page.
  rewrite (bind_Return _ _ _ _ _ (check_block_ok cfg _ _ Hblock)).
  rewrite (bind_Return _ _ _ _ _ (ftl_block_eq _ _ _ Hb)).
  destruct (Z.leb_spec (empty_count b) 0); [lia|].
  destruct (scan_empty_page_spec block b d (seqZ 0 (pages_per_block cfg)) Hb)
    as [(i & p0 & Hi & Hp0 & Hmin & Hrun)|[Hno _]].
  - intros q Hq. apply elem_of_seqZ in Hq. apply Hkeys. lia.
  - apply lookup_seqZ in Hi as [-> Hi]. exists (0 + Z.of_nat i).
    split_and!; [done|lia|lia|done|].
    intros q Hq. apply (Hmin (Z.to_nat q)); [lia|].
    apply lookup_seqZ. lia.
  - exfalso. apply (Hno p); [|done]. apply elem_of_seqZ. lia.
Qed.

(** The [raise] after the scan loop needs a positive cached counter and
    a block without any empty page. *)
Lemma get_empty_page_after_scan block b d d' :
  0 ≤ block < total_blocks cfg →
  _ftl d !! block = Some b →
  (∀ p, 0 ≤ p < pages_per_block cfg → is_Some (pages b !! p)) →
  get_empty_page cfg block d = Raise ValueError_after_scan d' →
  0 < empty_count b ∧
  ∀ p, 0 ≤ p < pages_per_block cfg → pages b !! p ≠ Some PAGE_EMPTY.
Proof.
  intros Hblock Hb Hkeys. unfold get_empty_page.
  rewrite (bind_Return _ _ _ _ _ (check_block_ok cfg _ _ Hblock)).
  rewrite (bind_Return _ _ _ _ _ (ftl_block_eq _ _ _ Hb)).
  destruct (Z.leb_spec (empty_count b) 0); [discriminate|].
  destruct (scan_empty_page_spec block b d (seqZ 0 (pages_per_block cfg)) Hb)
    as [(i & p0 & _ & _ & _ & ->)|[Hno _]].
  - intros q Hq. apply elem_of_seqZ in Hq. apply Hkeys. lia.
  - discriminate.
  - intros _. split; [lia|]. intros p Hp. apply Hno, elem_of_seqZ. lia.
Qed.

Lemma block_ok_has_empty b :
  block_ok cfg b → 0 < empty_count b →
  ∃ p, 0 ≤ p < pages_per_block cfg ∧ pages b !! p = Some PAGE_EMPTY.
Proof.
  intros (_ & He & _) Hpos. rewrite He in Hpos.
  apply count_in_pos_elem in Hpos as (p & Hp & Hs).
  apply elem_of_seqZ in Hp. exists p. split; [lia|done].
Qed.

Lemma get_empty_page_ok block b d :
  0 ≤ block < total_blocks cfg →
  _ftl d !! block = Some b → block_ok cfg b → 0 < empty_count b →
  ∃ p0, get_empty_page cfg block d = Return p0 d ∧
        0 ≤ p0 < pages_per_block cfg ∧
        pages b !! p0 = Some PAGE_EMPTY ∧
        ∀ q, 0 ≤ q < p0 → pages b !! q ≠ Some PAGE_EMPTY.
Proof.
  intros Hblock Hb Hok Hpos.
  apply get_empty_page_first; try done; [apply Hok|].
  by apply block_ok_has_empty.
Qed.

End GetEmptyPage.

(** ** The invariant under the updates the operations make *)

Section Invariant.

Variable cfg : config.

Lemma ftl_ok_insert f block b :
  ftl_ok cfg f → block_ok cfg b → ftl_ok cfg (<[block := b]> f).
Proof.
  intros Hf Hb k Hk. destruct (decide (block = k)) as [->|Hne].
  - exists b. by rewrite lookup_insert_eq.
  - rewrite lookup_insert_ne by done. by apply Hf.
Qed.

Lemma ftl_ok_lookup f block :
  ftl_ok cfg f → 0 ≤ block < total_blocks cfg →
  ∃ b, f !! block = Some b ∧ block_ok cfg b.
Proof. intros Hf Hk. by apply Hf. Qed.

Lemma keys_set_page (m : gmap Z page_status) i s :
  (∀ p, 0 ≤ p < pages_per_block cfg → is_Some (m !! p)) →
  ∀ p, 0 ≤ p < pages_per_block cfg → is_Some (<[i := s]> m !! p).
Proof.
  intros H p Hp. destruct (decide (i = p)) as [->|Hne].
  - rewrite lookup_insert_eq. by eexists.
  - rewrite lookup_insert_ne by done. by apply H.
Qed.

(** An empty page becomes in use: one empty page less. *)
Lemma block_ok_write_empty b i :
  block_ok cfg b → 0 ≤ i < pages_per_block cfg →
  pages b !! i = Some PAGE_EMPTY →
  block_ok cfg (Block (<[i := PAGE_IN_USE]> (pages b))
                      (empty_count b + -1) (dirty_count b)).
Proof.
  intros (Hk & He & Hd) Hi Hs. split_and!; cbn [pages empty_count dirty_count].
  - by apply keys_set_page.
  - unfold count_pages in *. cbn [pages].
    rewrite (count_range_insert cfg _ PAGE_EMPTY i _ PAGE_IN_USE Hi Hs), He.
    repeat destruct (decide _); try congruence; lia.
  - unfold count_pages in *. cbn [pages].
    rewrite (count_range_insert cfg _ PAGE_DIRTY i _ PAGE_IN_USE Hi Hs), Hd.
    repeat destruct (decide _); try congruence; lia.
Qed.

(** A page in use becomes dirty: one dirty page more. *)
Lemma block_ok_invalidate b i :
  block_ok cfg b → 0 ≤ i < pages_per_block cfg →
  pages b !! i = Some PAGE_IN_USE →
  block_ok cfg (Block (<[i := PAGE_DIRTY]> (pages b))
                      (empty_count b) (dirty_count b + 1)).
Proof.
  intros (Hk & He & Hd) Hi Hs. split_and!; cbn [pages empty_count dirty_count].
  - by apply keys_set_page.
  - unfold count_pages in *. cbn [pages].
    rewrite (count_range_insert cfg _ PAGE_EMPTY i _ PAGE_DIRTY Hi Hs), He.
    repeat destruct (decide _); try congruence; lia.
  - unfold count_pages in *. cbn [pages].
    rewrite (count_range_insert cfg _ PAGE_DIRTY i _ PAGE_DIRTY Hi Hs), Hd.
    repeat destruct (decide _); try congruence; lia.
Qed.

End Invariant.

(** ** The raw operations, branch by branch *)

Section RawSpecs.

Variable cfg : config.

Ltac run_checks :=
  repeat first
    [ run_with ltac:(apply check_block_ok; lia)
    | run_with ltac:(apply check_page_ok; lia) ].

(** Writing an empty page, whatever the policy of the disk. *)
Lemma raw_write_page_empty policy block page b d :
  in_range cfg block page →
  _ftl d !! block = Some b → pages b !! page = Some PAGE_EMPTY →
  raw_write_page_with cfg policy block page d =
  Return true
    (Disk (_elapsed_time d + write_page_time cfg)
       (_host_page_write_request d) (_page_write_executed d + 1)
       (_page_write_failed d) (_host_page_read_request d)
       (_page_read_executed d) (_block_erase_executed d)
       (<[block := Block (<[page := PAGE_IN_USE]> (pages b))
                         (empty_count b + -1) (dirty_count b)]> (_ftl d))).
Proof.
  intros [Hb Hp] Hblk Hs. unfold raw_write_page_with. run_checks.
  run_with ltac:(eapply ftl_page_eq; eassumption).
  run_with ltac:(eapply ftl_set_page_eq; eassumption).
  run_with ltac:(eapply ftl_add_empty_eq; cbn; apply lookup_insert_eq).
  rewrite !bind_modify, mret_eq. norm_disk.
  by rewrite insert_insert_eq.
Qed.

(** Writing a dirty page: discarded, nothing changes. *)
Lemma raw_write_page_dirty policy block page b d :
  in_range cfg block page →
  _ftl d !! block = Some b → pages b !! page = Some PAGE_DIRTY →
  raw_write_page_with cfg policy block page d = Return false d.
Proof.
  intros [Hb Hp] Hblk Hs. unfold raw_write_page_with. run_checks.
  run_with ltac:(eapply ftl_page_eq; eassumption). reflexivity.
Qed.

(** Overwriting a page in use while the block has an empty page. *)
Lemma raw_write_page_in_block policy block page b d :
  in_range cfg block page →
  _ftl d !! block = Some b → block_ok cfg b →
  pages b !! page = Some PAGE_IN_USE → 0 < empty_count b →
  ∃ newpage,
    0 ≤ newpage < pages_per_block cfg ∧
    pages b !! newpage = Some PAGE_EMPTY ∧
    (∀ q, 0 ≤ q < newpage → pages b !! q ≠ Some PAGE_EMPTY) ∧
    raw_write_page_with cfg policy block page d =
    Return true
      (Disk (_elapsed_time d + write_page_time cfg)
         (_host_page_write_request d) (_page_write_executed d + 1)
         (_page_write_failed d) (_host_page_read_request d)
         (_page_read_executed d) (_block_erase_executed d)
         (<[block := Block (<[newpage := PAGE_IN_USE]>
                              (<[page := PAGE_DIRTY]> (pages b)))
                           (empty_count b + -1) (dirty_count b + 1)]>
            (_ftl d))).
Proof.
  intros [Hb Hp] Hblk Hok Hs Hpos.
  destruct (get_empty_page_ok cfg block b d Hb Hblk Hok Hpos)
    as (newpage & Hget & Hnew & Hnews & Hmin).
  exists newpage. split_and!; [lia|lia|done|done|].
  unfold raw_write_page_with. run_checks.
  run_with ltac:(eapply ftl_page_eq; eassumption).
  run_with ltac:(eapply ftl_block_eq; eassumption).
  destruct (Z.leb_spec (empty_count b) 0); [lia|]. cbv beta iota.
  run_with ltac:(exact Hget).
  run_with ltac:(eapply ftl_set_page_eq; eassumption).
  run_with ltac:(eapply ftl_set_page_eq; cbn; apply lookup_insert_eq).
  run_with ltac:(eapply ftl_add_empty_eq; cbn; apply lookup_insert_eq).
  run_with ltac:(eapply ftl_add_dirty_eq; cbn; apply lookup_insert_eq).
  rewrite !bind_modify, mret_eq. norm_disk.
  by rewrite !insert_insert_eq.
Qed.

(** Overwriting a page in use in a full block: the policy decides. *)
Lemma raw_write_page_full policy block page b d :
  in_range cfg block page →
  _ftl d !! block = Some b →
  pages b !! page = Some PAGE_IN_USE → empty_count b ≤ 0 →
  raw_write_page_with cfg policy block page d =
  match policy block page d with
  | Return true d' => Return true d'
  | Return false d' => Return false (incr_page_write_failed d')
  | Raise e d' => Raise e d'
  | OutOfFuel => OutOfFuel
  end.
Proof.
  intros [Hb Hp] Hblk Hs Hfull. unfold raw_write_page_with. run_checks.
  run_with ltac:(eapply ftl_page_eq; eassumption).
  run_with ltac:(eapply ftl_block_eq; eassumption).
  destruct (Z.leb_spec (empty_count b) 0); [|lia]. cbv beta iota.
  rewrite bind_eq. destruct (policy block page d) as [[] d'|e d'|]; done.
Qed.

Lemma raw_read_page_in_use block page b d :
  in_range cfg block page →
  _ftl d !! block = Some b → pages b !! page = Some PAGE_IN_USE →
  raw_read_page cfg block page d =
  Return true
    (Disk (_elapsed_time d + read_page_time cfg)
       (_host_page_write_request d) (_page_write_executed d)
       (_page_write_failed d) (_host_page_read_request d)
       (_page_read_executed d + 1) (_block_erase_executed d) (_ftl d)).
Proof.
  intros [Hb Hp] Hblk Hs. unfold raw_read_page. run_checks.
  run_with ltac:(eapply ftl_page_eq; eassumption).
  destruct (decide _); [|done]. reflexivity.
Qed.

Lemma raw_read_page_no_data block page b s d :
  in_range cfg block page →
  _ftl d !! block = Some b → pages b !! page = Some s → s ≠ PAGE_IN_USE →
  raw_read_page cfg block page d = Return false d.
Proof.
  intros [Hb Hp] Hblk Hs Hne. unfold raw_read_page. run_checks.
  run_with ltac:(eapply ftl_page_eq; eassumption).
  destruct (decide _); [done|]. reflexivity.
Qed.

End RawSpecs.

(** ** Erasing and constructing *)

Lemma foldl_insert_lookup {A} (v : A) (ks : list Z) (m : gmap Z A) k :
  foldl (fun m k => <[k := v]> m) m ks !! k =
  if decide (k ∈ ks) then Some v else m !! k.
Proof.
  revert m. induction ks as [|k' ks IH]; intros m; cbn [foldl].
  - destruct (decide _) as [H|]; [by inversion H|done].
  - rewrite IH. destruct (decide (k ∈ ks)) as [Hin|Hnin].
    + rewrite decide_True by (by right). done.
    + destruct (decide (k = k')) as [->|Hne].
      * rewrite decide_True by (by left). apply lookup_insert_eq.
      * rewrite decide_False by (intros [?|?]%elem_of_cons; done).
        by apply lookup_insert_ne.
Qed.

Section Erase.

Variable cfg : config.

Lemma erased_pages_in m ps p :
  p ∈ ps → erased_pages m ps !! p = Some PAGE_EMPTY.
Proof.
  intros H. unfold erased_pages. rewrite foldl_insert_lookup.
  by rewrite decide_True.
Qed.

Lemma erased_pages_out m ps p : p ∉ ps → erased_pages m ps !! p = m !! p.
Proof.
  intros H. unfold erased_pages. rewrite foldl_insert_lookup.
  by rewrite decide_False.
Qed.

Lemma erased_range_lookup m p :
  0 ≤ p < pages_per_block cfg →
  erased_pages m (seqZ 0 (pages_per_block cfg)) !! p = Some PAGE_EMPTY.
Proof. intros H. apply erased_pages_in, elem_of_seqZ. lia. Qed.

Lemma block_ok_erased m :
  0 ≤ pages_per_block cfg →
  block_ok cfg (Block (erased_pages m (seqZ 0 (pages_per_block cfg)))
                      (pages_per_block cfg) 0).
Proof.
  intros Hn. split_and!; unfold count_pages; cbn [pages empty_count dirty_count].
  - intros p Hp. rewrite erased_range_lookup by done. by eexists.
  - rewrite count_in_all.
    + rewrite length_seqZ. lia.
    + intros p Hp. apply erased_pages_in. done.
  - symmetry. apply count_in_none. intros p Hp.
    rewrite erased_pages_in by done. done.
Qed.

Lemma erase_pages_eq block ps b d :
  _ftl d !! block = Some b →
  erase_pages block ps d =
  Return tt (set_ftl <[block := set_pages (fun m => erased_pages m ps) b]> d).
Proof.
  revert b d. induction ps as [|p ps IH]; intros b d Hb; cbn [erase_pages].
  - rewrite mret_eq. f_equal. destruct d, b. norm_disk.
    cbn [erased_pages foldl]. cbn in Hb. by rewrite insert_id.
  - erewrite bind_Return by (eapply ftl_set_page_eq; eassumption).
    erewrite IH by (cbn; apply lookup_insert_eq).
    norm_disk. by rewrite insert_insert_eq.
Qed.

Lemma raw_erase_block_eq block b d :
  0 ≤ block < total_blocks cfg → _ftl d !! block = Some b →
  raw_erase_block cfg block d =
  Return true
    (Disk (_elapsed_time d + erase_block_time cfg)
       (_host_page_write_request d) (_page_write_executed d)
       (_page_write_failed d) (_host_page_read_request d)
       (_page_read_executed d) (_block_erase_executed d + 1)
       (<[block := Block (erased_pages (pages b)
                            (seqZ 0 (pages_per_block cfg)))
                         (pages_per_block cfg) 0]> (_ftl d))).
Proof.
  intros Hblock Hb. unfold raw_erase_block.
  erewrite bind_Return by (apply check_block_ok; lia). cbv beta.
  erewrite bind_Return by (eapply erase_pages_eq; eassumption). cbv beta.
  erewrite bind_Return by (eapply ftl_block_eq; cbn; apply lookup_insert_eq).
  rewrite bind_modify.
  erewrite bind_Return by (eapply ftl_block_eq; cbn; apply lookup_insert_eq).
  rewrite !bind_modify, mret_eq. norm_disk. by rewrite !insert_insert_eq.
Qed.

Lemma init_disk_ok : 0 ≤ pages_per_block cfg → disk_ok cfg (init_disk cfg).
Proof.
  intros Hn block Hblock. exists (init_block cfg). split.
  - unfold init_disk. cbn [_ftl]. rewrite foldl_insert_lookup.
    rewrite decide_True; [done|]. apply elem_of_seqZ. lia.
  - apply (block_ok_erased ∅ Hn).
Qed.

End Erase.

(** ** The naive policy *)

Section NaivePolicy.

Variable cfg : config.


(** The body of the loop once a block [b0] with room is found. *)
Lemma naive_relocate_eq block page b0 blk blk0 p0 d :
  b0 ≠ block →
  _ftl d !! block = Some blk → _ftl d !! b0 = Some blk0 →
  get_empty_page cfg b0 d = Return p0 d →
  (p ← get_empty_page cfg b0;
   ftl_set_page block page PAGE_DIRTY;;
   ftl_set_page b0 p PAGE_IN_USE;;
   ftl_add_dirty block 1;;
   ftl_add_empty b0 (-1);;
   modify (add_elapsed_time (write_page_time cfg));;
   modify incr_page_write_executed;;
   mret true) d =
  Return true
    (Disk (_elapsed_time d + write_page_time cfg)
       (_host_page_write_request d) (_page_write_executed d + 1)
       (_page_write_failed d) (_host_page_read_request d)
       (_page_read_executed d) (_block_erase_executed d)
       (<[b0 := Block (<[p0 := PAGE_IN_USE]> (pages blk0))
                      (empty_count blk0 + -1) (dirty_count blk0)]>
          (<[block := Block (<[page := PAGE_DIRTY]> (pages blk))
                            (empty_count blk) (dirty_count blk + 1)]>
             (_ftl d)))).
Proof.
  intros Hne Hblk Hblk0 Hget.
  run_with ltac:(exact Hget).
  run_with ltac:(eapply ftl_set_page_eq; eassumption).
  run_with ltac:(eapply ftl_set_page_eq; cbn;
                 rewrite lookup_insert_ne by done; eassumption).
  run_with ltac:(eapply ftl_add_dirty_eq; cbn;
                 rewrite lookup_insert_ne by done; apply lookup_insert_eq).
  run_with ltac:(eapply ftl_add_empty_eq; cbn;
                 rewrite lookup_insert_ne by done; apply lookup_insert_eq).
  rewrite !bind_modify, mret_eq. norm_disk. do 2 f_equal.
  rewrite (insert_insert_ne _ block b0) by done.
  by rewrite !insert_insert_eq.
Qed.

(** The scan over a list of in-range block indices: either no block other
    than the target has room and nothing changes, or the first one with
    room takes the data in its first empty page. *)
Lemma naive_scan_spec block page blk d bs :
  disk_ok cfg d → _ftl d !! block = Some blk →
  (∀ b, b ∈ bs → 0 ≤ b < total_blocks cfg) →
  ((∀ b b', b ∈ bs → b ≠ block → _ftl d !! b = Some b' →
            empty_count b' ≤ 0) ∧
   naive_scan cfg block page bs d = Return false d)
  ∨ (∃ i b0 blk0 p0,
       bs !! i = Some b0 ∧ b0 ≠ block ∧ _ftl d !! b0 = Some blk0 ∧
       0 < empty_count blk0 ∧
       (∀ j b b', (j < i)%nat → bs !! j = Some b → b ≠ block →
                  _ftl d !! b = Some b' → empty_count b' ≤ 0) ∧
       0 ≤ p0 < pages_per_block cfg ∧
       pages blk0 !! p0 = Some PAGE_EMPTY ∧
       (∀ q, 0 ≤ q < p0 → pages blk0 !! q ≠ Some PAGE_EMPTY) ∧
       naive_scan cfg block page bs d =
       Return true
         (Disk (_elapsed_time d + write_page_time cfg)
            (_host_page_write_request d) (_page_write_executed d + 1)
            (_page_write_failed d) (_host_page_read_request d)
            (_page_read_executed d) (_block_erase_executed d)
            (<[b0 := Block (<[p0 := PAGE_IN_USE]> (pages blk0))
                           (empty_count blk0 + -1) (dirty_count blk0)]>
               (<[block := Block (<[page := PAGE_DIRTY]> (pages blk))
                                 (empty_count blk) (dirty_count blk + 1)]>
                  (_ftl d))))).
Proof.
  intros Hok Hblk. induction bs as [|b bs IH]; intros Hrange.
  - left. split; [|done]. intros b b' Hb. by inversion Hb.
  - assert (Hbs : ∀ b, b ∈ bs → 0 ≤ b < total_blocks cfg)
      by (intros ? ?; apply Hrange; by right).
    specialize (IH Hbs). cbn [naive_scan].
    assert (Hshift :
      (∀ b', _ftl d !! b = Some b' → b ≠ block → empty_count b' ≤ 0) →
      ((∀ b1 b', b1 ∈ b :: bs → b1 ≠ block → _ftl d !! b1 = Some b' →
                 empty_count b' ≤ 0) ∧
       naive_scan cfg block page bs d = Return false d)
      ∨ (∃ i b0 blk0 p0,
           (b :: bs) !! i = Some b0 ∧ b0 ≠ block ∧ _ftl d !! b0 = Some blk0 ∧
           0 < empty_count blk0 ∧
           (∀ j b1 b', (j < i)%nat → (b :: bs) !! j = Some b1 → b1 ≠ block →
                      _ftl d !! b1 = Some b' → empty_count b' ≤ 0) ∧
           0 ≤ p0 < pages_per_block cfg ∧
           pages blk0 !! p0 = Some PAGE_EMPTY ∧
           (∀ q, 0 ≤ q < p0 → pages blk0 !! q ≠ Some PAGE_EMPTY) ∧
           naive_scan cfg block page bs d =
           Return true
             (Disk (_elapsed_time d + write_page_time cfg)
                (_host_page_write_request d) (_page_write_executed d + 1)
                (_page_write_failed d) (_host_page_read_request d)
                (_page_read_executed d) (_block_erase_executed d)
                (<[b0 := Block (<[p0 := PAGE_IN_USE]> (pages blk0))
                               (empty_count blk0 + -1) (dirty_count blk0)]>
                   (<[block := Block (<[page := PAGE_DIRTY]> (pages blk))
                                     (empty_count blk) (dirty_count blk + 1)]>
                      (_ftl d)))))).
    { intros Hhere.
      destruct IH as [[Hall Hrun]|(i & b0 & blk0 & p0 & Hi & Hne & Hb0 & Hpos
                                   & Hmin & Hp0 & Hs0 & Hfirst & Hrun)].
      - left. split; [|done]. intros b1 b' [->|Hin]%elem_of_cons Hne1 Hb1.
        + by apply Hhere.
        + by apply (Hall b1).
      - right. exists (S i), b0, blk0, p0. split_and!; try done; [| lia | lia].
        intros [|j] b1 b' Hj Hb1 Hne1 Hlook; cbn in Hb1.
        + inversion Hb1; subst. by apply Hhere.
        + apply (Hmin j b1); [lia|done..]. }
    destruct (decide (b = block)) as [->|Hne].
    + apply Hshift. intros; done.
    + destruct (Hok b) as (blk0 & Hb0 & Hok0); [apply Hrange; by left|].
      run_with ltac:(eapply ftl_block_eq; eassumption).
      destruct (Z.ltb_spec 0 (empty_count blk0)) as [Hpos|Hfull].
      * right.
        destruct (get_empty_page_ok cfg b blk0 d) as (p0 & Hget & Hp0 & Hs0 & Hfirst);
          [apply Hrange; by left|done..|].
        exists 0%nat, b, blk0, p0. split_and!; try done; [lia|lia| |].
        -- intros; lia.
        -- by apply naive_relocate_eq.
      * apply Hshift. intros b' Hb' _. congruence.
Qed.

End NaivePolicy.

(** ** The in-place policy *)

Lemma count_in_iff m m' s ps :
  (∀ p, p ∈ ps → m !! p = Some s ↔ m' !! p = Some s) →
  count_in m s ps = count_in m' s ps.
Proof.
  induction ps as [|p ps IH]; intros H; [done|]. cbn [count_in].
  rewrite IH by (intros q Hq; apply H; by right).
  pose proof (H p ltac:(by left)) as Hp.
  destruct (decide (m !! p = Some s)), (decide (m' !! p = Some s));
    tauto || lia.
Qed.

Lemma count_in_elem m s ps p :
  p ∈ ps → m !! p = Some s → 1 ≤ count_in m s ps.
Proof.
  induction ps as [|q ps IH]; intros Hp Hs; [by inversion Hp|].
  cbn [count_in]. pose proof (count_in_bounds m s ps).
  apply elem_of_cons in Hp as [->|Hp].
  - rewrite decide_True by done. lia.
  - specialize (IH Hp Hs). destruct (decide _); lia.
Qed.

Section InPlacePolicy.

Variable cfg : config.


Lemma raw_read_page_status_eq block page r d d' :
  raw_read_page cfg block page d = Return r d' →
  raw_read_page_status cfg block page d = Return (r, tt) d'.
Proof.
  intros H. unfold raw_read_page_status.
  by rewrite (bind_Return _ _ _ _ _ H).
Qed.

(** STEP 1 reads every page of [ps]: a page in use costs one read and is
    marked in use, any other page is marked empty. *)
Lemma snapshot_block_spec block b ps :
  0 ≤ block < total_blocks cfg →
  (∀ p, p ∈ ps → 0 ≤ p < pages_per_block cfg ∧ is_Some (pages b !! p)) →
  ∀ temp d, _ftl d !! block = Some b →
  ∃ temp',
    snapshot_block cfg block ps temp d =
    Return temp'
      (Disk (_elapsed_time d
               + count_in (pages b) PAGE_IN_USE ps * read_page_time cfg)
         (_host_page_write_request d) (_page_write_executed d)
         (_page_write_failed d) (_host_page_read_request d)
         (_page_read_executed d + count_in (pages b) PAGE_IN_USE ps)
         (_block_erase_executed d) (_ftl d)) ∧
    (∀ p, p ∈ ps →
       temp' !! p = Some (if decide (pages b !! p = Some PAGE_IN_USE)
                          then PAGE_IN_USE else PAGE_EMPTY)) ∧
    (∀ p, p ∉ ps → temp' !! p = temp !! p).
Proof.
  intros Hblock. induction ps as [|p ps IH]; intros Hps temp d Hb.
  - exists temp. split_and!; [|intros p Hp; by inversion Hp|done].
    cbn [snapshot_block count_in]. rewrite mret_eq. f_equal.
    destruct d; norm_disk. f_equal; lia.
  - destruct (Hps p) as [Hp [s Hs]]; [by left|].
    assert (Hps' : ∀ q, q ∈ ps →
              0 ≤ q < pages_per_block cfg ∧ is_Some (pages b !! q))
      by (intros q Hq; apply Hps; by right).
    cbn [snapshot_block count_in].
    destruct (decide (s = PAGE_IN_USE)) as [->|Hne].
    + rewrite decide_True by done.
      run_with ltac:(eapply raw_read_page_status_eq, raw_read_page_in_use;
                     [split| |]; eassumption).
      lazymatch goal with
      | |- context [snapshot_block _ _ _ _ ?d1] =>
          destruct (IH Hps' (<[p := PAGE_IN_USE]> temp) d1 Hb)
            as (temp' & Hrun & Hin & Hout)
      end.
      exists temp'. split_and!.
      * rewrite Hrun. f_equal; norm_disk; f_equal; lia.
      * intros q Hq. destruct (decide (q ∈ ps)) as [Hqs|Hqs]; [by apply Hin|].
        apply elem_of_cons in Hq as [->|Hq]; [|done].
        rewrite Hout by done. rewrite lookup_insert_eq.
        by rewrite decide_True.
      * intros q Hq. rewrite Hout by (intros ?; apply Hq; by right).
        apply lookup_insert_ne. intros ->. apply Hq. by left.
    + rewrite decide_False by congruence.
      run_with ltac:(eapply raw_read_page_status_eq, raw_read_page_no_data;
                     [split| | |]; eassumption).
      lazymatch goal with
      | |- context [snapshot_block _ _ _ _ ?d1] =>
          destruct (IH Hps' (<[p := PAGE_EMPTY]> temp) d1 Hb)
            as (temp' & Hrun & Hin & Hout)
      end.
      exists temp'. split_and!.
      * rewrite Hrun. f_equal; norm_disk; f_equal; lia.
      * intros q Hq. destruct (decide (q ∈ ps)) as [Hqs|Hqs]; [by apply Hin|].
        apply elem_of_cons in Hq as [->|Hq]; [|done].
        rewrite Hout by done. rewrite lookup_insert_eq.
        rewrite decide_False by congruence. done.
      * intros q Hq. rewrite Hout by (intros ?; apply Hq; by right).
        apply lookup_insert_ne. intros ->. apply Hq. by left.
Qed.

(** STEP 3 on pages that are all empty: each page marked in use is written
    through the empty-page branch of [raw_write_page], so the policy of
    the disk is never called again. *)
Lemma rewrite_block_spec policy block temp ps :
  0 ≤ block < total_blocks cfg →
  NoDup ps →
  (∀ p, p ∈ ps → 0 ≤ p < pages_per_block cfg ∧ is_Some (temp !! p)) →
  ∀ bcur d,
    _ftl d !! block = Some bcur →
    (∀ p, p ∈ ps → pages bcur !! p = Some PAGE_EMPTY) →
    ∃ m',
      rewrite_block (raw_write_page_with cfg policy) block temp ps d =
      Return tt
        (Disk (_elapsed_time d
                 + count_in temp PAGE_IN_USE ps * write_page_time cfg)
           (_host_page_write_request d)
           (_page_write_executed d + count_in temp PAGE_IN_USE ps)
           (_page_write_failed d) (_host_page_read_request d)
           (_page_read_executed d) (_block_erase_executed d)
           (<[block := Block m'
                 (empty_count bcur - count_in temp PAGE_IN_USE ps)
                 (dirty_count bcur)]> (_ftl d))) ∧
      (∀ p, p ∈ ps →
         m' !! p = Some (if decide (temp !! p = Some PAGE_IN_USE)
                         then PAGE_IN_USE else PAGE_EMPTY)) ∧
      (∀ p, p ∉ ps → m' !! p = pages bcur !! p).
Proof.
  intros Hblock Hnd. induction ps as [|p ps IH]; intros Hps bcur d Hb Hempty.
  - exists (pages bcur). split_and!; [|intros p Hp; by inversion Hp|done].
    cbn [rewrite_block count_in]. rewrite mret_eq. f_equal.
    destruct d, bcur; norm_disk. rewrite Z.sub_0_r, insert_id by done.
    f_equal; lia.
  - apply NoDup_cons in Hnd as [Hp Hnd]. specialize (IH Hnd).
    destruct (Hps p) as [Hpr [s Hs]]; [by left|].
    assert (Hps' : ∀ q, q ∈ ps →
              0 ≤ q < pages_per_block cfg ∧ is_Some (temp !! q))
      by (intros q Hq; apply Hps; by right).
    specialize (IH Hps').
    cbn [rewrite_block count_in]. rewrite Hs.
    destruct (decide (s = PAGE_IN_USE)) as [->|Hne].
    + rewrite decide_True by done.
      run_with ltac:(eapply bind_Return_drop, raw_write_page_empty;
                     [split; eassumption | eassumption
                     | apply Hempty; by left]).
      lazymatch goal with
      | |- context [rewrite_block _ _ _ _ ?d1] =>
          destruct (IH (Block (<[p := PAGE_IN_USE]> (pages bcur))
                          (empty_count bcur + -1) (dirty_count bcur)) d1)
            as (m' & Hrun & Hin & Hout)
      end.
      { cbn. apply lookup_insert_eq. }
      { intros q Hq. cbn [pages]. rewrite lookup_insert_ne.
        - apply Hempty. by right.
        - intros ->. done. }
      exists m'. split_and!.
      * rewrite Hrun. f_equal. norm_disk. rewrite insert_insert_eq.
        f_equal; try lia. do 2 f_equal. lia.
      * intros q Hq. destruct (decide (q ∈ ps)) as [Hqs|Hqs]; [by apply Hin|].
        apply elem_of_cons in Hq as [->|Hq]; [|done].
        rewrite Hout by done. cbn [pages]. rewrite lookup_insert_eq.
        by rewrite decide_True.
      * intros q Hq. rewrite Hout by (intros ?; apply Hq; by right).
        cbn [pages]. apply lookup_insert_ne. intros ->. apply Hq. by left.
    + rewrite decide_False by congruence.
      rewrite bind_eq, mret_eq.
      destruct (IH bcur d Hb) as (m' & Hrun & Hin & Hout).
      { intros q Hq. apply Hempty. by right. }
      exists m'. split_and!.
      * rewrite Hrun. reflexivity.
      * intros q Hq. destruct (decide (q ∈ ps)) as [Hqs|Hqs]; [by apply Hin|].
        apply elem_of_cons in Hq as [->|Hq]; [|done].
        rewrite Hout by done. rewrite Hs, decide_False by congruence.
        apply Hempty. by left.
      * intros q Hq. apply Hout. intros ?; apply Hq; by right.
Qed.

(** The whole policy, from any state whose target block has its page
    keys: the pages in use and the target page end up in use, every other
    page of the block empty, and the counters of the block are exact. *)
Lemma in_place_policy_spec fuel block page b d :
  in_range cfg block page →
  _ftl d !! block = Some b →
  (∀ p, 0 ≤ p < pages_per_block cfg → is_Some (pages b !! p)) →
  ∃ m' r k,
    in_place_full_block_write_policy cfg (S fuel) block page d =
    Return true
      (Disk (_elapsed_time d + r * read_page_time cfg
               + erase_block_time cfg + k * write_page_time cfg)
         (_host_page_write_request d) (_page_write_executed d + k)
         (_page_write_failed d) (_host_page_read_request d)
         (_page_read_executed d + r) (_block_erase_executed d + 1)
         (<[block := Block m' (pages_per_block cfg - k) 0]> (_ftl d))) ∧
    r = count_in (<[page := PAGE_DIRTY]> (pages b)) PAGE_IN_USE
          (seqZ 0 (pages_per_block cfg)) ∧
    k = count_in m' PAGE_IN_USE (seqZ 0 (pages_per_block cfg)) ∧
    (∀ p, 0 ≤ p < pages_per_block cfg →
       m' !! p = Some (if decide (pages b !! p = Some PAGE_IN_USE ∨ p = page)
                       then PAGE_IN_USE else PAGE_EMPTY)) ∧
    (∀ p, ¬ (0 ≤ p < pages_per_block cfg) → m' !! p = pages b !! p).
Proof.
  intros [Hblock Hpage] Hb Hkeys.
  set (range := seqZ 0 (pages_per_block cfg)).
  set (b1 := Block (<[page := PAGE_DIRTY]> (pages b))
                   (empty_count b) (dirty_count b)).
  cbn [in_place_full_block_write_policy]. fold range.
  run_with ltac:(apply check_block_ok; lia).
  run_with ltac:(apply check_page_ok; lia).
  run_with ltac:(eapply ftl_set_page_eq; eassumption).
  lazymatch goal with
  | |- context [(snapshot_block _ _ _ _ ≫= _) ?d1] =>
      destruct (snapshot_block_spec block b1 range Hblock) with (temp := (∅ : gmap Z page_status)) (d := d1)
        as (temp & Hsnap & Htemp & _)
  end.
  { intros p Hp. apply elem_of_seqZ in Hp. split; [lia|].
    cbn [b1 pages]. apply keys_set_page with (cfg := cfg); [done|lia]. }
  { cbn. apply lookup_insert_eq. }
  run_with ltac:(exact Hsnap).
  run_with ltac:(eapply raw_erase_block_eq;
                 [lia | norm_disk; apply lookup_insert_eq]).
  lazymatch goal with
  | |- context [(rewrite_block _ _ ?t _ ≫= _) ?d3] =>
      destruct (rewrite_block_spec
                  (in_place_full_block_write_policy cfg fuel)
                  block t range Hblock (NoDup_seqZ _ _))
        with (bcur := Block (erased_pages (pages b1) range)
                            (pages_per_block cfg) 0) (d := d3)
        as (m' & Hrun & Hin & Hout)
  end.
  { intros p Hp. apply elem_of_seqZ in Hp. split; [lia|].
    destruct (decide (page = p)) as [->|Hne].
    - rewrite lookup_insert_eq. by eexists.
    - rewrite lookup_insert_ne, Htemp by (done || apply elem_of_seqZ; lia).
      by eexists. }
  { norm_disk. apply lookup_insert_eq. }
  { intros p Hp. cbn [pages]. by apply erased_pages_in. }
  run_with ltac:(exact Hrun). rewrite mret_eq.
  assert (Hm' : ∀ p, 0 ≤ p < pages_per_block cfg →
            m' !! p = Some (if decide (pages b !! p = Some PAGE_IN_USE
                                       ∨ p = page)
                            then PAGE_IN_USE else PAGE_EMPTY)).
  { intros p Hp. rewrite Hin by (apply elem_of_seqZ; lia).
    destruct (decide (page = p)) as [->|Hne].
    - rewrite lookup_insert_eq, !decide_True by auto. done.
    - rewrite lookup_insert_ne, Htemp by (done || apply elem_of_seqZ; lia).
      cbn [b1 pages]. rewrite lookup_insert_ne by done.
      destruct (decide (pages b !! p = Some PAGE_IN_USE)) as [Hu|Hu].
      + by rewrite !decide_True by auto.
      + rewrite decide_False by congruence.
        rewrite decide_False by (intros [?|?]; congruence). done. }
  assert (Hk : count_in (<[page := PAGE_IN_USE]> temp) PAGE_IN_USE range
               = count_in m' PAGE_IN_USE range).
  { apply count_in_iff. intros p Hp. rewrite Hin by done.
    apply elem_of_seqZ in Hp.
    assert (is_Some (<[page := PAGE_IN_USE]> temp !! p)) as [s Hs].
    { destruct (decide (page = p)) as [->|Hne].
      - rewrite lookup_insert_eq. by eexists.
      - rewrite lookup_insert_ne, Htemp by (done || apply elem_of_seqZ; lia).
        by eexists. }
    rewrite Hs. destruct (decide (Some s = Some PAGE_IN_USE)) as [Heq|Hneq].
    - done.
    - split; [done|]. intros; congruence. }
  exists m', (count_in (pages b1) PAGE_IN_USE range),
         (count_in m' PAGE_IN_USE range).
  split_and!; [|done|done|done|].
  - f_equal. norm_disk. rewrite !insert_insert_eq, Hk. reflexivity.
  - intros p Hp. rewrite Hout by (intros ?%elem_of_seqZ; lia).
    cbn [pages]. rewrite erased_pages_out by (intros ?%elem_of_seqZ; lia).
    cbn [b1 pages]. apply lookup_insert_ne. intros ->. lia.
Qed.

End InPlacePolicy.

(** ** What one operation does to a consistent disk *)

Section Steps.

Variable cfg : config.


(** The naive policy on in-range coordinates: the scan of
    [range(0, total_blocks)]. *)
Lemma naive_policy_spec block page blk d :
  disk_ok cfg d → in_range cfg block page → _ftl d !! block = Some blk →
  ((∀ b b', 0 ≤ b < total_blocks cfg → b ≠ block →
            _ftl d !! b = Some b' → empty_count b' ≤ 0) ∧
   naive_full_block_write_policy cfg block page d = Return false d)
  ∨ (∃ b0 blk0 p0,
       0 ≤ b0 < total_blocks cfg ∧ b0 ≠ block ∧
       _ftl d !! b0 = Some blk0 ∧ 0 < empty_count blk0 ∧
       (∀ b b', 0 ≤ b < b0 → b ≠ block → _ftl d !! b = Some b' →
                empty_count b' ≤ 0) ∧
       0 ≤ p0 < pages_per_block cfg ∧
       pages blk0 !! p0 = Some PAGE_EMPTY ∧
       (∀ q, 0 ≤ q < p0 → pages blk0 !! q ≠ Some PAGE_EMPTY) ∧
       naive_full_block_write_policy cfg block page d =
       Return true
         (Disk (_elapsed_time d + write_page_time cfg)
            (_host_page_write_request d) (_page_write_executed d + 1)
            (_page_write_failed d) (_host_page_read_request d)
            (_page_read_executed d) (_block_erase_executed d)
            (<[b0 := Block (<[p0 := PAGE_IN_USE]> (pages blk0))
                           (empty_count blk0 + -1) (dirty_count blk0)]>
               (<[block := Block (<[page := PAGE_DIRTY]> (pages blk))
                                 (empty_count blk) (dirty_count blk + 1)]>
                  (_ftl d))))).
Proof.
  intros Hok [Hblock Hpage] Hblk. unfold naive_full_block_write_policy.
  run_with ltac:(apply check_block_ok; lia).
  run_with ltac:(apply check_page_ok; lia).
  destruct (naive_scan_spec cfg block page blk d
              (seqZ 0 (total_blocks cfg)) Hok Hblk)
    as [[Hall Hrun]|(i & b0 & blk0 & p0 & Hi & Hne & Hb0 & Hpos & Hmin
                     & Hp0 & Hs0 & Hfirst & Hrun)].
  - intros b Hb. apply elem_of_seqZ in Hb. lia.
  - left. split; [|done]. intros b b' Hb Hneb Hlook.
    apply (Hall b); [|done..]. apply elem_of_seqZ. lia.
  - right. apply lookup_seqZ in Hi as [Hi Hlt].
    exists b0, blk0, p0. split_and!; try done; [lia|lia| |lia|lia].
    intros b b' Hb Hneb Hlook.
    apply (Hmin (Z.to_nat b) b); [lia| |done..].
    apply lookup_seqZ. lia.
Qed.

(** The naive policy keeps the disk consistent when the target page is in
    use, and changes nothing when it fails. *)
Lemma naive_policy_ok block page d :
  disk_ok cfg d → in_range cfg block page →
  page_at d block page = Some PAGE_IN_USE →
  ∃ r d',
    naive_full_block_write_policy cfg block page d = Return r d' ∧
    disk_ok cfg d' ∧
    _host_page_write_request d' = _host_page_write_request d ∧
    _page_write_failed d' = _page_write_failed d ∧
    (if r then _page_write_executed d' = _page_write_executed d + 1
     else d' = d).
Proof.
  intros Hok Hin Hs. destruct Hin as [Hblock Hpage].
  destruct (Hok block Hblock) as (blk & Hblk & Hokb).
  unfold page_at in Hs. rewrite Hblk in Hs. cbn in Hs.
  destruct (naive_policy_spec block page blk d Hok (conj Hblock Hpage) Hblk)
    as [[_ Hrun]|(b0 & blk0 & p0 & Hb0 & Hne & Hlook & Hpos & _ & Hp0 & Hs0
                  & _ & Hrun)].
  - exists false, d. by rewrite Hrun.
  - eexists true, _. split; [exact Hrun|]. split_and!; try done.
    unfold disk_ok. cbn [_ftl]. apply ftl_ok_insert.
    + apply ftl_ok_insert; [done|]. by apply block_ok_invalidate.
    + apply block_ok_write_empty; try done.
      destruct (Hok b0 Hb0) as (blk0' & Hlook' & Hok0). congruence.
Qed.

(** The in-place policy keeps the disk consistent, whatever the status of
    the target page, and never fails. *)
Lemma in_place_policy_ok fuel block page d :
  disk_ok cfg d → in_range cfg block page →
  ∃ d',
    in_place_full_block_write_policy cfg (S fuel) block page d
      = Return true d' ∧
    disk_ok cfg d' ∧
    _host_page_write_request d' = _host_page_write_request d ∧
    _page_write_failed d' = _page_write_failed d ∧
    _page_write_executed d + 1 ≤ _page_write_executed d'.
Proof.
  intros Hok Hin. pose proof Hin as [Hblock Hpage].
  destruct (Hok block Hblock) as (blk & Hblk & Hkeys & _).
  destruct (in_place_policy_spec cfg fuel block page blk d Hin Hblk Hkeys)
    as (m' & r & k & Hrun & _ & Hk & Hm' & _).
  eexists. split; [exact Hrun|]. cbn.
  assert (Hmkeys : ∀ p, p ∈ seqZ 0 (pages_per_block cfg) → is_Some (m' !! p)).
  { intros p Hp%elem_of_seqZ. rewrite Hm' by lia. by eexists. }
  assert (Hnodirty : count_in m' PAGE_DIRTY (seqZ 0 (pages_per_block cfg)) = 0).
  { apply count_in_none. intros p Hp%elem_of_seqZ. rewrite Hm' by lia.
    destruct (decide _); congruence. }
  pose proof (count_in_total m' _ Hmkeys) as Htot.
  rewrite length_seqZ, Hnodirty, <- Hk in Htot.
  split_and!; try done.
  - apply ftl_ok_insert; [done|]. split_and!; cbn.
    + intros p Hp. apply Hmkeys, elem_of_seqZ. lia.
    + unfold count_pages. cbn. lia.
    + unfold count_pages. cbn. lia.
  - assert (1 ≤ k); [|lia]. rewrite Hk.
    apply (count_in_elem _ _ _ page); [apply elem_of_seqZ; lia|].
    rewrite Hm' by lia. by rewrite decide_True by auto.
Qed.

(** The policy of the disk, called in the state [raw_write_page] calls it
    in; without fuel the in-place policy gives no result. *)
Lemma full_block_write_policy_ok pol fuel block page d :
  disk_ok cfg d → in_range cfg block page →
  contract_op pol (Full_block_write_policy block page) d →
  (fuel = 0%nat ∧ pol = InPlace ∧
   full_block_write_policy cfg pol fuel block page d = OutOfFuel)
  ∨ ∃ r d',
      full_block_write_policy cfg pol fuel block page d = Return r d' ∧
      disk_ok cfg d' ∧
      _host_page_write_request d' = _host_page_write_request d ∧
      _page_write_failed d' = _page_write_failed d ∧
      (if r then _page_write_executed d + 1 ≤ _page_write_executed d'
       else d' = d).
Proof.
  intros Hok Hin Hc. destruct pol.
  - right. destruct Hc as [?|Hs]; [done|].
    destruct (naive_policy_ok block page d Hok Hin Hs)
      as (r & d' & Hrun & Hok' & Hh & Hf & He).
    exists r, d'. split_and!; try done. destruct r; [lia|done].
  - destruct fuel as [|fuel]; [left; done|right].
    destruct (in_place_policy_ok fuel block page d Hok Hin)
      as (d' & Hrun & Hok' & Hh & Hf & He).
    exists true, d'. done.
Qed.

Lemma raw_write_page_ok pol fuel block page d :
  disk_ok cfg d → in_range cfg block page →
  (fuel = 0%nat ∧ pol = InPlace ∧
   raw_write_page cfg pol fuel block page d = OutOfFuel)
  ∨ ∃ r d',
      raw_write_page cfg pol fuel block page d = Return r d' ∧
      disk_ok cfg d' ∧
      _host_page_write_request d' = _host_page_write_request d ∧
      (if r
       then _page_write_executed d + 1 ≤ _page_write_executed d' ∧
            _page_write_failed d' = _page_write_failed d
       else (page_at d block page = Some PAGE_DIRTY ∧ d' = d) ∨
            (page_at d block page = Some PAGE_IN_USE ∧
             d' = incr_page_write_failed d)).
Proof.
  intros Hok Hin. pose proof Hin as [Hblock Hpage].
  destruct (Hok block Hblock) as (b & Hb & Hokb).
  destruct (proj1 Hokb page Hpage) as [s Hs].
  assert (Hat : page_at d block page = Some s)
    by (unfold page_at; rewrite Hb; exact Hs).
  unfold raw_write_page. destruct s.
  - destruct (Z_le_gt_dec (empty_count b) 0) as [Hfull|Hroom].
    + rewrite (raw_write_page_full cfg _ block page b d Hin Hb Hs Hfull).
      destruct (full_block_write_policy_ok pol fuel block page d Hok Hin)
        as [(-> & -> & ->)|(r & d' & -> & Hok' & Hh & Hf & He)].
      { destruct pol; [right|left]; done. }
      { left. done. }
      right. destruct r.
      * exists true, d'. done.
      * subst d'. exists false, (incr_page_write_failed d).
        split_and!; try done. right. done.
    + destruct (raw_write_page_in_block cfg (full_block_write_policy cfg pol fuel)
                  block page b d Hin Hb Hokb Hs)
        as (newpage & Hnew & Hnews & _ & ->); [lia|].
      right. eexists true, _. split; [reflexivity|]. cbn.
      split_and!; try done; try lia.
      apply ftl_ok_insert; [done|].
      assert (Hne : page ≠ newpage) by (intros ->; congruence).
      pose proof (block_ok_invalidate cfg b page Hokb Hpage Hs) as H1.
      apply (block_ok_write_empty cfg _ newpage) in H1; [exact H1|done|].
      cbn. by rewrite lookup_insert_ne.
  - right. exists false, d.
    rewrite (raw_write_page_dirty cfg _ block page b d Hin Hb Hs).
    split_and!; try done. left. done.
  - right. rewrite (raw_write_page_empty cfg _ block page b d Hin Hb Hs).
    eexists true, _. split; [reflexivity|]. cbn.
    split_and!; try done; try lia.
    apply ftl_ok_insert; [done|]. by apply block_ok_write_empty.
Qed.

(** [host_write_page] is [raw_write_page] followed by one increment of the
    host counter when the raw write returned [True]. *)
Lemma host_write_page_eq pol fuel block page d :
  in_range cfg block page →
  host_write_page cfg pol fuel block page d =
  match raw_write_page cfg pol fuel block page d with
  | Return true d' => Return true (incr_host_page_write_request d')
  | Return false d' => Return false d'
  | Raise e d' => Raise e d'
  | OutOfFuel => OutOfFuel
  end.
Proof.
  intros [Hblock Hpage]. unfold host_write_page.
  run_with ltac:(apply check_block_ok; lia).
  run_with ltac:(apply check_page_ok; lia).
  rewrite bind_eq.
  destruct (raw_write_page cfg pol fuel block page d) as [[] d'|e d'|]; done.
Qed.

Lemma raw_read_page_ok block page d :
  disk_ok cfg d → in_range cfg block page →
  ∃ r d',
    raw_read_page cfg block page d = Return r d' ∧
    _ftl d' = _ftl d ∧
    _host_page_write_request d' = _host_page_write_request d ∧
    _page_write_executed d' = _page_write_executed d ∧
    _page_write_failed d' = _page_write_failed d.
Proof.
  intros Hok Hin. pose proof Hin as [Hblock Hpage].
  destruct (Hok block Hblock) as (b & Hb & Hokb).
  destruct (proj1 Hokb page Hpage) as [s Hs].
  destruct (decide (s = PAGE_IN_USE)) as [->|Hne].
  - rewrite (raw_read_page_in_use cfg block page b d Hin Hb Hs).
    by eexists _, _.
  - rewrite (raw_read_page_no_data cfg block page b s d Hin Hb Hs Hne).
    by eexists _, _.
Qed.

Lemma raw_erase_block_ok block d :
  disk_ok cfg d → 0 ≤ pages_per_block cfg → 0 ≤ block < total_blocks cfg →
  ∃ d',
    raw_erase_block cfg block d = Return true d' ∧
    disk_ok cfg d' ∧
    _host_page_write_request d' = _host_page_write_request d ∧
    _page_write_executed d' = _page_write_executed d ∧
    _page_write_failed d' = _page_write_failed d.
Proof.
  intros Hok Hn Hblock. destruct (Hok block Hblock) as (b & Hb & Hokb).
  rewrite (raw_erase_block_eq cfg block b d Hblock Hb).
  eexists. split; [reflexivity|]. split_and!; try done.
  unfold disk_ok. cbn [_ftl]. apply ftl_ok_insert; [done|].
  by apply block_ok_erased.
Qed.

(** Every allowed in-range operation returns on a consistent disk (given
    fuel for the in-place policy), keeps it consistent, and adds at least
    as much to the executed writes as to the host writes. *)
Lemma exec_ok pol fuel o d :
  0 ≤ pages_per_block cfg →
  disk_ok cfg d → op_in_range cfg o → contract_op pol o d →
  (fuel = 0%nat ∧ pol = InPlace ∧ exec cfg pol fuel o d = OutOfFuel)
  ∨ ∃ r d',
      exec cfg pol fuel o d = Return r d' ∧ disk_ok cfg d' ∧
      0 ≤ _host_page_write_request d' - _host_page_write_request d
        ≤ _page_write_executed d' - _page_write_executed d.
Proof.
  intros Hn Hok Hin Hc. destruct o as [b p|b p|b p|b|b p]; cbn [exec].
  - destruct (raw_write_page_ok pol fuel b p d Hok Hin)
      as [?|(r & d' & Hrun & Hok' & Hh & He)]; [by left|right].
    exists r, d'. split_and!; try done; destruct r; try lia;
      destruct He as [[_ ->]|[_ ->]]; cbn; lia.
  - rewrite (host_write_page_eq pol fuel b p d Hin).
    destruct (raw_write_page_ok pol fuel b p d Hok Hin)
      as [(? & ? & ->)|(r & d' & -> & Hok' & Hh & He)]; [by left|right].
    destruct r.
    + eexists true, _. split; [reflexivity|]. cbn. split_and!; [done|lia|lia].
    + exists false, d'. split_and!; try done.
      * lia.
      * destruct He as [[_ ->]|[_ ->]]; cbn; lia.
  - right. destruct (raw_read_page_ok b p d Hok Hin)
      as (r & d' & Hrun & Hf & Hh & He & _).
    exists r, d'. split_and!; try done; [|lia|lia].
    unfold disk_ok. by rewrite Hf.
  - right. destruct (raw_erase_block_ok b d Hok Hn Hin)
      as (d' & Hrun & Hok' & Hh & He & _).
    exists true, d'. split_and!; try done; lia.
  - destruct (full_block_write_policy_ok pol fuel b p d Hok Hin Hc)
      as [?|(r & d' & Hrun & Hok' & Hh & Hf & He)]; [by left|right].
    exists r, d'. split_and!; try done; [lia|].
    destruct r; [lia|subst; lia].
Qed.

(** Consistency of every reachable state. *)
Lemma reachable_disk_ok pol d :
  0 ≤ pages_per_block cfg → reachable cfg pol d → disk_ok cfg d.
Proof.
  intros Hn. induction 1 as [|d o fuel r d' _ IH Hc Hin Hrun].
  - by apply init_disk_ok.
  - destruct (exec_ok pol fuel o d Hn IH Hin Hc)
      as [(_ & _ & Hout)|(r' & d'' & Hrun' & Hok' & _)]; [congruence|].
    rewrite Hrun in Hrun'. injection Hrun' as -> ->. done.
Qed.

Lemma reachable_by_mono (A1 A2 : op → disk → Prop) pol d :
  (∀ o d, A1 o d → A2 o d) →
  reachable_by cfg A1 pol d → reachable_by cfg A2 pol d.
Proof.
  intros Hsub. induction 1 as [|d o fuel r d' _ IH Hc Hin Hrun].
  - constructor.
  - eapply reachable_step; eauto.
Qed.

Lemma driver_reachable pol d :
  reachable_by cfg driver_op pol d → reachable cfg pol d.
Proof.
  apply reachable_by_mono. intros [] ? H; cbn in *; done.
Qed.

(** A reachable disk never gets stuck: with fuel, every allowed in-range
    operation returns, in a reachable state again. *)
Lemma reachable_progress pol fuel o d :
  0 ≤ pages_per_block cfg →
  reachable cfg pol d → op_in_range cfg o → contract_op pol o d →
  ∃ r d', exec cfg pol (S fuel) o d = Return r d' ∧ reachable cfg pol d'.
Proof.
  intros Hn Hreach Hin Hc.
  destruct (exec_ok pol (S fuel) o d Hn (reachable_disk_ok pol d Hn Hreach)
              Hin Hc) as [(? & _)|(r & d' & Hrun & _)]; [done|].
  exists r, d'. split; [done|]. by eapply reachable_step.
Qed.

End Steps.

(** ** The concrete disks are reachable *)

Ltac reach_from d o :=
  apply (reachable_step _ _ _ d o 1%nat true);
  [ | exact I || (right; vm_compute; reflexivity) || (left; reflexivity)
    | vm_compute; repeat split; congruence
    | vm_compute; reflexivity ].

Lemma disk_naive_one_reachable : reachable cfg21 Naive disk_naive_one.
Proof.
  reach_from (init_disk cfg21) (Host_write_page 0 0). apply reachable_init.
Defined.

Lemma disk_naive_full_reachable : reachable cfg21 Naive disk_naive_full.
Proof.
  reach_from disk_naive_one (Host_write_page 0 0).
  apply disk_naive_one_reachable.
Defined.

Lemma disk_naive_full_driver :
  reachable_by cfg21 driver_op Naive disk_naive_full.
Proof.
  reach_from disk_naive_one (Host_write_page 0 0).
  reach_from (init_disk cfg21) (Host_write_page 0 0).
  apply reachable_init.
Defined.

Lemma disk_in_place_one_reachable : reachable cfg22 InPlace disk_in_place_one.
Proof.
  reach_from (init_disk cfg22) (Host_write_page 0 0). apply reachable_init.
Defined.

Lemma disk_in_place_full_reachable :
  reachable cfg22 InPlace disk_in_place_full.
Proof.
  reach_from disk_in_place_one (Host_write_page 0 1).
  apply disk_in_place_one_reachable.
Defined.

(** * The claims *)

(** ** C1: block accounting *)

(** C1, as stated, fails: the claim lets the policy method be called like
    any other operation.  On a new naive disk of two one-page blocks,
    [full_block_write_policy(block=0, page=0)] is in range and returns
    [True]; it marks the empty page (0,0) dirty and adds one to the dirty
    counter of block 0 without touching its empty counter.  Afterwards block
    0 has [empty_count = 1] and [dirty_count = 1] for a single page, and no
    empty page at all. *)
Lemma C1_counterexample :
  reachable_by cfg21 any_op Naive disk_policy_on_empty ∧
  exec cfg21 Naive 1 (Full_block_write_policy 0 0) (init_disk cfg21)
    = Return true disk_policy_on_empty ∧
  ∃ b, _ftl disk_policy_on_empty !! 0 = Some b ∧
       pages_per_block cfg21 = 1 ∧
       empty_count b + dirty_count b + count_pages cfg21 PAGE_IN_USE b = 2 ∧
       empty_count b = 1 ∧ count_pages cfg21 PAGE_EMPTY b = 0.
Proof.
  split_and!.
  - reach_from (init_disk cfg21) (Full_block_write_policy 0 0).
    apply reachable_init.
  - vm_compute. reflexivity.
  - eexists. split; [vm_compute; reflexivity|]. vm_compute. done.
Qed.

(** C1, amended: on a disk of either class, after every sequence of
    in-range [raw_write_page], [host_write_page], [raw_read_page],
    [raw_erase_block] and [full_block_write_policy] calls in which the
    naive policy method is only called on a page in use, every block
    exists, its cached [empty_count] plus its [dirty_count] plus the
    number of its pages in use is [pages_per_block], and the two cached
    counters are the actual numbers of empty and of dirty pages.
    [pages_per_block] is not negative. *)
Theorem C1_block_accounting cfg pol d block :
  0 ≤ pages_per_block cfg →
  reachable cfg pol d →
  0 ≤ block < total_blocks cfg →
  ∃ b, _ftl d !! block = Some b ∧
       empty_count b + dirty_count b + count_pages cfg PAGE_IN_USE b
         = pages_per_block cfg ∧
       empty_count b = count_pages cfg PAGE_EMPTY b ∧
       dirty_count b = count_pages cfg PAGE_DIRTY b.
Proof.
  intros Hn Hreach Hblock.
  destruct (reachable_disk_ok cfg pol d Hn Hreach block Hblock)
    as (b & Hb & Hkeys & He & Hd).
  exists b. split_and!; try done.
  rewrite He, Hd. by apply count_pages_total.
Qed.

Lemma C1_block_accounting_witness :
  ∃ b, _ftl disk_naive_full !! 0 = Some b ∧
       empty_count b + dirty_count b + count_pages cfg21 PAGE_IN_USE b
         = pages_per_block cfg21 ∧
       empty_count b = count_pages cfg21 PAGE_EMPTY b ∧
       dirty_count b = count_pages cfg21 PAGE_DIRTY b.
Proof.
  apply (C1_block_accounting cfg21 Naive disk_naive_full 0).
  - vm_compute. congruence.
  - apply disk_naive_full_reachable.
  - vm_compute. split; congruence.
Defined.

(** ** C2: executed writes against host writes *)

Lemma driver_host_le_executed cfg pol d :
  0 ≤ pages_per_block cfg →
  reachable_by cfg driver_op pol d →
  _host_page_write_request d ≤ _page_write_executed d.
Proof.
  intros Hn Hreach.
  assert (disk_ok cfg d ∧
          _host_page_write_request d ≤ _page_write_executed d) as [_ H];
    [|exact H].
  induction Hreach as [|d o fuel r d' _ [IHok IH] Hc Hin Hrun].
  - split; [by apply init_disk_ok|]. cbn. lia.
  - assert (Hc' : contract_op pol o d) by (destruct o; done).
    destruct (exec_ok cfg pol fuel o d Hn IHok Hin Hc')
      as [(_ & _ & Hout)|(r' & d'' & Hrun' & Hok' & Hle)]; [congruence|].
    rewrite Hrun in Hrun'. injection Hrun' as -> ->. split; [done|lia].
Qed.

(** C2: after every sequence of in-range [host_write_page],
    [raw_read_page] and [raw_erase_block] calls,
    [_page_write_executed >= _host_page_write_request].  In such a state
    every in-range [raw_write_page] returns, and [host_write_page] returns
    the same flag from the same state with [_host_page_write_request]
    incremented exactly when that flag is [True]; a write that returns
    [True] executes at least one page write and counts no failure; a
    failed write (the flag is [False] for a page in use) increments
    [_page_write_failed] and changes nothing else, so
    [_page_write_executed] and [_host_page_write_request] stay as they
    were. *)
Theorem C2_write_counters cfg pol d :
  0 ≤ pages_per_block cfg →
  reachable_by cfg driver_op pol d →
  _host_page_write_request d ≤ _page_write_executed d ∧
  ∀ fuel block page,
    in_range cfg block page →
    ∃ r d1,
      raw_write_page cfg pol (S fuel) block page d = Return r d1 ∧
      host_write_page cfg pol (S fuel) block page d
        = Return r (if r then incr_host_page_write_request d1 else d1) ∧
      _host_page_write_request d1 = _host_page_write_request d ∧
      (r = true →
         _page_write_executed d + 1 ≤ _page_write_executed d1 ∧
         _page_write_failed d1 = _page_write_failed d) ∧
      (r = false → page_at d block page = Some PAGE_IN_USE →
         d1 = incr_page_write_failed d ∧
         _page_write_failed d1 = _page_write_failed d + 1 ∧
         _page_write_executed d1 = _page_write_executed d ∧
         _host_page_write_request d1 = _host_page_write_request d) ∧
      (r = false → page_at d block page ≠ Some PAGE_IN_USE → d1 = d).
Proof.
  intros Hn Hreach. split; [by eapply driver_host_le_executed|].
  intros fuel block page Hin.
  pose proof (reachable_disk_ok cfg pol d Hn (driver_reachable cfg pol d Hreach))
    as Hok.
  destruct (raw_write_page_ok cfg pol (S fuel) block page d Hok Hin)
    as [(? & _)|(r & d1 & Hrun & _ & Hh & He)]; [done|].
  exists r, d1. rewrite (host_write_page_eq cfg pol (S fuel) block page d Hin).
  rewrite Hrun. split_and!; try done.
  - by destruct r.
  - intros ->. done.
  - intros -> Hs. destruct He as [[Hd _]|[_ ->]]; [congruence|]. done.
  - intros -> Hs. destruct He as [[_ ->]|[Hu _]]; done.
Qed.

Lemma C2_write_counters_witness :
  _host_page_write_request disk_naive_full
    ≤ _page_write_executed disk_naive_full ∧
  ∀ fuel block page,
    in_range cfg21 block page →
    ∃ r d1,
      raw_write_page cfg21 Naive (S fuel) block page disk_naive_full
        = Return r d1 ∧
      host_write_page cfg21 Naive (S fuel) block page disk_naive_full
        = Return r (if r then incr_host_page_write_request d1 else d1) ∧
      _host_page_write_request d1
        = _host_page_write_request disk_naive_full ∧
      (r = true →
         _page_write_executed disk_naive_full + 1
           ≤ _page_write_executed d1 ∧
         _page_write_failed d1 = _page_write_failed disk_naive_full) ∧
      (r = false →
         page_at disk_naive_full block page = Some PAGE_IN_USE →
         d1 = incr_page_write_failed disk_naive_full ∧
         _page_write_failed d1 = _page_write_failed disk_naive_full + 1 ∧
         _page_write_executed d1 = _page_write_executed disk_naive_full ∧
         _host_page_write_request d1
           = _host_page_write_request disk_naive_full) ∧
      (r = false →
         page_at disk_naive_full block page ≠ Some PAGE_IN_USE →
         d1 = disk_naive_full).
Proof.
  apply (C2_write_counters cfg21 Naive disk_naive_full).
  - vm_compute. congruence.
  - apply disk_naive_full_driver.
Defined.

(** ** C3: the in-place policy on a full block *)

(** C3, as stated, fails in its last part.  With both pages of block 0
    written (Scenario 4 of the specification), block 0 is full and page
    (0,0) is in use; the in-place policy returns [True], but it writes both
    pages back, so the block has no empty page afterwards. *)
Lemma C3_counterexample :
  reachable cfg22 InPlace disk_in_place_full ∧
  in_range cfg22 0 0 ∧
  page_at disk_in_place_full 0 0 = Some PAGE_IN_USE ∧
  ∃ b d' b',
    _ftl disk_in_place_full !! 0 = Some b ∧ empty_count b = 0 ∧
    full_block_write_policy cfg22 InPlace 1 0 0 disk_in_place_full
      = Return true d' ∧
    _ftl d' !! 0 = Some b' ∧
    pages b' !! 0 = Some PAGE_IN_USE ∧ pages b' !! 1 = Some PAGE_IN_USE ∧
    pages_per_block cfg22 = 2 ∧
    empty_count b' = 0 ∧ count_pages cfg22 PAGE_EMPTY b' = 0.
Proof.
  split_and!.
  - apply disk_in_place_full_reachable.
  - vm_compute. repeat split; congruence.
  - vm_compute. reflexivity.
  - eexists _, _, _. split_and!; vm_compute; reflexivity.
Qed.

(** C3, amended: in every reachable state of an in-place disk, for every
    in-range coordinate whose block has [empty_count == 0] and whose page
    is in use, the in-place policy returns [True]; afterwards the pages of
    the block that were in use are in use and all its other pages (the
    dirty ones) are empty, so [empty_count] is the former [dirty_count] and
    the block has an empty page exactly when it had a dirty page. *)
Theorem C3_in_place_policy cfg fuel d block page b :
  reachable cfg InPlace d →
  in_range cfg block page →
  _ftl d !! block = Some b →
  empty_count b = 0 →
  pages b !! page = Some PAGE_IN_USE →
  ∃ d' b',
    full_block_write_policy cfg InPlace (S fuel) block page d
      = Return true d' ∧
    _ftl d' !! block = Some b' ∧
    (∀ p, 0 ≤ p < pages_per_block cfg →
       pages b !! p = Some PAGE_IN_USE → pages b' !! p = Some PAGE_IN_USE) ∧
    (∀ p, 0 ≤ p < pages_per_block cfg →
       pages b !! p ≠ Some PAGE_IN_USE → pages b' !! p = Some PAGE_EMPTY) ∧
    empty_count b' = dirty_count b ∧
    dirty_count b' = 0 ∧
    ((∃ p, 0 ≤ p < pages_per_block cfg ∧ pages b' !! p = Some PAGE_EMPTY)
     ↔ 0 < dirty_count b).
Proof.
  intros Hreach Hin Hb Hfull Hs. pose proof Hin as [Hblock Hpage].
  assert (Hn : 0 ≤ pages_per_block cfg) by lia.
  destruct (reachable_disk_ok cfg InPlace d Hn Hreach block Hblock)
    as (b0 & Hb0 & Hkeys & He & Hd).
  assert (b0 = b) as -> by congruence.
  destruct (in_place_policy_spec cfg fuel block page b d Hin Hb Hkeys)
    as (m' & r & k & Hrun & _ & Hk & Hm' & _).
  assert (Hu : ∀ p, 0 ≤ p < pages_per_block cfg →
            pages b !! p = Some PAGE_IN_USE → m' !! p = Some PAGE_IN_USE).
  { intros p Hp Hpu. rewrite Hm' by done. by rewrite decide_True by auto. }
  assert (Hnu : ∀ p, 0 ≤ p < pages_per_block cfg →
            pages b !! p ≠ Some PAGE_IN_USE → m' !! p = Some PAGE_EMPTY).
  { intros p Hp Hpu. rewrite Hm' by done.
    rewrite decide_False; [done|]. intros [? | ->]; congruence. }
  assert (Hcount : k = count_pages cfg PAGE_IN_USE b).
  { rewrite Hk. apply count_in_iff. intros p Hp%elem_of_seqZ. split.
    - intros Hmp. destruct (decide (pages b !! p = Some PAGE_IN_USE)); [done|].
      rewrite Hnu in Hmp by (done || lia). congruence.
    - apply Hu. lia. }
  pose proof (count_pages_total cfg b Hn Hkeys) as Htot.
  assert (Hnoempty : ∀ p, 0 ≤ p < pages_per_block cfg →
            pages b !! p ≠ Some PAGE_EMPTY).
  { intros p Hp Hpe.
    pose proof (count_in_elem (pages b) PAGE_EMPTY
                  (seqZ 0 (pages_per_block cfg)) p) as Hone.
    unfold count_pages in He. rewrite <- He, Hfull in Hone.
    assert (1 ≤ 0); [|lia]. apply Hone; [|done]. apply elem_of_seqZ. lia. }
  eexists _, _. split; [exact Hrun|]. cbn [_ftl pages empty_count dirty_count].
  rewrite lookup_insert_eq.
  split_and!; try done.
  - simpl. lia.
  - simpl. split.
    + intros (p & Hp & Hpe).
      assert (Hpd : pages b !! p = Some PAGE_DIRTY).
      { destruct (Hkeys p Hp) as [s Hps]. destruct s; [|done|].
        - rewrite (Hu p Hp Hps) in Hpe. congruence.
        - by destruct (Hnoempty p Hp). }
      rewrite Hd. unfold count_pages.
      pose proof (count_in_elem (pages b) PAGE_DIRTY
                    (seqZ 0 (pages_per_block cfg)) p) as Hone.
      assert (1 ≤ count_in (pages b) PAGE_DIRTY
                    (seqZ 0 (pages_per_block cfg))); [|lia].
      apply Hone; [|done]. apply elem_of_seqZ. lia.
    + rewrite Hd. intros (p & Hp%elem_of_seqZ & Hpd)%count_in_pos_elem.
      exists p. split; [lia|]. apply Hnu; [lia|congruence].
Qed.

Lemma C3_in_place_policy_witness :
  ∃ d' b',
    full_block_write_policy cfg22 InPlace 1 0 0 disk_in_place_full
      = Return true d' ∧
    _ftl d' !! 0 = Some b' ∧
    (∀ p, 0 ≤ p < pages_per_block cfg22 →
       pages (Block {[0 := PAGE_IN_USE; 1 := PAGE_IN_USE]} 0 0) !! p
         = Some PAGE_IN_USE →
       pages b' !! p = Some PAGE_IN_USE) ∧
    (∀ p, 0 ≤ p < pages_per_block cfg22 →
       pages (Block {[0 := PAGE_IN_USE; 1 := PAGE_IN_USE]} 0 0) !! p
         ≠ Some PAGE_IN_USE →
       pages b' !! p = Some PAGE_EMPTY) ∧
    empty_count b' = 0 ∧
    dirty_count b' = 0 ∧
    ((∃ p, 0 ≤ p < pages_per_block cfg22 ∧ pages b' !! p = Some PAGE_EMPTY)
     ↔ 0 < 0).
Proof.
  apply (C3_in_place_policy cfg22 0 disk_in_place_full 0 0
           (Block {[0 := PAGE_IN_USE; 1 := PAGE_IN_USE]} 0 0)).
  - apply disk_in_place_full_reachable.
  - vm_compute. repeat split; congruence.
  - vm_compute. reflexivity.
  - reflexivity.
  - vm_compute. reflexivity.
Defined.

(** ** C4: the naive policy *)

(** C4: in every reachable state of a naive disk, for every in-range
    coordinate whose block has [empty_count == 0] and whose page is in use,
    the naive policy returns [False] exactly when every block other than
    the target has [empty_count == 0], and then changes nothing; otherwise
    it takes the block [b0] of least index, other than the target, with
    [empty_count > 0], sets the first empty page [p0] of [b0] in use and
    the original page dirty, takes one from the [empty_count] of [b0], adds
    one to the [dirty_count] of the target, adds [write_page_time] to the
    elapsed time and one to [_page_write_executed], and returns [True]. *)
Theorem C4_naive_policy cfg fuel d block page blk :
  reachable cfg Naive d →
  in_range cfg block page →
  _ftl d !! block = Some blk →
  empty_count blk = 0 →
  pages blk !! page = Some PAGE_IN_USE →
  ((∀ b b', 0 ≤ b < total_blocks cfg → b ≠ block →
            _ftl d !! b = Some b' → empty_count b' = 0) →
   full_block_write_policy cfg Naive fuel block page d = Return false d) ∧
  (∀ d', full_block_write_policy cfg Naive fuel block page d
           = Return false d' →
         ∀ b b', 0 ≤ b < total_blocks cfg → b ≠ block →
                 _ftl d !! b = Some b' → empty_count b' = 0) ∧
  (∀ b0 blk0,
     0 ≤ b0 < total_blocks cfg → b0 ≠ block →
     _ftl d !! b0 = Some blk0 → 0 < empty_count blk0 →
     (∀ b b', 0 ≤ b < b0 → b ≠ block →
              _ftl d !! b = Some b' → empty_count b' = 0) →
     ∃ p0,
       0 ≤ p0 < pages_per_block cfg ∧
       pages blk0 !! p0 = Some PAGE_EMPTY ∧
       (∀ q, 0 ≤ q < p0 → pages blk0 !! q ≠ Some PAGE_EMPTY) ∧
       full_block_write_policy cfg Naive fuel block page d =
       Return true
         (Disk (_elapsed_time d + write_page_time cfg)
            (_host_page_write_request d) (_page_write_executed d + 1)
            (_page_write_failed d) (_host_page_read_request d)
            (_page_read_executed d) (_block_erase_executed d)
            (<[b0 := Block (<[p0 := PAGE_IN_USE]> (pages blk0))
                           (empty_count blk0 + -1) (dirty_count blk0)]>
               (<[block := Block (<[page := PAGE_DIRTY]> (pages blk))
                                 (empty_count blk) (dirty_count blk + 1)]>
                  (_ftl d))))).
Proof.
  intros Hreach Hin Hblk _ _. pose proof Hin as [Hblock Hpage].
  assert (Hn : 0 ≤ pages_per_block cfg) by lia.
  pose proof (reachable_disk_ok cfg Naive d Hn Hreach) as Hok.
  assert (Hnonneg : ∀ b b', 0 ≤ b < total_blocks cfg →
            _ftl d !! b = Some b' → 0 ≤ empty_count b').
  { intros b b' Hb Hlook. destruct (Hok b Hb) as (b'' & Hlook' & _ & He & _).
    assert (b'' = b') as -> by congruence. rewrite He.
    apply count_in_bounds. }
  cbn [full_block_write_policy].
  destruct (naive_policy_spec cfg block page blk d Hok Hin Hblk)
    as [[Hall Hrun]|(b1 & blk1 & p1 & Hb1 & Hne1 & Hlook1 & Hpos1 & Hmin1
                     & Hp1 & Hs1 & Hfirst1 & Hrun)].
  - split_and!.
    + done.
    + intros d' _ b b' Hb Hne Hlook.
      pose proof (Hall b b' Hb Hne Hlook). pose proof (Hnonneg b b' Hb Hlook).
      lia.
    + intros b0 blk0 Hb0 Hne0 Hlook0 Hpos0 _.
      pose proof (Hall b0 blk0 Hb0 Hne0 Hlook0). lia.
  - split_and!.
    + intros Hall. pose proof (Hall b1 blk1 Hb1 Hne1 Hlook1). lia.
    + intros d' Hfalse. rewrite Hrun in Hfalse. discriminate.
    + intros b0 blk0 Hb0 Hne0 Hlook0 Hpos0 Hmin0.
      assert (b1 = b0) as ->.
      { destruct (Z.lt_trichotomy b1 b0) as [Hlt|[Heq|Hgt]]; [|done|].
        - pose proof (Hmin0 b1 blk1 ltac:(lia) Hne1 Hlook1). lia.
        - pose proof (Hmin1 b0 blk0 ltac:(lia) Hne0 Hlook0). lia. }
      assert (blk1 = blk0) as -> by congruence.
      exists p1. done.
Qed.

Lemma C4_naive_policy_witness :
  ((∀ b b', 0 ≤ b < total_blocks cfg21 → b ≠ 0 →
            _ftl disk_naive_one !! b = Some b' → empty_count b' = 0) →
   full_block_write_policy cfg21 Naive 0 0 0 disk_naive_one
     = Return false disk_naive_one) ∧
  (∀ d', full_block_write_policy cfg21 Naive 0 0 0 disk_naive_one
           = Return false d' →
         ∀ b b', 0 ≤ b < total_blocks cfg21 → b ≠ 0 →
                 _ftl disk_naive_one !! b = Some b' → empty_count b' = 0) ∧
  (∀ b0 blk0,
     0 ≤ b0 < total_blocks cfg21 → b0 ≠ 0 →
     _ftl disk_naive_one !! b0 = Some blk0 → 0 < empty_count blk0 →
     (∀ b b', 0 ≤ b < b0 → b ≠ 0 →
              _ftl disk_naive_one !! b = Some b' → empty_count b' = 0) →
     ∃ p0,
       0 ≤ p0 < pages_per_block cfg21 ∧
       pages blk0 !! p0 = Some PAGE_EMPTY ∧
       (∀ q, 0 ≤ q < p0 → pages blk0 !! q ≠ Some PAGE_EMPTY) ∧
       full_block_write_policy cfg21 Naive 0 0 0 disk_naive_one =
       Return true
         (Disk (_elapsed_time disk_naive_one + write_page_time cfg21)
            (_host_page_write_request disk_naive_one)
            (_page_write_executed disk_naive_one + 1)
            (_page_write_failed disk_naive_one)
            (_host_page_read_request disk_naive_one)
            (_page_read_executed disk_naive_one)
            (_block_erase_executed disk_naive_one)
            (<[b0 := Block (<[p0 := PAGE_IN_USE]> (pages blk0))
                           (empty_count blk0 + -1) (dirty_count blk0)]>
               (<[0 := Block (<[0 := PAGE_DIRTY]>
                                (pages (Block {[0 := PAGE_IN_USE]} 0 0)))
                             (empty_count (Block {[0 := PAGE_IN_USE]} 0 0))
                             (dirty_count (Block {[0 := PAGE_IN_USE]} 0 0)
                                + 1)]>
                  (_ftl disk_naive_one))))).
Proof.
  apply (C4_naive_policy cfg21 0 disk_naive_one 0 0
           (Block {[0 := PAGE_IN_USE]} 0 0)).
  - apply disk_naive_one_reachable.
  - vm_compute. repeat split; congruence.
  - vm_compute. reflexivity.
  - reflexivity.
  - vm_compute. reflexivity.
Defined.

(** ** C5: writing a dirty page *)

(** C5: for a disk of either class, in every state (reachable or not) and
    for every in-range coordinate whose page is dirty, [raw_write_page] and
    [host_write_page] return [False] and leave the disk as it was: every
    page status, every [empty_count] and [dirty_count], every statistics
    counter and the elapsed time. *)
Theorem C5_dirty_write_noop cfg pol fuel d block page :
  in_range cfg block page →
  page_at d block page = Some PAGE_DIRTY →
  raw_write_page cfg pol fuel block page d = Return false d ∧
  host_write_page cfg pol fuel block page d = Return false d.
Proof.
  intros Hin Hs. unfold page_at in Hs.
  destruct (_ftl d !! block) as [b|] eqn:Hb; [|done]. cbn in Hs.
  assert (Hraw : raw_write_page cfg pol fuel block page d = Return false d)
    by (by eapply raw_write_page_dirty).
  split; [done|]. by rewrite host_write_page_eq, Hraw.
Qed.

Lemma C5_dirty_write_noop_witness :
  raw_write_page cfg21 Naive 0 0 0 disk_naive_full
    = Return false disk_naive_full ∧
  host_write_page cfg21 Naive 0 0 0 disk_naive_full
    = Return false disk_naive_full.
Proof.
  apply (C5_dirty_write_noop cfg21 Naive 0 disk_naive_full 0 0).
  - vm_compute. repeat split; congruence.
  - vm_compute. reflexivity.
Defined.

(** ** C6: the two ways a write returns [False] *)




(** ** Decimal arithmetic *)

Lemma digits_fuel_spec fuel n :
  0 < n → n < 2 ^ (Z.of_nat fuel + 1) →
  1 ≤ digits_fuel fuel n ∧
  10 ^ (digits_fuel fuel n - 1) ≤ n < 10 ^ digits_fuel fuel n.
Proof.
  revert n. induction fuel as [|fuel IH]; intros n Hpos Hlt.
  - cbn in *. lia.
  - cbn [digits_fuel]. destruct (Z.ltb_spec n 10) as [Hsmall|Hbig].
    + cbn. lia.
    + assert (Hq : 0 < n / 10) by (apply Z.div_str_pos; lia).
      assert (Hqlt : n / 10 < 2 ^ (Z.of_nat fuel + 1)).
      { apply Z.div_lt_upper_bound; [lia|].
        rewrite Nat2Z.inj_succ in Hlt.
        replace (Z.succ (Z.of_nat fuel) + 1) with (1 + (Z.of_nat fuel + 1))
          in Hlt by lia.
        rewrite Z.pow_add_r in Hlt by lia. lia. }
      destruct (IH (n / 10) Hq Hqlt) as (Hk & Hlo & Hhi).
      set (k := digits_fuel fuel (n / 10)) in *.
      replace (1 + k - 1) with (1 + (k - 1)) by lia.
      rewrite !Z.pow_add_r by lia.
      pose proof (Z.div_mod n 10 ltac:(lia)) as Hdm.
      pose proof (Z.mod_pos_bound n 10 ltac:(lia)) as Hm.
      split; [lia|]. change (10 ^ 1) with 10. lia.
Qed.

Lemma digits_spec n :
  0 < n → 1 ≤ digits n ∧ 10 ^ (digits n - 1) ≤ n < 10 ^ digits n.
Proof.
  intros Hpos. unfold digits. apply digits_fuel_spec; [done|].
  rewrite Z2Nat.id by apply Z.log2_nonneg.
  replace (Z.log2 n + 1) with (Z.succ (Z.log2 n)) by lia.
  by apply Z.log2_spec.
Qed.

Lemma div_half_even_cases n d :
  div_half_even n d = n / d ∨ div_half_even n d = n / d + 1.
Proof.
  unfold div_half_even. repeat destruct (_ <? _); try destruct (Z.even _); auto.
Qed.

Lemma div_half_even_bound n d :
  0 < d → 2 * Z.abs (div_half_even n d * d - n) ≤ d.
Proof.
  intros Hd. unfold div_half_even.
  pose proof (Z.div_mod n d ltac:(lia)) as Hdm.
  pose proof (Z.mod_pos_bound n d Hd) as Hm.
  destruct (Z.ltb_spec (2 * (n mod d)) d);
    [|destruct (Z.ltb_spec d (2 * (n mod d))); [|destruct (Z.even _)]];
    nia.
Qed.

Lemma pow10_pos a : 0 ≤ a → 0 < 10 ^ a.
Proof. intros. apply Z.pow_pos_nonneg; lia. Qed.

Lemma pow10_add a b : 0 ≤ a → 0 ≤ b → 10 ^ (a + b) = 10 ^ a * 10 ^ b.
Proof. intros. by apply Z.pow_add_r. Qed.

Lemma pow10_succ a : 0 ≤ a → 10 ^ (a + 1) = 10 * 10 ^ a.
Proof. intros. rewrite pow10_add by lia. change (10 ^ 1) with 10. lia. Qed.

Lemma pow10_le a b : 0 ≤ a ≤ b → 10 ^ a ≤ 10 ^ b.
Proof. intros. apply Z.pow_le_mono_r; lia. Qed.

(** The number of digits is fixed by the decade. *)
Lemma digits_decade n k :
  0 ≤ k → 10 ^ k ≤ n < 10 ^ (k + 1) → digits n = k + 1.
Proof.
  intros Hk [Hlo Hhi]. pose proof (pow10_pos k Hk).
  destruct (digits_spec n ltac:(lia)) as (Hd & Hlo' & Hhi').
  destruct (Z.lt_trichotomy (digits n) (k + 1)) as [Hlt|[?|Hgt]]; [|done|].
  - pose proof (pow10_le (digits n) k ltac:(lia)). lia.
  - pose proof (pow10_le (k + 1) (digits n - 1) ltac:(lia)). lia.
Qed.

Lemma div_half_even_tie n d :
  0 < d → 2 * Z.abs (div_half_even n d * d - n) = d →
  Z.even (div_half_even n d) = true.
Proof.
  intros Hd. unfold div_half_even.
  pose proof (Z.div_mod n d ltac:(lia)) as Hdm.
  pose proof (Z.mod_pos_bound n d Hd) as Hm.
  destruct (Z.ltb_spec (2 * (n mod d)) d);
    [nia|destruct (Z.ltb_spec d (2 * (n mod d))); [nia|]].
  intros _. destruct (Z.even (n / d)) eqn:He; [done|].
  rewrite Z.even_add, He. reflexivity.
Qed.

(** Rounding half to even the quotient [N / D] computed with one more
    digit than is kept, the last digit raised from 0 or 5 when a remainder
    is left: the result is the nearest multiple of [10 ^ k] to [N / D]
    itself. *)
Lemma sticky_round N D k :
  0 ≤ N → 0 < D → 0 < k →
  let c1 :=
    if N mod D =? 0 then N / D
    else if (N / D) mod 5 =? 0 then N / D + 1 else N / D in
  let q := div_half_even c1 (10 ^ k) in
  2 * Z.abs (q * 10 ^ k * D - N) ≤ 10 ^ k * D ∧
  (2 * Z.abs (q * 10 ^ k * D - N) = 10 ^ k * D → Z.even q = true) ∧
  (q * 10 ^ k * D = N → N mod D = 0 ∧ c1 = q * 10 ^ k).
Proof.
  intros HN HD Hk. cbv zeta.
  pose proof (Z.div_mod N D ltac:(lia)) as Hdm.
  pose proof (Z.mod_pos_bound N D HD) as Hrem.
  set (c0 := N / D) in *. set (rem := N mod D) in *.
  assert (Hm : 10 ^ k = 10 * 10 ^ (k - 1)).
  { replace k with (k - 1 + 1) at 1 by lia. apply pow10_succ. lia. }
  pose proof (pow10_pos (k - 1) ltac:(lia)) as Hh.
  set (h := 10 ^ (k - 1)) in *. rewrite Hm. clear Hm.
  destruct (Z.eqb_spec rem 0) as [Hz|Hnz].
  - pose proof (div_half_even_bound c0 (10 * h) ltac:(lia)) as Hb.
    pose proof (div_half_even_tie c0 (10 * h) ltac:(lia)) as Ht.
    set (q := div_half_even c0 (10 * h)) in *.
    split_and!.
    + nia.
    + intros Heq. apply Ht. nia.
    + intros Heq. split; [done|]. nia.
  - pose proof (Z.div_mod c0 5 ltac:(lia)) as Hdm5.
    pose proof (Z.mod_pos_bound c0 5 ltac:(lia)) as Hv.
    set (u := c0 / 5) in *. set (v := c0 mod 5) in *.
    set (c1 := if v =? 0 then c0 + 1 else c0).
    assert (Hc1 : (v = 0 ∧ c1 = c0 + 1) ∨ (v ≠ 0 ∧ c1 = c0)).
    { subst c1. destruct (Z.eqb_spec v 0); [left|right]; done. }
    clearbody c1.
    unfold div_half_even.
    pose proof (Z.div_mod c1 (10 * h) ltac:(lia)) as Hdm1.
    pose proof (Z.mod_pos_bound c1 (10 * h) ltac:(lia)) as Ht.
    set (Q := c1 / (10 * h)) in *. set (t := c1 mod (10 * h)) in *.
    assert (Hne5 : t ≠ 5 * h) by (destruct Hc1 as [[? ?]|[? ?]]; lia).
    assert (Hpos : 0 ≤ c0 - 10 * h * Q).
    { destruct Hc1 as [[? ?]|[? ?]]; [|lia].
      assert (t ≠ 0) by lia. lia. }
    destruct (Z.ltb_spec (2 * t) (10 * h)) as [Hlt|Hge];
      [|destruct (Z.ltb_spec (10 * h) (2 * t)) as [Hgt|Hle]; [|lia]].
    + assert (Hup : c0 - 10 * h * Q + 1 ≤ 5 * h)
        by (destruct Hc1 as [[? ?]|[? ?]]; lia).
      assert (H1 : 0 ≤ (c0 - 10 * h * Q) * D) by nia.
      assert (H2 : (c0 - 10 * h * Q + 1) * D ≤ 5 * h * D) by nia.
      split_and!; [nia|nia|nia].
    + assert (Hup : 5 * h + 1 ≤ c0 - 10 * h * Q + 1)
        by (destruct Hc1 as [[? ?]|[? ?]]; lia).
      assert (Hlo : c0 - 10 * h * Q + 1 ≤ 10 * h)
        by (destruct Hc1 as [[? ?]|[? ?]]; lia).
      assert (H1 : (5 * h + 1) * D ≤ (c0 - 10 * h * Q + 1) * D) by nia.
      assert (H2 : (c0 - 10 * h * Q + 1) * D ≤ 10 * h * D) by nia.
      split_and!; [nia|nia|nia].
Qed.

(** What [_fix] does to a positive coefficient. *)
Lemma decimal_fix_short prec C E :
  0 < C → digits C ≤ prec → decimal_fix prec (Dec C E) = Dec C E.
Proof.
  intros HC Hd. unfold decimal_fix. cbn [coefficient exponent].
  destruct (Z.eqb_spec C 0) as [?|_]; [lia|].
  rewrite Z.abs_eq by lia.
  destruct (Z.ltb_spec E (digits C + E - prec)); [lia|done].
Qed.

Lemma decimal_fix_long prec C E :
  0 < C → 0 < prec → prec < digits C →
  let k := digits C - prec in
  let q := div_half_even C (10 ^ k) in
  10 ^ (prec - 1) * 10 ^ k ≤ C < 10 ^ prec * 10 ^ k ∧
  10 ^ (prec - 1) ≤ q ≤ 10 ^ prec ∧
  decimal_fix prec (Dec C E) =
    if q <? 10 ^ prec then Dec q (E + k) else Dec (10 ^ (prec - 1)) (E + k + 1).
Proof.
  intros HC Hp Hd. cbv zeta.
  destruct (digits_spec C HC) as (_ & Hlo & Hhi).
  set (k := digits C - prec) in *.
  assert (Hk : 0 < k) by lia.
  replace (digits C - 1) with (prec - 1 + k) in Hlo by lia.
  replace (digits C) with (prec + k) in Hhi by lia.
  rewrite pow10_add in Hlo, Hhi by lia.
  pose proof (pow10_pos k ltac:(lia)) as Hm.
  pose proof (pow10_pos (prec - 1) ltac:(lia)) as HP1.
  assert (HP : 10 ^ prec = 10 * 10 ^ (prec - 1)).
  { replace prec with (prec - 1 + 1) at 1 by lia. apply pow10_succ. lia. }
  split; [done|].
  assert (Hq : 10 ^ (prec - 1) ≤ div_half_even C (10 ^ k) ≤ 10 ^ prec).
  { pose proof (Z.div_mod C (10 ^ k) ltac:(lia)) as Hdm.
    pose proof (Z.mod_pos_bound C (10 ^ k) Hm) as Hr.
    assert (10 ^ (prec - 1) ≤ C / 10 ^ k) by (apply Z.div_le_lower_bound; lia).
    assert (C / 10 ^ k < 10 ^ prec) by (apply Z.div_lt_upper_bound; lia).
    destruct (div_half_even_cases C (10 ^ k)) as [-> | ->]; lia. }
  split; [done|].
  unfold decimal_fix. cbn [coefficient exponent].
  destruct (Z.eqb_spec C 0) as [?|_]; [lia|].
  rewrite Z.abs_eq, Z.sgn_pos by lia.
  destruct (Z.ltb_spec E (digits C + E - prec)); [|lia].
  replace (digits C + E - prec - E) with k by lia.
  set (q := div_half_even C (10 ^ k)) in *.
  destruct (Z.ltb_spec q (10 ^ prec)) as [Hlt|Hge].
  - rewrite (digits_decade q (prec - 1)) by (rewrite ?Z.sub_add; lia).
    destruct (Z.ltb_spec prec (prec - 1 + 1)); [lia|].
    apply (f_equal2 Dec); lia.
  - assert (q = 10 ^ prec) as -> by lia.
    rewrite (digits_decade (10 ^ prec) prec)
      by (first [lia|split; [lia|rewrite pow10_succ by lia; lia]]).
    destruct (Z.ltb_spec prec (prec + 1)); [|lia].
    rewrite HP at 1. rewrite (Z.mul_comm 10), Z.div_mul by lia.
    apply (f_equal2 Dec); lia.
Qed.

(** The quotient [__truediv__] computes first has [prec + 1] or [prec + 2]
    digits. *)
Lemma div_window prec n d :
  0 < n → 0 < d → 0 < prec →
  let shift := digits d - digits n + prec + 1 in
  let num := if 0 <=? shift then n * 10 ^ shift else n in
  let den := if 0 <=? shift then d else d * 10 ^ (- shift) in
  0 < den ∧ 10 ^ prec * den ≤ num < 10 ^ (prec + 2) * den.
Proof.
  intros Hn Hd Hp. cbv zeta.
  destruct (digits_spec n Hn) as (Hln & Hnlo & Hnhi).
  destruct (digits_spec d Hd) as (Hld & Hdlo & Hdhi).
  set (ln := digits n) in *. set (ld := digits d) in *.
  replace ln with (ln - 1 + 1) in Hnhi by lia.
  replace ld with (ld - 1 + 1) in Hdhi by lia.
  rewrite pow10_succ in Hnhi, Hdhi by lia.
  pose proof (pow10_pos (ln - 1) ltac:(lia)) as HA.
  pose proof (pow10_pos (ld - 1) ltac:(lia)) as HB.
  pose proof (pow10_pos prec ltac:(lia)) as HP.
  replace (prec + 2) with (prec + 1 + 1) by lia.
  rewrite (pow10_succ (prec + 1)), (pow10_succ prec) by lia.
  set (A := 10 ^ (ln - 1)) in *. set (B := 10 ^ (ld - 1)) in *.
  set (P := 10 ^ prec) in *.
  destruct (Z.leb_spec 0 (ld - ln + prec + 1)) as [Hs|Hs].
  - pose proof (pow10_pos (ld - ln + prec + 1) Hs) as HS.
    assert (Heq : A * 10 ^ (ld - ln + prec + 1) = B * (10 * P)).
    { subst A B P. rewrite <- pow10_succ, <- !pow10_add by lia.
      f_equal. lia. }
    set (S := 10 ^ (ld - ln + prec + 1)) in *.
    split; [lia|]. split; nia.
  - pose proof (pow10_pos (- (ld - ln + prec + 1)) ltac:(lia)) as HS.
    assert (Heq : A = 10 * B * P * 10 ^ (- (ld - ln + prec + 1))).
    { subst A B P. rewrite <- pow10_succ, <- !pow10_add by lia.
      f_equal. lia. }
    set (S := 10 ^ (- (ld - ln + prec + 1))) in *.
    split; [nia|]. split; nia.
Qed.

Lemma strip_zeros_spec fuel c e :
  0 < c →
  ∃ c' j,
    strip_zeros fuel c e = (c', e + j) ∧ 0 < c' ∧
    0 ≤ j ≤ Z.of_nat fuel ∧ c = c' * 10 ^ j ∧
    (j = Z.of_nat fuel ∨ c' mod 10 ≠ 0).
Proof.
  revert c e. induction fuel as [|fuel IH]; intros c e Hc.
  - exists c, 0. cbn [strip_zeros]. rewrite Z.add_0_r.
    split_and!; [done|done|lia|lia|lia|by left].
  - cbn [strip_zeros]. destruct (Z.eqb_spec (c mod 10) 0) as [Hz|Hnz].
    + pose proof (Z.div_mod c 10 ltac:(lia)) as Hdm.
      destruct (IH (c / 10) (e + 1) ltac:(lia))
        as (c' & j & Hrun & Hc' & Hj & Heq & Hstop).
      exists c', (j + 1). rewrite Hrun.
      split_and!; [apply (f_equal2 pair); lia|done|lia|lia| |lia].
      rewrite pow10_succ by lia. lia.
    + exists c, 0. rewrite Z.add_0_r.
      split_and!; [done|done|lia|lia|lia|by right].
Qed.

Lemma digits_lower n k : 0 ≤ k → 10 ^ k ≤ n → k < digits n.
Proof.
  intros Hk Hn. pose proof (pow10_pos k Hk).
  destruct (digits_spec n ltac:(lia)) as (Hd & _ & Hhi).
  apply Z.nle_gt. intros Hle. pose proof (pow10_le (digits n) k ltac:(lia)).
  lia.
Qed.

Lemma digits_upper n k : 0 < n → digits n ≤ k → n < 10 ^ k.
Proof.
  intros Hn Hk. destruct (digits_spec n Hn) as (Hd & _ & Hhi).
  pose proof (pow10_le (digits n) k ltac:(lia)). lia.
Qed.

(** Two powers of ten, up to their common factor. *)
Lemma pow10_balance p q :
  0 ≤ p → 0 ≤ q →
  ∃ J, 0 < J ∧ 10 ^ p = 10 ^ Z.max 0 (p - q) * J ∧
       10 ^ q = 10 ^ Z.max 0 (q - p) * J.
Proof.
  intros Hp Hq. exists (10 ^ Z.min p q).
  split; [apply pow10_pos; lia|].
  rewrite <- !pow10_add by lia. split; f_equal; lia.
Qed.

(** [decimal_half_even] from the same facts at any common scale. *)
Lemma half_even_intro prec c e a b p q :
  0 ≤ a → 0 < b → 0 ≤ p → 0 ≤ q → e = p - q →
  0 ≤ c < 10 ^ prec →
  2 * Z.abs (c * 10 ^ p * b - a * 10 ^ q) ≤ b * 10 ^ p →
  (2 * Z.abs (c * 10 ^ p * b - a * 10 ^ q) = b * 10 ^ p →
   Z.even c = true) →
  (c * 10 ^ p * b = a * 10 ^ q →
   e = 0 ∨ (e < 0 ∧ c mod 10 ≠ 0) ∨ (0 < e ∧ 10 ^ (prec - 1) ≤ c)) →
  (c * 10 ^ p * b ≠ a * 10 ^ q →
   10 ^ (prec - 1) ≤ c ∧
   (2 * 10 ^ prec - 1) * b * 10 ^ p ≤ 2 * a * (10 * 10 ^ q)) →
  decimal_half_even prec (Dec c e) a b.
Proof.
  intros Ha Hb Hp Hq -> Hc Hnear Htie Hexact Hinexact.
  destruct (pow10_balance p q Hp Hq) as (J & HJ & HpJ & HqJ).
  destruct (pow10_balance p (q + 1) Hp ltac:(lia)) as (J' & HJ' & HpJ' & HqJ').
  rewrite pow10_succ in HqJ' by lia.
  unfold decimal_half_even, decimal_rounds_ratio, decimal_tie,
    decimal_is_ratio, decimal_least_exponent.
  cbn [coefficient exponent].
  replace (- (p - q)) with (q - p) by lia.
  replace (p - q - 1) with (p - (q + 1)) by lia.
  replace (1 - (p - q)) with (q + 1 - p) by lia.
  pose proof (pow10_pos (Z.max 0 (p - q)) ltac:(lia)) as HA.
  pose proof (pow10_pos (Z.max 0 (q - p)) ltac:(lia)) as HB.
  pose proof (pow10_pos (Z.max 0 (p - (q + 1))) ltac:(lia)) as HA'.
  pose proof (pow10_pos (Z.max 0 (q + 1 - p)) ltac:(lia)) as HB'.
  set (A := 10 ^ Z.max 0 (p - q)) in *.
  set (B := 10 ^ Z.max 0 (q - p)) in *.
  set (A' := 10 ^ Z.max 0 (p - (q + 1))) in *.
  set (B' := 10 ^ Z.max 0 (q + 1 - p)) in *.
  rewrite (Z.abs_eq b) by lia.
  assert (HT : c * 10 ^ p * b - a * 10 ^ q = (c * A * b - a * B) * J)
    by (rewrite HpJ, HqJ; ring).
  rewrite HT, Z.abs_mul, (Z.abs_eq J) in Hnear, Htie by lia.
  rewrite HpJ in Hnear, Htie.
  replace (2 * (Z.abs (c * A * b - a * B) * J))
    with (2 * Z.abs (c * A * b - a * B) * J) in Hnear, Htie by ring.
  replace (b * (A * J)) with (b * A * J) in Hnear, Htie by ring.
  rewrite Z.mul_cancel_r in Htie by lia.
  apply Z.mul_le_mono_pos_r in Hnear; [|done].
  assert (Hex : c * 10 ^ p * b = a * 10 ^ q ↔ c * A * b = a * B).
  { rewrite HpJ, HqJ.
    replace (c * (A * J) * b) with (c * A * b * J) by ring.
    replace (a * (B * J)) with (a * B * J) by ring.
    apply Z.mul_cancel_r. lia. }
  rewrite Hex in Hexact, Hinexact.
  split_and!; [lia|lia|done|done|done|].
  intros Hne. destruct (Hinexact Hne) as [Hlo Hwin].
  split; [done|]. rewrite HpJ' in Hwin.
  replace (2 * a * (10 * 10 ^ q)) with (2 * a * B' * J') in Hwin
    by (rewrite HqJ'; ring).
  replace ((2 * 10 ^ prec - 1) * b * (A' * J'))
    with ((2 * 10 ^ prec - 1) * b * A' * J') in Hwin by ring.
  by apply Z.mul_le_mono_pos_r in Hwin.
Qed.

(** The last step of a division or a multiplication: [_fix] on a
    coefficient [C] of more than [prec] digits that is the quotient of
    [a * 10 ^ s1] by [b * 10 ^ s2], computed as [__truediv__] does. *)
Lemma round_finish prec a b s1 s2 C E :
  0 < a → 0 < b → 0 < prec → 0 ≤ s1 → 0 ≤ s2 →
  C = (if (a * 10 ^ s1) mod (b * 10 ^ s2) =? 0
       then a * 10 ^ s1 / (b * 10 ^ s2)
       else if (a * 10 ^ s1 / (b * 10 ^ s2)) mod 5 =? 0
            then a * 10 ^ s1 / (b * 10 ^ s2) + 1
            else a * 10 ^ s1 / (b * 10 ^ s2)) →
  0 < C → prec < digits C →
  ((a * 10 ^ s1) mod (b * 10 ^ s2) = 0 → C mod 10 = 0 → s1 ≤ s2) →
  ∃ c e,
    decimal_fix prec (Dec C E) = Dec c (E + e - (s2 - s1)) ∧ 0 < c ∧
    decimal_half_even prec (Dec c e) a b.
Proof.
  intros Ha Hb Hp Hs1 Hs2 HC HCpos Hlong Hrep.
  destruct (decimal_fix_long prec C E HCpos Hp Hlong) as (HCb & Hq & Hfix).
  set (k := digits C - prec) in *. assert (Hk : 0 < k) by lia.
  pose proof (pow10_pos s1 Hs1) as HS1. pose proof (pow10_pos s2 Hs2) as HS2.
  assert (HN : 0 < a * 10 ^ s1) by nia.
  assert (HD : 0 < b * 10 ^ s2) by nia.
  pose proof (sticky_round (a * 10 ^ s1) (b * 10 ^ s2) k
                ltac:(lia) HD Hk) as HS.
  cbv zeta in HS. rewrite <- HC in HS. destruct HS as (Hnear & Htie & Hexact).
  assert (Hm : 10 ^ k = 10 * 10 ^ (k - 1)).
  { replace k with (k - 1 + 1) at 1 by lia. apply pow10_succ. lia. }
  pose proof (pow10_pos (k - 1) ltac:(lia)) as Hh.
  assert (HP : 10 ^ prec = 10 * 10 ^ (prec - 1)).
  { replace prec with (prec - 1 + 1) at 1 by lia. apply pow10_succ. lia. }
  pose proof (pow10_pos (prec - 1) ltac:(lia)) as HP1.
  (* the quotient itself has the digits of [C] *)
  assert (Hwin : 10 ^ (prec - 1) * 10 ^ k * (b * 10 ^ s2) ≤ a * 10 ^ s1).
  { assert (Hc0 : 10 ^ (prec - 1) * 10 ^ k ≤ a * 10 ^ s1 / (b * 10 ^ s2)).
    { revert HC. destruct (_ =? 0); [lia|].
      pose proof (Z.div_mod (a * 10 ^ s1 / (b * 10 ^ s2)) 5 ltac:(lia)) as H5.
      destruct (Z.eqb_spec ((a * 10 ^ s1 / (b * 10 ^ s2)) mod 5) 0)
        as [Hz|_]; [|lia].
      intros ->. rewrite Hz in H5. rewrite Hm in HCb |- *.
      replace (10 ^ (prec - 1) * (10 * 10 ^ (k - 1)))
        with (10 * (10 ^ (prec - 1) * 10 ^ (k - 1))) in * by ring.
      lia. }
    pose proof (Z.mul_div_le (a * 10 ^ s1) (b * 10 ^ s2) HD) as Hle.
    apply Z.le_trans with (b * 10 ^ s2 * (a * 10 ^ s1 / (b * 10 ^ s2)));
      [|done].
    rewrite (Z.mul_comm (b * 10 ^ s2)).
    apply Z.mul_le_mono_nonneg_r; lia. }
  set (N := a * 10 ^ s1) in *. set (D := b * 10 ^ s2) in *.
  pose proof (pow10_pos k ltac:(lia)) as HM.
  set (q := div_half_even C (10 ^ k)) in *.
  set (M := 10 ^ k) in *. set (P1 := 10 ^ (prec - 1)) in *.
  assert (HMD : 0 < M * D) by nia.
  destruct (Z.ltb_spec q (10 ^ prec)) as [Hlt|Hge].
  - exists q, (s2 + k - s1). split; [rewrite Hfix; apply (f_equal2 Dec); lia|].
    split; [lia|].
    apply (half_even_intro prec q _ a b (s2 + k) s1); try lia.
    all: rewrite (pow10_add s2 k) by lia; fold M;
      replace (q * (10 ^ s2 * M) * b) with (q * M * D) by (subst D; ring);
      replace (b * (10 ^ s2 * M)) with (M * D) by (subst D; ring);
      fold N.
    + done.
    + done.
    + intros Heq. destruct (Hexact Heq) as [Hrem HCq].
      right; right. split; [|lia].
      assert (s1 ≤ s2); [|lia]. apply Hrep; [done|].
      rewrite HCq. subst M. rewrite Hm.
      replace (q * (10 * 10 ^ (k - 1))) with (q * 10 ^ (k - 1) * 10) by ring.
      apply Z.mod_mul. lia.
    + intros _. split; [lia|].
      replace ((2 * 10 ^ prec - 1) * (M * D))
        with (2 * 10 * (P1 * M * D) - M * D) by (rewrite HP; ring).
      replace (2 * a * (10 * 10 ^ s1)) with (2 * 10 * N) by (subst N; ring).
      lia.
  - assert (Hqeq : q = 10 ^ prec) by lia.
    exists P1, (s2 + k + 1 - s1).
    split; [rewrite Hfix; apply (f_equal2 Dec); lia|].
    split; [lia|].
    assert (Herr : 2 * Z.abs (10 * P1 * M * D - N) ≤ M * D)
      by (rewrite <- HP, <- Hqeq; done).
    apply (half_even_intro prec P1 _ a b (s2 + k + 1) s1); try lia.
    all: rewrite (pow10_succ (s2 + k)), (pow10_add s2 k) by lia; fold M;
      replace (P1 * (10 * (10 ^ s2 * M)) * b) with (10 * P1 * M * D)
        by (subst D; ring);
      replace (b * (10 * (10 ^ s2 * M))) with (10 * (M * D))
        by (subst D; ring);
      fold N.
    + lia.
    + lia.
    + intros Heq. exfalso.
      assert (HqN : q * M * D = N) by (rewrite Hqeq, HP; lia).
      destruct (Hexact HqN) as [_ HCq]. rewrite Hqeq in HCq. lia.
    + intros _. split; [lia|].
      replace ((2 * 10 ^ prec - 1) * (10 * (M * D)))
        with (10 * (2 * (10 * P1 * M * D) - M * D)) by (rewrite HP; ring).
      replace (2 * a * (10 * 10 ^ s1)) with (10 * (2 * N)) by (subst N; ring).
      lia.
Qed.

(** The quotient left a remainder. *)
Lemma div_sticky prec a b s1 s2 E :
  0 < a → 0 < b → 0 < prec → 0 ≤ s1 → 0 ≤ s2 →
  10 ^ prec * (b * 10 ^ s2) ≤ a * 10 ^ s1 →
  (a * 10 ^ s1) mod (b * 10 ^ s2) ≠ 0 →
  ∃ c e,
    decimal_fix prec
      (Dec (if (a * 10 ^ s1 / (b * 10 ^ s2)) mod 5 =? 0
            then a * 10 ^ s1 / (b * 10 ^ s2) + 1
            else a * 10 ^ s1 / (b * 10 ^ s2)) E)
    = Dec c (E + e - (s2 - s1)) ∧ 0 < c ∧
    decimal_half_even prec (Dec c e) a b.
Proof.
  intros Ha Hb Hp Hs1 Hs2 Hwin Hrem.
  pose proof (pow10_pos s2 Hs2) as HS2. pose proof (pow10_pos prec ltac:(lia)).
  assert (HD : 0 < b * 10 ^ s2) by nia.
  assert (Hc0 : 10 ^ prec ≤ a * 10 ^ s1 / (b * 10 ^ s2))
    by (apply Z.div_le_lower_bound; lia).
  set (C := if (a * 10 ^ s1 / (b * 10 ^ s2)) mod 5 =? 0
            then a * 10 ^ s1 / (b * 10 ^ s2) + 1
            else a * 10 ^ s1 / (b * 10 ^ s2)).
  assert (HC : 10 ^ prec ≤ C) by (subst C; destruct (_ =? 0); lia).
  apply round_finish; try lia.
  - destruct (Z.eqb_spec ((a * 10 ^ s1) mod (b * 10 ^ s2)) 0); [done|].
    reflexivity.
  - apply digits_lower; lia.
Qed.

(** The quotient is exact. *)
Lemma div_exact prec a b s1 s2 ideal :
  0 < a → 0 < b → 0 < prec → 0 ≤ s1 → 0 ≤ s2 → s1 = 0 ∨ s2 = 0 →
  10 ^ prec * (b * 10 ^ s2) ≤ a * 10 ^ s1 →
  (a * 10 ^ s1) mod (b * 10 ^ s2) = 0 →
  ∃ c e,
    (let '(coeff, exp) :=
       strip_zeros (Z.to_nat (s1 - s2)) (a * 10 ^ s1 / (b * 10 ^ s2))
         (ideal - (s1 - s2)) in
     decimal_fix prec (Dec coeff exp))
    = Dec c (e + ideal) ∧ 0 < c ∧
    decimal_half_even prec (Dec c e) a b.
Proof.
  intros Ha Hb Hp Hs1 Hs2 Hs Hwin Hrem.
  pose proof (pow10_pos s1 Hs1) as HS1. pose proof (pow10_pos s2 Hs2) as HS2.
  pose proof (pow10_pos prec ltac:(lia)) as HP.
  assert (HD : 0 < b * 10 ^ s2) by nia.
  assert (Hc0 : 10 ^ prec ≤ a * 10 ^ s1 / (b * 10 ^ s2))
    by (apply Z.div_le_lower_bound; lia).
  pose proof (Z.div_mod (a * 10 ^ s1) (b * 10 ^ s2) ltac:(lia)) as Hdm.
  rewrite Hrem, Z.add_0_r in Hdm.
  set (c0 := a * 10 ^ s1 / (b * 10 ^ s2)) in *.
  destruct (strip_zeros_spec (Z.to_nat (s1 - s2)) c0 (ideal - (s1 - s2))
              ltac:(lia)) as (c2 & j & -> & Hc2 & Hj & Hc0eq & Hstop).
  pose proof (pow10_pos j ltac:(lia)) as HJ.
  assert (HN : a * 10 ^ s1 = c2 * (b * 10 ^ (s2 + j))).
  { rewrite pow10_add by lia. rewrite Hdm, Hc0eq. ring. }
  assert (Hfuel : j = Z.of_nat (Z.to_nat (s1 - s2)) → s1 ≤ s2 + j) by lia.
  destruct (Z_le_gt_dec (digits c2) prec) as [Hshort|Hlong].
  - rewrite decimal_fix_short by done.
    exists c2, (s2 + j - s1). split; [apply (f_equal2 Dec); lia|].
    split; [done|].
    pose proof (digits_upper c2 prec Hc2 Hshort) as Hlt.
    assert (Hjpos : 0 < j).
    { destruct (Z.eq_dec j 0) as [->|?]; [|lia].
      change (10 ^ 0) with 1 in Hc0eq. lia. }
    apply (half_even_intro prec c2 _ a b (s2 + j) s1); lia.
  - destruct (round_finish prec a b s1 (s2 + j) c2
                (ideal - (s1 - s2) + j) Ha Hb Hp Hs1 ltac:(lia))
      as (c & e & Hfix & Hc & Hhe); try done.
    + rewrite HN. rewrite Z.mod_mul by (pose proof (pow10_pos (s2 + j)); nia).
      rewrite Z.eqb_refl.
      rewrite Z.div_mul by (pose proof (pow10_pos (s2 + j)); nia). done.
    + lia.
    + intros _ Hz. destruct Hstop as [Hstop|Hstop]; [|done]. lia.
    + exists c, e. split; [|done]. rewrite Hfix. apply (f_equal2 Dec); lia.
Qed.

(** The quotient of two decimals with positive coefficients: the quotient
    of the coefficients rounded half to even, with the exponents
    subtracted. *)
Lemma decimal_div_spec prec a ea b eb :
  0 < a → 0 < b → 0 < prec →
  ∃ c e,
    decimal_div prec (Dec a ea) (Dec b eb) = inl (Dec c (e + (ea - eb))) ∧
    0 < c ∧ decimal_half_even prec (Dec c e) a b.
Proof.
  intros Ha Hb Hp. unfold decimal_div. cbn [coefficient exponent].
  destruct (Z.eqb_spec b 0) as [?|_]; [lia|].
  destruct (Z.eqb_spec a 0) as [?|_]; [lia|].
  rewrite !Z.abs_eq, !Z.sgn_pos by lia.
  destruct (div_window prec a b Ha Hb Hp) as (Hden & Hlo & _).
  set (shift := digits b - digits a + prec + 1) in *.
  replace (ea - eb - (ea - eb - shift)) with shift by lia.
  assert (Hform : ∃ s1 s2, 0 ≤ s1 ∧ 0 ≤ s2 ∧ (s1 = 0 ∨ s2 = 0) ∧
            shift = s1 - s2 ∧
            (if 0 <=? shift then a * 10 ^ shift else a) = a * 10 ^ s1 ∧
            (if 0 <=? shift then b else b * 10 ^ (- shift)) = b * 10 ^ s2).
  { destruct (Z.leb_spec 0 shift).
    - exists shift, 0. change (10 ^ 0) with 1. split_and!; lia.
    - exists 0, (- shift). change (10 ^ 0) with 1. split_and!; lia. }
  destruct Hform as (s1 & s2 & Hs1 & Hs2 & Hs & Hshift & Hnum & Hdenq).
  rewrite Hnum, Hdenq in *. rewrite Hshift. clear Hnum Hdenq.
  destruct (Z.eqb_spec ((a * 10 ^ s1) mod (b * 10 ^ s2)) 0) as [Hrem|Hrem].
  - destruct (div_exact prec a b s1 s2 (ea - eb) Ha Hb Hp Hs1 Hs2 Hs Hlo Hrem)
      as (c & e & Hfix & Hc & Hhe).
    exists c, e. split; [|done].
    destruct (strip_zeros _ _ _) as [coeff exp].
    rewrite !Z.mul_1_l. by rewrite Hfix.
  - destruct (div_sticky prec a b s1 s2 (ea - eb - (s1 - s2))
                Ha Hb Hp Hs1 Hs2 Hlo Hrem) as (c & e & Hfix & Hc & Hhe).
    exists c, e. split; [|done].
    cbv beta iota. rewrite !Z.mul_1_l, Hfix. f_equal.
    apply (f_equal2 Dec); lia.
Qed.

Lemma decimal_div_zero_iff prec x y :
  (∃ s, decimal_div prec x y = inr s) ↔ coefficient y = 0.
Proof.
  unfold decimal_div. destruct (Z.eqb_spec (coefficient y) 0) as [Hy|Hy].
  - split; [done|]. intros _. destruct (_ =? _); by eexists.
  - split; [|done]. intros [s Hs].
    destruct (_ =? _); [discriminate|].
    destruct (if _ =? 0 then _ else _); discriminate.
Qed.

Lemma half_even_zero prec b : 0 < prec → 0 < b → decimal_half_even prec (Dec 0 0) 0 b.
Proof.
  intros Hp Hb. pose proof (pow10_pos prec ltac:(lia)).
  apply (half_even_intro prec 0 0 0 b 0 0); lia.
Qed.

(** The quotient of two integers. *)
Lemma decimal_div_integers prec a b :
  0 ≤ a → 0 < b → 0 < prec →
  ∃ r, decimal_div prec (Decimal a) (Decimal b) = inl r ∧
       decimal_half_even prec r a b ∧ (0 < a → 0 < coefficient r).
Proof.
  intros Ha Hb Hp. destruct (Z.eq_dec a 0) as [->|Hne].
  - exists (Dec 0 0). split_and!; [|by apply half_even_zero|lia].
    unfold decimal_div, Decimal. cbn [coefficient exponent].
    destruct (Z.eqb_spec b 0); [lia|]. reflexivity.
  - destruct (decimal_div_spec prec a 0 b 0 ltac:(lia) Hb Hp)
      as (c & e & Hdiv & Hc & Hhe).
    exists (Dec c e). unfold Decimal. rewrite Hdiv.
    replace (e + (0 - 0)) with e by lia. done.
Qed.

(** A ratio that is a whole number of at most [prec] digits is returned as
    that integer. *)
Lemma half_even_exact prec r a b q :
  0 < prec → 0 < b → 0 ≤ q < 10 ^ prec → a = q * b →
  decimal_half_even prec r a b → r = Decimal q.
Proof.
  intros Hp Hb Hq -> (Hc & Hnear & _ & Hexact & Hinexact).
  destruct r as [c e].
  unfold decimal_rounds_ratio, decimal_is_ratio, decimal_least_exponent in *.
  cbn [coefficient exponent] in *.
  assert (HP : 10 ^ prec = 10 * 10 ^ (prec - 1)).
  { replace prec with (prec - 1 + 1) at 1 by lia. apply pow10_succ. lia. }
  pose proof (pow10_pos (prec - 1) ltac:(lia)) as HP1.
  rewrite (Z.abs_eq b) in Hnear by lia.
  assert (Hex : c * 10 ^ Z.max 0 e * b = q * b * 10 ^ Z.max 0 (- e)).
  { destruct (Z.eq_dec (c * 10 ^ Z.max 0 e * b)
                (q * b * 10 ^ Z.max 0 (- e))) as [?|Hne]; [done|].
    exfalso. destruct (Hinexact Hne) as [Hlo Hwin].
    destruct (Z_le_gt_dec e 0) as [He|He].
    - rewrite (Z.max_l 0 e) in * by lia. change (10 ^ 0) with 1 in *.
      apply Hne.
      replace (c * 1 * b - q * b * 10 ^ Z.max 0 (- e))
        with ((c - q * 10 ^ Z.max 0 (- e)) * b) in Hnear by ring.
      rewrite Z.abs_mul, (Z.abs_eq b) in Hnear by lia.
      assert (c = q * 10 ^ Z.max 0 (- e)) as -> by nia. ring.
    - rewrite (Z.max_l 0 (1 - e)) in Hwin by lia.
      change (10 ^ 0) with 1 in Hwin.
      pose proof (pow10_pos (Z.max 0 (e - 1)) ltac:(lia)) as HA.
      set (A := 10 ^ Z.max 0 (e - 1)) in *.
      assert ((2 * 10 ^ prec - 1) * A ≤ 2 * q) by nia.
      nia. }
  destruct (Hexact Hex) as [->|[[He Hmod]|[He Hlo]]].
  - change (Z.max 0 (- 0)) with 0 in Hex. change (Z.max 0 0) with 0 in Hex.
    change (10 ^ 0) with 1 in Hex.
    assert (c = q) as -> by (apply (Z.mul_cancel_r _ _ b); lia).
    reflexivity.
  - exfalso. rewrite (Z.max_l 0 e), (Z.max_r 0 (- e)) in Hex by lia.
    change (10 ^ 0) with 1 in Hex.
    replace (- e) with (- e - 1 + 1) in Hex by lia.
    rewrite pow10_succ in Hex by lia.
    assert (c = q * 10 ^ (- e - 1) * 10) by nia.
    apply Hmod. subst c. apply Z.mod_mul. lia.
  - exfalso. rewrite (Z.max_r 0 e), (Z.max_l 0 (- e)) in Hex by lia.
    change (10 ^ 0) with 1 in Hex.
    replace e with (e - 1 + 1) in Hex by lia.
    rewrite pow10_succ in Hex by lia.
    pose proof (pow10_pos (e - 1) ltac:(lia)).
    assert (q = c * (10 * 10 ^ (e - 1))) by nia. nia.
Qed.

Lemma decimal_div_exact prec a b q :
  0 < b → 0 ≤ q < 10 ^ prec → 0 < prec → a = q * b →
  decimal_div prec (Decimal a) (Decimal b) = inl (Decimal q).
Proof.
  intros Hb Hq Hp Ha.
  destruct (decimal_div_integers prec a b ltac:(nia) Hb Hp)
    as (r & -> & Hhe & _).
  f_equal. by apply (half_even_exact prec r a b q).
Qed.

(** The product of two integers. *)
Lemma decimal_mul_integers prec a b :
  0 ≤ a * b → 0 < prec →
  decimal_half_even prec (decimal_mul prec (Decimal a) (Decimal b)) (a * b) 1 ∧
  (0 < a * b → 0 < coefficient (decimal_mul prec (Decimal a) (Decimal b))) ∧
  (a * b = 0 → decimal_mul prec (Decimal a) (Decimal b) = Decimal 0).
Proof.
  intros Hab Hp. unfold decimal_mul, Decimal. cbn [coefficient exponent].
  change (0 + 0) with 0. set (C := a * b) in *.
  destruct (Z.eq_dec C 0) as [->|Hne].
  - split_and!; [by apply half_even_zero|lia|done].
  - pose proof (pow10_pos prec ltac:(lia)) as HP.
    destruct (Z_le_gt_dec (digits C) prec) as [Hshort|Hlong].
    + rewrite decimal_fix_short by lia. cbn [coefficient].
      split_and!; [|lia|lia].
      pose proof (digits_upper C prec ltac:(lia) Hshort).
      apply (half_even_intro prec C 0 C 1 0 0); try lia.
      all: change (10 ^ 0) with 1; lia.
    + destruct (round_finish prec C 1 0 0 C 0) as (c & e & Hfix & Hc & Hhe);
        try lia.
      * change (10 ^ 0) with 1. rewrite !Z.mul_1_r, Z.mod_1_r, Z.div_1_r.
        reflexivity.
      * rewrite Hfix. cbn [coefficient].
        replace (0 + e - (0 - 0)) with e by lia. split_and!; [done|lia|lia].
Qed.

Lemma decimal_mul_exact prec a b :
  0 < prec → 0 ≤ a * b < 10 ^ prec →
  decimal_mul prec (Decimal a) (Decimal b) = Decimal (a * b).
Proof.
  intros Hp Hab. unfold decimal_mul, Decimal.
  cbn [coefficient exponent]. change (0 + 0) with 0.
  destruct (Z.eq_dec (a * b) 0) as [->|Hne]; [done|].
  apply decimal_fix_short; [lia|].
  destruct (digits_spec (a * b)) as (Hd & Hlo & _); [lia|].
  apply Z.nlt_ge. intros Hlt.
  pose proof (pow10_le prec (digits (a * b) - 1) ltac:(lia)). lia.
Qed.

(** [decimal_half_even] read at any common scale. *)
Lemma half_even_elim prec c e a b p q :
  0 < b → 0 ≤ p → 0 ≤ q → e = p - q →
  decimal_half_even prec (Dec c e) a b →
  0 ≤ c < 10 ^ prec ∧
  2 * Z.abs (c * 10 ^ p * b - a * 10 ^ q) ≤ b * 10 ^ p ∧
  (2 * Z.abs (c * 10 ^ p * b - a * 10 ^ q) = b * 10 ^ p →
   Z.even c = true) ∧
  (c * 10 ^ p * b = a * 10 ^ q →
   e = 0 ∨ (e < 0 ∧ c mod 10 ≠ 0) ∨ (0 < e ∧ 10 ^ (prec - 1) ≤ c)) ∧
  (c * 10 ^ p * b ≠ a * 10 ^ q →
   10 ^ (prec - 1) ≤ c ∧
   (2 * 10 ^ prec - 1) * b * 10 ^ p ≤ 2 * a * (10 * 10 ^ q)).
Proof.
  intros Hb Hp Hq -> (Hc & Hnear & Htie & Hexact & Hinexact).
  destruct (pow10_balance p q Hp Hq) as (J & HJ & HpJ & HqJ).
  destruct (pow10_balance p (q + 1) Hp ltac:(lia)) as (J' & HJ' & HpJ' & HqJ').
  rewrite pow10_succ in HqJ' by lia.
  unfold decimal_rounds_ratio, decimal_tie, decimal_is_ratio,
    decimal_least_exponent in *.
  cbn [coefficient exponent] in *.
  replace (- (p - q)) with (q - p) in * by lia.
  replace (p - q - 1) with (p - (q + 1)) in * by lia.
  replace (1 - (p - q)) with (q + 1 - p) in * by lia.
  set (A := 10 ^ Z.max 0 (p - q)) in *.
  set (B := 10 ^ Z.max 0 (q - p)) in *.
  set (A' := 10 ^ Z.max 0 (p - (q + 1))) in *.
  set (B' := 10 ^ Z.max 0 (q + 1 - p)) in *.
  rewrite (Z.abs_eq b) in * by lia.
  assert (HT : c * 10 ^ p * b - a * 10 ^ q = (c * A * b - a * B) * J)
    by (rewrite HpJ, HqJ; ring).
  assert (Hex : c * 10 ^ p * b = a * 10 ^ q ↔ c * A * b = a * B).
  { rewrite HpJ, HqJ.
    replace (c * (A * J) * b) with (c * A * b * J) by ring.
    replace (a * (B * J)) with (a * B * J) by ring.
    apply Z.mul_cancel_r. lia. }
  rewrite HT, Z.abs_mul, (Z.abs_eq J) by lia. rewrite HpJ at 1 2.
  replace (2 * (Z.abs (c * A * b - a * B) * J))
    with (2 * Z.abs (c * A * b - a * B) * J) by ring.
  replace (b * (A * J)) with (b * A * J) by ring.
  rewrite Z.mul_cancel_r by lia. rewrite Hex.
  split_and!; [lia|lia| |done|done|].
  - by apply Z.mul_le_mono_pos_r.
  - intros Hne. destruct (Hinexact Hne) as [Hlo Hwin]. split; [done|].
    rewrite HpJ', HqJ'.
    replace (2 * a * (B' * J')) with (2 * a * B' * J') by ring.
    replace ((2 * 10 ^ prec - 1) * b * (A' * J'))
      with ((2 * 10 ^ prec - 1) * b * A' * J') by ring.
    by apply Z.mul_le_mono_pos_r.
Qed.

Lemma even_even_succ c c' :
  Z.even c = true → Z.even c' = true → c = c' + 1 → False.
Proof.
  intros H H' ->. apply Z.even_spec in H as [m Hm], H' as [m' Hm']. lia.
Qed.

(** Two integers within half a unit of the same point of a grid of step
    [W] are equal, or neighbours at a tie. *)
Lemma near_same_grid c c' W AT :
  0 < W →
  2 * Z.abs (c * W - AT) ≤ W → 2 * Z.abs (c' * W - AT) ≤ W →
  c = c' ∨
  ((c = c' + 1 ∨ c' = c + 1) ∧
   2 * Z.abs (c * W - AT) = W ∧ 2 * Z.abs (c' * W - AT) = W).
Proof.
  intros HW H H'.
  assert (Hd : (c - c') * W ≤ W ∧ (c' - c) * W ≤ W).
  { replace ((c - c') * W) with (c * W - AT - (c' * W - AT)) by ring.
    replace ((c' - c) * W) with (c' * W - AT - (c * W - AT)) by ring. lia. }
  destruct Hd as [H1 H2].
  assert (c - c' ≤ 1) by nia. assert (c' - c ≤ 1) by nia.
  destruct (Z.eq_dec c c') as [?|Hne]; [by left|right].
  assert (Hc : c = c' + 1 ∨ c' = c + 1) by lia. split; [done|].
  destruct Hc as [-> | ->].
  - replace ((c' + 1) * W) with (c' * W + W) in * by ring. lia.
  - replace ((c + 1) * W) with (c * W + W) in * by ring. lia.
Qed.

Lemma half_even_unique_le prec c e c' e' a b :
  0 ≤ a → 0 < b → 0 < prec → e ≤ e' →
  decimal_half_even prec (Dec c e) a b →
  decimal_half_even prec (Dec c' e') a b →
  c = c' ∧ e = e'.
Proof.
  intros Ha Hb Hp Hle Hr Hr'.
  set (t := Z.max 0 (- e)).
  destruct (half_even_elim prec c e a b (e + t) t Hb ltac:(lia) ltac:(lia)
              ltac:(lia) Hr) as (Hc & Hn & Ht & Hex & Hin).
  destruct (half_even_elim prec c' e' a b (e' + t) t Hb ltac:(lia) ltac:(lia)
              ltac:(lia) Hr') as (Hc' & Hn' & Ht' & Hex' & Hin').
  clear Hr Hr'.
  assert (HX' : 10 ^ (e' + t) = 10 ^ (e + t) * 10 ^ (e' - e)).
  { rewrite <- pow10_add by lia. f_equal. lia. }
  rewrite HX' in *. clear HX'.
  pose proof (pow10_pos (e + t) ltac:(lia)) as HX.
  pose proof (pow10_pos t ltac:(lia)) as HT.
  assert (HP : 10 ^ prec = 10 * 10 ^ (prec - 1)).
  { replace prec with (prec - 1 + 1) at 1 by lia. apply pow10_succ. lia. }
  pose proof (pow10_pos (prec - 1) ltac:(lia)) as HP1.
  set (X := 10 ^ (e + t)) in *. clearbody X.
  set (P1 := 10 ^ (prec - 1)) in *. rewrite HP in *. clear HP. clearbody P1.
  assert (HAT : 0 ≤ a * 10 ^ t) by nia.
  replace (2 * a * (10 * 10 ^ t)) with (20 * (a * 10 ^ t)) in * by ring.
  set (AT := a * 10 ^ t) in *. clearbody AT. clear HT.
  assert (HW : 0 < b * X) by nia.
  replace (c * X * b) with (c * (b * X)) in * by ring.
  replace (c' * (X * 10 ^ (e' - e)) * b)
    with (c' * 10 ^ (e' - e) * (b * X)) in * by ring.
  replace (b * (X * 10 ^ (e' - e))) with (10 ^ (e' - e) * (b * X)) in * by ring.
  replace ((2 * (10 * P1) - 1) * b * X)
    with ((20 * P1 - 1) * (b * X)) in * by ring.
  replace ((2 * (10 * P1) - 1) * b * (X * 10 ^ (e' - e)))
    with ((20 * P1 - 1) * 10 ^ (e' - e) * (b * X)) in * by ring.
  set (W := b * X) in *. clearbody W. clear HX.
  destruct (Z.eq_dec e e') as [<-|Hlt].
  - split; [|done]. rewrite Z.sub_diag in *. change (10 ^ 0) with 1 in *.
    rewrite !Z.mul_1_r, ?Z.mul_1_l in *.
    destruct (near_same_grid c c' W AT HW Hn Hn')
      as [?|([Hs|Hs] & Htie & Htie')]; [done| |]; exfalso.
    + apply (even_even_succ c c'); auto.
    + apply (even_even_succ c' c); auto.
  - exfalso. assert (Hg : 0 < e' - e) by lia.
    assert (HG : 10 ^ (e' - e) = 10 * 10 ^ (e' - e - 1)).
    { replace (e' - e) with (e' - e - 1 + 1) at 1 by lia.
      apply pow10_succ. lia. }
    pose proof (pow10_pos (e' - e - 1) ltac:(lia)) as HG1.
    rewrite HG in *. clear HG.
    set (G1 := 10 ^ (e' - e - 1)) in *. clearbody G1.
    destruct (Z.eq_dec (c' * (10 * G1) * W) AT) as [Hexact'|Hinexact'].
    + assert (HcG : c = c' * (10 * G1)).
      { destruct (Z.eq_dec (c * W) AT) as [Hexact|Hinexact].
        - apply (Z.mul_cancel_r _ _ W); lia.
        - rewrite <- Hexact' in Hn.
          replace (c * W - c' * (10 * G1) * W)
            with ((c - c' * (10 * G1)) * W) in Hn by ring.
          rewrite Z.abs_mul, (Z.abs_eq W) in Hn by lia.
          assert (Z.abs (c - c' * (10 * G1)) < 1) by nia. lia. }
      assert (Hexact : c * W = AT) by (rewrite HcG; done).
      assert (Hmod : c mod 10 = 0).
      { rewrite HcG. replace (c' * (10 * G1)) with (c' * G1 * 10) by ring.
        apply Z.mod_mul. lia. }
      destruct (Hex Hexact) as [He|[[He Hm]|[He Hlo]]]; [|done|].
      * destruct (Hex' Hexact') as [?|[[? ?]|[_ Hlo']]]; [lia|lia|]. nia.
      * destruct (Hex' Hexact') as [?|[[? ?]|[_ Hlo']]]; [lia|lia|]. nia.
    + destruct (Hin' Hinexact') as [Hlo' Hwin'].
      assert (H1 : 2 * AT ≤ (2 * c + 1) * W).
      { replace ((2 * c + 1) * W) with (2 * (c * W) + W) by ring. lia. }
      assert (H2 : (2 * c + 1) * W ≤ (20 * P1 - 1) * W) by nia.
      assert (H3 : (20 * P1 - 1) * W * (10 * G1) ≤ 20 * AT)
        by (replace ((20 * P1 - 1) * W * (10 * G1))
              with ((20 * P1 - 1) * (10 * G1) * W) by ring; done).
      assert (H4 : (20 * P1 - 1) * W * 10 ≤ (20 * P1 - 1) * W * (10 * G1))
        by nia.
      assert (Heq : 2 * AT = (20 * P1 - 1) * W) by lia.
      assert (Hceq : c = 10 * P1 - 1).
      { assert ((20 * P1 - 1) * W ≤ (2 * c + 1) * W) by lia.
        assert (20 * P1 - 1 ≤ 2 * c + 1) by nia. lia. }
      assert (Heven : Z.even c = true).
      { apply Ht. rewrite Hceq.
        replace ((10 * P1 - 1) * W) with (10 * (P1 * W) - W) by ring.
        replace ((20 * P1 - 1) * W) with (20 * (P1 * W) - W) in Heq by ring.
        lia. }
      apply Z.even_spec in Heven as [m Hm]. lia.
Qed.

(** [decimal_half_even] determines the decimal: for a ratio of integers
    that are not negative there is at most one decimal that is the ratio
    rounded half to even to [prec] digits. *)
Lemma half_even_unique prec r r' a b :
  0 ≤ a → 0 < b → 0 < prec →
  decimal_half_even prec r a b → decimal_half_even prec r' a b → r = r'.
Proof.
  intros Ha Hb Hp Hr Hr'. destruct r as [c e], r' as [c' e'].
  destruct (Z_le_gt_dec e e') as [Hle|Hgt].
  - destruct (half_even_unique_le prec c e c' e' a b) as [-> ->]; done.
  - destruct (half_even_unique_le prec c' e' c e a b) as [-> ->];
      done || lia.
Qed.

(** ** C7: the two ratios *)

(** C7, as stated, fails in its last part: the quotient is rounded.  On
    the in-place disk after three host writes, the third one relocated
    (four page writes), [write_amplification()] returns 1.33333333333,
    which is not 4/3. *)
Lemma C7_counterexample :
  reachable cfg22 InPlace disk_in_place_gc ∧
  _page_write_executed disk_in_place_gc = 4 ∧
  _host_page_write_request disk_in_place_gc = 3 ∧
  write_amplification disk_in_place_gc = inl (Dec 133333333333 (-11)) ∧
  ¬ decimal_is_ratio (Dec 133333333333 (-11)) 4 3.
Proof.
  split_and!; try (vm_compute; reflexivity).
  - reach_from disk_in_place_full (Host_write_page 0 0).
    apply disk_in_place_full_reachable.
  - vm_compute. discriminate.
Qed.

(** [failure_rate()] rounds twice, the product and then the quotient: with
    2000000000011 failed writes over 2 executed ones it returns
    1.00000000000E+14, which is not within half a unit of its last digit of
    the ratio 100000000000550. *)
Lemma failure_rate_rounds_twice :
  failure_rate (Disk 0 2 2 2000000000011 0 0 0 ∅)
    = inl (Dec 100000000000 3) ∧
  ¬ decimal_rounds_ratio (Dec 100000000000 3) (2000000000011 * 100) 2.
Proof.
  split; [vm_compute; reflexivity|].
  intros H. vm_compute in H. by apply H.
Qed.

(** C7, amended: [write_amplification()] raises a decimal signal exactly
    when [_host_page_write_request] is zero and [failure_rate()] exactly
    when [_page_write_executed] is zero.  With counters that are not
    negative and a non-zero denominator, [write_amplification()] returns
    [_page_write_executed / _host_page_write_request] rounded half to even
    to [DECIMAL_PRECISION = 12] significant digits, which is not always the
    exact ratio: a decimal of at most 12 digits within half a unit of its
    last digit of the ratio, with an even coefficient at a tie; when it is
    the ratio exactly it has exponent 0, or a negative exponent and no
    trailing zero, or a positive exponent and 12 digits; when it is not, it
    has exactly 12 digits and the least exponent that allows it; and it is
    the only decimal of which all that holds.
    [failure_rate()] rounds twice: the product [_page_write_failed * 100] is
    rounded in that way to a decimal [p] (which is the product itself below
    [10 ^ 12]), and the result is the coefficient of [p] over
    [_page_write_executed] rounded in that way, with the exponent of [p]
    added. *)
Theorem C7_ratios d :
  0 ≤ _page_write_executed d →
  0 ≤ _host_page_write_request d →
  0 ≤ _page_write_failed d →
  ((∃ s, write_amplification d = inr s) ↔ _host_page_write_request d = 0) ∧
  ((∃ s, failure_rate d = inr s) ↔ _page_write_executed d = 0) ∧
  (_host_page_write_request d ≠ 0 →
   ∃ r, write_amplification d = inl r ∧
        decimal_half_even DECIMAL_PRECISION r (_page_write_executed d)
          (_host_page_write_request d) ∧
        (∀ r', decimal_half_even DECIMAL_PRECISION r'
                 (_page_write_executed d) (_host_page_write_request d) →
               r' = r)) ∧
  (_page_write_executed d ≠ 0 →
   ∃ p r,
     decimal_mul DECIMAL_PRECISION (Decimal (_page_write_failed d))
       (Decimal 100) = p ∧
     decimal_half_even DECIMAL_PRECISION p (_page_write_failed d * 100) 1 ∧
     (∀ p', decimal_half_even DECIMAL_PRECISION p'
              (_page_write_failed d * 100) 1 → p' = p) ∧
     (_page_write_failed d * 100 < 10 ^ DECIMAL_PRECISION →
      p = Decimal (_page_write_failed d * 100)) ∧
     decimal_half_even DECIMAL_PRECISION r (coefficient p)
       (_page_write_executed d) ∧
     (∀ r', decimal_half_even DECIMAL_PRECISION r' (coefficient p)
              (_page_write_executed d) → r' = r) ∧
     failure_rate d = inl (Dec (coefficient r) (exponent r + exponent p))).
Proof.
  intros He Hh Hf. split_and!.
  - unfold write_amplification. by rewrite decimal_div_zero_iff.
  - unfold failure_rate. by rewrite decimal_div_zero_iff.
  - intros Hne. unfold write_amplification.
    destruct (decimal_div_integers DECIMAL_PRECISION (_page_write_executed d)
                (_host_page_write_request d)) as (r & Hr & Hhe & _);
      [lia|lia|done|].
    exists r. split_and!; [done|done|].
    intros r' Hr'.
    apply (half_even_unique DECIMAL_PRECISION r' r (_page_write_executed d)
             (_host_page_write_request d)); [lia|lia|done|done|done].
  - intros Hne. unfold failure_rate.
    destruct (decimal_mul_integers DECIMAL_PRECISION (_page_write_failed d)
                100 ltac:(lia) ltac:(done)) as (Hp & Hpos & Hzero).
    remember (decimal_mul DECIMAL_PRECISION (Decimal (_page_write_failed d))
                (Decimal 100)) as p eqn:Hpdef.
    assert (Hsmall : _page_write_failed d * 100 < 10 ^ DECIMAL_PRECISION →
                     p = Decimal (_page_write_failed d * 100)).
    { intros Hlt. rewrite Hpdef. apply decimal_mul_exact; [done|lia]. }
    assert (Hpu : ∀ p', decimal_half_even DECIMAL_PRECISION p'
                          (_page_write_failed d * 100) 1 → p' = p).
    { intros p' Hp'.
      apply (half_even_unique DECIMAL_PRECISION p' p
               (_page_write_failed d * 100) 1); [lia|lia|done|done|done]. }
    assert (Hcp : 0 ≤ coefficient p) by (destruct Hp as ([? _] & _); done).
    assert (Hru : ∀ r r', decimal_half_even DECIMAL_PRECISION r (coefficient p)
                            (_page_write_executed d) →
                          decimal_half_even DECIMAL_PRECISION r' (coefficient p)
                            (_page_write_executed d) → r' = r).
    { intros r r' Hr Hr'.
      apply (half_even_unique DECIMAL_PRECISION r' r (coefficient p)
               (_page_write_executed d)); [lia|lia|done|done|done]. }
    destruct (Z.eq_dec (_page_write_failed d) 0) as [Hz|Hnz].
    + exists p, (Dec 0 0).
      assert (Hp0 : p = Decimal 0) by (apply Hzero; lia).
      assert (Hr0 : decimal_half_even DECIMAL_PRECISION (Dec 0 0)
                      (coefficient p) (_page_write_executed d)).
      { rewrite Hp0. apply half_even_zero; [done|lia]. }
      split_and!; [done|done|done|done|done|exact (fun r' => Hru _ r' Hr0)|].
      rewrite Hp0. unfold decimal_div, Decimal. cbn [coefficient exponent].
      destruct (Z.eqb_spec (_page_write_executed d) 0); [lia|].
      reflexivity.
    + destruct p as [cp ep]. cbn [coefficient] in *.
      destruct (decimal_div_spec DECIMAL_PRECISION cp ep
                  (_page_write_executed d) 0 ltac:(lia) ltac:(lia)
                  ltac:(done)) as (c & e & Hdiv & Hc & Hhe).
      exists (Dec cp ep), (Dec c e). unfold Decimal in *. rewrite Hdiv.
      cbn [coefficient exponent].
      replace (e + (ep - 0)) with (e + ep) by lia.
      split_and!; [done|done|done|done|done|exact (fun r' => Hru _ r' Hhe)|done].
Qed.

Lemma C7_ratios_witness :
  ((∃ s, write_amplification disk_in_place_gc = inr s)
   ↔ _host_page_write_request disk_in_place_gc = 0) ∧
  ((∃ s, failure_rate disk_in_place_gc = inr s)
   ↔ _page_write_executed disk_in_place_gc = 0) ∧
  (_host_page_write_request disk_in_place_gc ≠ 0 →
   ∃ r, write_amplification disk_in_place_gc = inl r ∧
        decimal_half_even DECIMAL_PRECISION r
          (_page_write_executed disk_in_place_gc)
          (_host_page_write_request disk_in_place_gc) ∧
        (∀ r', decimal_half_even DECIMAL_PRECISION r'
                 (_page_write_executed disk_in_place_gc)
                 (_host_page_write_request disk_in_place_gc) →
               r' = r)) ∧
  (_page_write_executed disk_in_place_gc ≠ 0 →
   ∃ p r,
     decimal_mul DECIMAL_PRECISION
       (Decimal (_page_write_failed disk_in_place_gc)) (Decimal 100) = p ∧
     decimal_half_even DECIMAL_PRECISION p
       (_page_write_failed disk_in_place_gc * 100) 1 ∧
     (∀ p', decimal_half_even DECIMAL_PRECISION p'
              (_page_write_failed disk_in_place_gc * 100) 1 → p' = p) ∧
     (_page_write_failed disk_in_place_gc * 100 < 10 ^ DECIMAL_PRECISION →
      p = Decimal (_page_write_failed disk_in_place_gc * 100)) ∧
     decimal_half_even DECIMAL_PRECISION r (coefficient p)
       (_page_write_executed disk_in_place_gc) ∧
     (∀ r', decimal_half_even DECIMAL_PRECISION r' (coefficient p)
              (_page_write_executed disk_in_place_gc) → r' = r) ∧
     failure_rate disk_in_place_gc
       = inl (Dec (coefficient r) (exponent r + exponent p))).
Proof.
  apply (C7_ratios disk_in_place_gc); vm_compute; congruence.
Defined.

(** ** C8: erasing a block *)

(** C8: in every reachable state and for every in-range block,
    [raw_erase_block] returns [True]; afterwards every page of the block is
    empty, its [empty_count] is [pages_per_block] (which is also the actual
    number of its empty pages) and its [dirty_count] is 0, the elapsed time
    has grown by [erase_block_time] and [_block_erase_executed] by one, the
    other blocks and counters are as before, and [raw_read_page] on every
    page of the block returns [False] (no data) without changing the
    disk. *)
Theorem C8_erase_block cfg pol d block :
  0 ≤ pages_per_block cfg →
  reachable cfg pol d →
  0 ≤ block < total_blocks cfg →
  ∃ d' b',
    raw_erase_block cfg block d = Return true d' ∧
    _ftl d' = <[block := b']> (_ftl d) ∧
    (∀ p, 0 ≤ p < pages_per_block cfg → pages b' !! p = Some PAGE_EMPTY) ∧
    empty_count b' = pages_per_block cfg ∧
    count_pages cfg PAGE_EMPTY b' = pages_per_block cfg ∧
    dirty_count b' = 0 ∧
    _elapsed_time d' = _elapsed_time d + erase_block_time cfg ∧
    _block_erase_executed d' = _block_erase_executed d + 1 ∧
    _host_page_write_request d' = _host_page_write_request d ∧
    _page_write_executed d' = _page_write_executed d ∧
    _page_write_failed d' = _page_write_failed d ∧
    _host_page_read_request d' = _host_page_read_request d ∧
    _page_read_executed d' = _page_read_executed d ∧
    (∀ p, 0 ≤ p < pages_per_block cfg →
       raw_read_page cfg block p d' = Return false d').
Proof.
  intros Hn Hreach Hblock.
  destruct (reachable_disk_ok cfg pol d Hn Hreach block Hblock)
    as (b & Hb & _).
  rewrite (raw_erase_block_eq cfg block b d Hblock Hb).
  eexists _, _. split; [reflexivity|].
  pose proof (block_ok_erased cfg (pages b) Hn) as (_ & He & _).
  split_and!; try done.
  - intros p Hp. by apply erased_range_lookup.
  - intros p Hp.
    eapply raw_read_page_no_data; [by split| | |].
    + cbn. apply lookup_insert_eq.
    + cbn. by apply erased_range_lookup.
    + done.
Qed.

Lemma C8_erase_block_witness :
  ∃ d' b',
    raw_erase_block cfg21 0 disk_naive_full = Return true d' ∧
    _ftl d' = <[0 := b']> (_ftl disk_naive_full) ∧
    (∀ p, 0 ≤ p < pages_per_block cfg21 → pages b' !! p = Some PAGE_EMPTY) ∧
    empty_count b' = pages_per_block cfg21 ∧
    count_pages cfg21 PAGE_EMPTY b' = pages_per_block cfg21 ∧
    dirty_count b' = 0 ∧
    _elapsed_time d' = _elapsed_time disk_naive_full + erase_block_time cfg21 ∧
    _block_erase_executed d' = _block_erase_executed disk_naive_full + 1 ∧
    _host_page_write_request d' = _host_page_write_request disk_naive_full ∧
    _page_write_executed d' = _page_write_executed disk_naive_full ∧
    _page_write_failed d' = _page_write_failed disk_naive_full ∧
    _host_page_read_request d' = _host_page_read_request disk_naive_full ∧
    _page_read_executed d' = _page_read_executed disk_naive_full ∧
    (∀ p, 0 ≤ p < pages_per_block cfg21 →
       raw_read_page cfg21 0 p d' = Return false d').
Proof.
  apply (C8_erase_block cfg21 Naive disk_naive_full 0).
  - vm_compute. congruence.
  - apply disk_naive_full_reachable.
  - vm_compute. split; congruence.
Defined.

(** ** C9: the first empty page *)

(** C9: for every in-range block whose page keys exist: when its cached
    [empty_count] is positive and it has an empty page, [get_empty_page]
    returns the smallest page index whose status is empty and leaves the
    disk unchanged; and the [raise] after the scan loop is reached only
    with a positive cached counter on a block without any empty page, so
    never when the counter agrees with the pages. *)
Theorem C9_get_empty_page cfg d block b :
  0 ≤ block < total_blocks cfg →
  _ftl d !! block = Some b →
  (∀ p, 0 ≤ p < pages_per_block cfg → is_Some (pages b !! p)) →
  (0 < empty_count b →
   (∃ p, 0 ≤ p < pages_per_block cfg ∧ pages b !! p = Some PAGE_EMPTY) →
   ∃ p0,
     get_empty_page cfg block d = Return p0 d ∧
     0 ≤ p0 < pages_per_block cfg ∧
     pages b !! p0 = Some PAGE_EMPTY ∧
     ∀ q, 0 ≤ q < p0 → pages b !! q ≠ Some PAGE_EMPTY) ∧
  (∀ d', get_empty_page cfg block d = Raise ValueError_after_scan d' →
         0 < empty_count b ∧
         ∀ p, 0 ≤ p < pages_per_block cfg →
              pages b !! p ≠ Some PAGE_EMPTY) ∧
  (empty_count b = count_pages cfg PAGE_EMPTY b →
   ∀ d', get_empty_page cfg block d ≠ Raise ValueError_after_scan d').
Proof.
  intros Hblock Hb Hkeys. split_and!.
  - intros Hpos Hex. by apply get_empty_page_first.
  - intros d'. by apply get_empty_page_after_scan.
  - intros He d' Hraise.
    destruct (get_empty_page_after_scan cfg block b d d' Hblock Hb Hkeys
                Hraise) as [Hpos Hno].
    rewrite He in Hpos. unfold count_pages in Hpos.
    apply count_in_pos_elem in Hpos as (p & Hp%elem_of_seqZ & Hs).
    apply (Hno p); [lia|done].
Qed.

Lemma C9_get_empty_page_witness :
  (∃ p0,
     get_empty_page cfg22 0 disk_in_place_one = Return p0 disk_in_place_one ∧
     0 ≤ p0 < pages_per_block cfg22 ∧
     pages (Block {[0 := PAGE_IN_USE; 1 := PAGE_EMPTY]} 1 0) !! p0
       = Some PAGE_EMPTY ∧
     ∀ q, 0 ≤ q < p0 →
          pages (Block {[0 := PAGE_IN_USE; 1 := PAGE_EMPTY]} 1 0) !! q
            ≠ Some PAGE_EMPTY) ∧
  (∀ d', get_empty_page cfg22 0 disk_in_place_one
           ≠ Raise ValueError_after_scan d').
Proof.
  assert (Hkeys : ∀ p, 0 ≤ p < pages_per_block cfg22 →
            is_Some (pages (Block {[0 := PAGE_IN_USE; 1 := PAGE_EMPTY]} 1 0)
                       !! p)).
  { intros p Hp. change (pages_per_block cfg22) with 2 in Hp.
    assert (p = 0 ∨ p = 1) as [-> | ->] by lia; vm_compute; eauto. }
  destruct (C9_get_empty_page cfg22 disk_in_place_one 0
              (Block {[0 := PAGE_IN_USE; 1 := PAGE_EMPTY]} 1 0))
    as (Hfirst & _ & Hnever).
  - vm_compute. split; congruence.
  - vm_compute. reflexivity.
  - exact Hkeys.
  - split.
    + apply Hfirst; [reflexivity|].
      exists 1. split; [vm_compute; split; congruence|vm_compute; reflexivity].
    + apply Hnever. vm_compute. reflexivity.
Defined.

(** ** C10: where the overwritten data ends up *)

(** C10: for an in-range coordinate whose page is in use, in a reachable
    state.  When the block is full, the in-place policy returns [True] and
    the coordinate is in use afterwards, also when the policy is reached
    through [raw_write_page].  When the block has room, [raw_write_page]
    (on a disk of either class) leaves the coordinate dirty and sets in use
    another page of the block, which was empty.  When the block is full
    and the naive policy returns [True], it leaves the coordinate dirty and
    sets in use a page of another block, which was empty. *)
Theorem C10_overwrite_location cfg fuel d block page b :
  in_range cfg block page →
  _ftl d !! block = Some b →
  pages b !! page = Some PAGE_IN_USE →
  (reachable cfg InPlace d → empty_count b = 0 →
   ∃ d',
     full_block_write_policy cfg InPlace (S fuel) block page d
       = Return true d' ∧
     raw_write_page cfg InPlace (S fuel) block page d = Return true d' ∧
     page_at d' block page = Some PAGE_IN_USE) ∧
  (∀ pol, reachable cfg pol d → 0 < empty_count b →
   ∃ d' newpage,
     raw_write_page cfg pol fuel block page d = Return true d' ∧
     0 ≤ newpage < pages_per_block cfg ∧ newpage ≠ page ∧
     page_at d block newpage = Some PAGE_EMPTY ∧
     page_at d' block page = Some PAGE_DIRTY ∧
     page_at d' block newpage = Some PAGE_IN_USE) ∧
  (reachable cfg Naive d → empty_count b = 0 →
   ∀ d',
     full_block_write_policy cfg Naive fuel block page d = Return true d' →
     raw_write_page cfg Naive fuel block page d = Return true d' ∧
     page_at d' block page = Some PAGE_DIRTY ∧
     ∃ b0 p0,
       0 ≤ b0 < total_blocks cfg ∧ b0 ≠ block ∧
       0 ≤ p0 < pages_per_block cfg ∧
       page_at d b0 p0 = Some PAGE_EMPTY ∧
       page_at d' b0 p0 = Some PAGE_IN_USE).
Proof.
  intros Hin Hb Hs. pose proof Hin as [Hblock Hpage].
  assert (Hn : 0 ≤ pages_per_block cfg) by lia.
  split_and!.
  - intros Hreach Hfull.
    pose proof (reachable_disk_ok cfg InPlace d Hn Hreach block Hblock)
      as (b0 & Hb0 & Hkeys & _).
    assert (b0 = b) as -> by congruence.
    destruct (in_place_policy_spec cfg fuel block page b d Hin Hb Hkeys)
      as (m' & r & k & Hrun & _ & _ & Hm' & _).
    eexists. split; [exact Hrun|]. split.
    + unfold raw_write_page.
      rewrite (raw_write_page_full cfg _ block page b d Hin Hb Hs)
        by lia.
      cbn [full_block_write_policy]. by rewrite Hrun.
    + unfold page_at. cbn [_ftl]. rewrite lookup_insert_eq. cbn.
      rewrite Hm' by done. by rewrite decide_True by auto.
  - intros pol Hreach Hroom.
    pose proof (reachable_disk_ok cfg pol d Hn Hreach block Hblock)
      as (b0 & Hb0 & Hokb).
    assert (b0 = b) as -> by congruence.
    destruct (raw_write_page_in_block cfg (full_block_write_policy cfg pol fuel)
                block page b d Hin Hb Hokb Hs Hroom)
      as (newpage & Hnew & Hnews & _ & Hrun).
    assert (Hne : newpage ≠ page) by (intros ->; congruence).
    eexists _, newpage. split; [exact Hrun|].
    unfold page_at. cbn [_ftl]. rewrite Hb, lookup_insert_eq. cbn.
    split_and!; try done; try lia.
    + by rewrite lookup_insert_ne, lookup_insert_eq.
    + by rewrite lookup_insert_eq.
  - intros Hreach Hfull d' Hrun.
    pose proof (reachable_disk_ok cfg Naive d Hn Hreach) as Hok.
    cbn [full_block_write_policy] in Hrun.
    destruct (naive_policy_spec cfg block page b d Hok Hin Hb)
      as [[_ Hrun']|(b0 & blk0 & p0 & Hb0 & Hne & Hlook & _ & _ & Hp0 & Hs0
                     & _ & Hrun')].
    { rewrite Hrun in Hrun'. discriminate. }
    rewrite Hrun in Hrun'. injection Hrun' as ->.
    split_and!.
    + unfold raw_write_page.
      rewrite (raw_write_page_full cfg _ block page b d Hin Hb Hs)
        by lia.
      cbn [full_block_write_policy]. by rewrite Hrun.
    + unfold page_at. cbn [_ftl].
      rewrite lookup_insert_ne, lookup_insert_eq by done. cbn.
      by rewrite lookup_insert_eq.
    + exists b0, p0. unfold page_at. cbn [_ftl].
      rewrite Hlook, lookup_insert_eq. cbn.
      split_and!; try done; try lia. by rewrite lookup_insert_eq.
Qed.

Lemma C10_overwrite_location_witness :
  (∃ d',
     full_block_write_policy cfg22 InPlace 1 0 0 disk_in_place_full
       = Return true d' ∧
     raw_write_page cfg22 InPlace 1 0 0 disk_in_place_full = Return true d' ∧
     page_at d' 0 0 = Some PAGE_IN_USE) ∧
  (∃ d' newpage,
     raw_write_page cfg22 InPlace 0 0 0 disk_in_place_one = Return true d' ∧
     0 ≤ newpage < pages_per_block cfg22 ∧ newpage ≠ 0 ∧
     page_at disk_in_place_one 0 newpage = Some PAGE_EMPTY ∧
     page_at d' 0 0 = Some PAGE_DIRTY ∧
     page_at d' 0 newpage = Some PAGE_IN_USE) ∧
  (∃ d',
     full_block_write_policy cfg21 Naive 0 0 0 disk_naive_one
       = Return true d' ∧
     raw_write_page cfg21 Naive 0 0 0 disk_naive_one = Return true d' ∧
     page_at d' 0 0 = Some PAGE_DIRTY ∧
     ∃ b0 p0,
       0 ≤ b0 < total_blocks cfg21 ∧ b0 ≠ 0 ∧
       0 ≤ p0 < pages_per_block cfg21 ∧
       page_at disk_naive_one b0 p0 = Some PAGE_EMPTY ∧
       page_at d' b0 p0 = Some PAGE_IN_USE).
Proof.
  split_and!.
  - apply (C10_overwrite_location cfg22 0 disk_in_place_full 0 0
             (Block {[0 := PAGE_IN_USE; 1 := PAGE_IN_USE]} 0 0)).
    + vm_compute. repeat split; congruence.
    + vm_compute. reflexivity.
    + vm_compute. reflexivity.
    + apply disk_in_place_full_reachable.
    + reflexivity.
  - apply (C10_overwrite_location cfg22 0 disk_in_place_one 0 0
             (Block {[0 := PAGE_IN_USE; 1 := PAGE_EMPTY]} 1 0)).
    + vm_compute. repeat split; congruence.
    + vm_compute. reflexivity.
    + vm_compute. reflexivity.
    + apply disk_in_place_one_reachable.
    + reflexivity.
  - eexists. split; [vm_compute; reflexivity|].
    apply (C10_overwrite_location cfg21 0 disk_naive_one 0 0
             (Block {[0 := PAGE_IN_USE]} 0 0)).
    + vm_compute. repeat split; congruence.
    + vm_compute. reflexivity.
    + vm_compute. reflexivity.
    + apply disk_naive_one_reachable.
    + reflexivity.
    + vm_compute. reflexivity.
Defined.


(** * Further properties of the code *)

(** ** The outcomes of a write, case by case *)

Section WriteCases.

Variable cfg : config.

(** The policy of the disk on a consistent state. *)
Lemma full_block_write_policy_cases pol fuel block page b d :
  disk_ok cfg d → in_range cfg block page → _ftl d !! block = Some b →
  (pol = Naive ∧
   (∀ b1 b', 0 ≤ b1 < total_blocks cfg → b1 ≠ block →
             _ftl d !! b1 = Some b' → empty_count b' ≤ 0) ∧
   full_block_write_policy cfg pol fuel block page d = Return false d)
  ∨ (pol = Naive ∧
     ∃ b0 blk0 p0,
       0 ≤ b0 < total_blocks cfg ∧ b0 ≠ block ∧
       _ftl d !! b0 = Some blk0 ∧ block_ok cfg blk0 ∧
       0 < empty_count blk0 ∧
       0 ≤ p0 < pages_per_block cfg ∧
       pages blk0 !! p0 = Some PAGE_EMPTY ∧
       full_block_write_policy cfg pol fuel block page d =
       Return true
         (Disk (_elapsed_time d + write_page_time cfg)
            (_host_page_write_request d) (_page_write_executed d + 1)
            (_page_write_failed d) (_host_page_read_request d)
            (_page_read_executed d) (_block_erase_executed d)
            (<[b0 := Block (<[p0 := PAGE_IN_USE]> (pages blk0))
                           (empty_count blk0 + -1) (dirty_count blk0)]>
               (<[block := Block (<[page := PAGE_DIRTY]> (pages b))
                                 (empty_count b) (dirty_count b + 1)]>
                  (_ftl d)))))
  ∨ (pol = InPlace ∧ fuel = 0%nat ∧
     full_block_write_policy cfg pol fuel block page d = OutOfFuel)
  ∨ (pol = InPlace ∧
     ∃ m' r k,
       full_block_write_policy cfg pol fuel block page d =
       Return true
         (Disk (_elapsed_time d + r * read_page_time cfg
                  + erase_block_time cfg + k * write_page_time cfg)
            (_host_page_write_request d) (_page_write_executed d + k)
            (_page_write_failed d) (_host_page_read_request d)
            (_page_read_executed d + r) (_block_erase_executed d + 1)
            (<[block := Block m' (pages_per_block cfg - k) 0]> (_ftl d))) ∧
       r = count_in (<[page := PAGE_DIRTY]> (pages b)) PAGE_IN_USE
             (seqZ 0 (pages_per_block cfg)) ∧
       k = count_in m' PAGE_IN_USE (seqZ 0 (pages_per_block cfg)) ∧
       (∀ p, 0 ≤ p < pages_per_block cfg →
          m' !! p = Some (if decide (pages b !! p = Some PAGE_IN_USE
                                     ∨ p = page)
                          then PAGE_IN_USE else PAGE_EMPTY))).
Proof.
  intros Hok Hin Hb. pose proof Hin as [Hblock Hpage].
  destruct pol.
  - destruct (naive_policy_spec cfg block page b d Hok Hin Hb)
      as [[Hall Hrun]|(b0 & blk0 & p0 & Hb0 & Hne & Hlook & Hpos & _ & Hp0
                       & Hs0 & _ & Hrun)].
    + left. done.
    + right; left. split; [done|]. exists b0, blk0, p0.
      destruct (Hok b0 Hb0) as (blk0' & Hlook' & Hok0).
      assert (blk0' = blk0) as -> by congruence. done.
  - destruct fuel as [|fuel]; [right; right; left; done|].
    right; right; right. split; [done|].
    destruct (Hok block Hblock) as (b' & Hb' & Hkeys & _).
    assert (b' = b) as -> by congruence.
    destruct (in_place_policy_spec cfg fuel block page b d Hin Hb Hkeys)
      as (m' & r & k & Hrun & Hr & Hk & Hm' & _).
    exists m', r, k. done.
Qed.

(** [raw_write_page] on a consistent state: the four branches. *)
Lemma raw_write_page_cases pol fuel block page d :
  disk_ok cfg d → in_range cfg block page →
  ∃ b, _ftl d !! block = Some b ∧ block_ok cfg b ∧
    ((pages b !! page = Some PAGE_EMPTY ∧
      raw_write_page cfg pol fuel block page d =
      Return true
        (Disk (_elapsed_time d + write_page_time cfg)
           (_host_page_write_request d) (_page_write_executed d + 1)
           (_page_write_failed d) (_host_page_read_request d)
           (_page_read_executed d) (_block_erase_executed d)
           (<[block := Block (<[page := PAGE_IN_USE]> (pages b))
                             (empty_count b + -1) (dirty_count b)]>
              (_ftl d))))
     ∨ (pages b !! page = Some PAGE_DIRTY ∧
        raw_write_page cfg pol fuel block page d = Return false d)
     ∨ (pages b !! page = Some PAGE_IN_USE ∧ 0 < empty_count b ∧
        ∃ newpage,
          0 ≤ newpage < pages_per_block cfg ∧ newpage ≠ page ∧
          pages b !! newpage = Some PAGE_EMPTY ∧
          raw_write_page cfg pol fuel block page d =
          Return true
            (Disk (_elapsed_time d + write_page_time cfg)
               (_host_page_write_request d) (_page_write_executed d + 1)
               (_page_write_failed d) (_host_page_read_request d)
               (_page_read_executed d) (_block_erase_executed d)
               (<[block := Block (<[newpage := PAGE_IN_USE]>
                                    (<[page := PAGE_DIRTY]> (pages b)))
                                 (empty_count b + -1) (dirty_count b + 1)]>
                  (_ftl d))))
     ∨ (pages b !! page = Some PAGE_IN_USE ∧ empty_count b ≤ 0 ∧
        raw_write_page cfg pol fuel block page d =
        match full_block_write_policy cfg pol fuel block page d with
        | Return true d' => Return true d'
        | Return false d' => Return false (incr_page_write_failed d')
        | Raise e d' => Raise e d'
        | OutOfFuel => OutOfFuel
        end)).
Proof.
  intros Hok Hin. pose proof Hin as [Hblock Hpage].
  destruct (Hok block Hblock) as (b & Hb & Hokb).
  destruct (proj1 Hokb page Hpage) as [s Hs].
  exists b. split_and!; [done|done|]. unfold raw_write_page. destruct s.
  - destruct (Z_le_gt_dec (empty_count b) 0) as [Hfull|Hroom].
    + right; right; right. split_and!; [done|done|].
      by apply (raw_write_page_full cfg _ block page b).
    + right; right; left. split_and!; [done|lia|].
      destruct (raw_write_page_in_block cfg
                  (full_block_write_policy cfg pol fuel)
                  block page b d Hin Hb Hokb Hs)
        as (newpage & Hnew & Hnews & _ & Hrun); [lia|].
      exists newpage. split_and!; try done; try lia. intros ->. congruence.
  - right; left. split; [done|]. by eapply raw_write_page_dirty.
  - left. split; [done|]. by apply raw_write_page_empty.
Qed.

End WriteCases.

(** ** X1: coordinates out of range *)

Lemma check_block_fail cfg block d :
  ¬ (0 ≤ block < total_blocks cfg) →
  check_block cfg block d = Raise ValueError_block d.
Proof.
  intros H. unfold check_block.
  destruct (Z.ltb_spec block 0); [done|].
  destruct (Z.geb_spec block (total_blocks cfg)); [done|lia].
Qed.

Lemma check_page_fail cfg page d :
  ¬ (0 ≤ page < pages_per_block cfg) →
  check_page cfg page d = Raise ValueError_page d.
Proof.
  intros H. unfold check_page.
  destruct (Z.ltb_spec page 0); [done|].
  destruct (Z.geb_spec page (pages_per_block cfg)); [done|lia].
Qed.

Lemma bind_Raise {A B} (c : M A) (k : A → M B) d e d' :
  c d = Raise e d' → (c ≫= k) d = Raise e d'.
Proof. intros H. by rewrite bind_eq, H. Qed.

(** X1: a coordinate out of range is refused before anything is read or
    written.  [raw_write_page], [host_write_page], [raw_read_page] and the
    policy of the disk raise [ValueError] and leave the disk as it was: for
    the block when the block is out of range, else for the page.
    [get_empty_page] and [raw_erase_block], which take no page, do so for a
    block out of range. *)
Theorem X1_out_of_range cfg pol fuel d block page :
  ¬ in_range cfg block page →
  (∀ e, e = (if decide (0 ≤ block < total_blocks cfg)
             then ValueError_page else ValueError_block) →
     raw_write_page cfg pol fuel block page d = Raise e d ∧
     host_write_page cfg pol fuel block page d = Raise e d ∧
     raw_read_page cfg block page d = Raise e d ∧
     full_block_write_policy cfg pol (S fuel) block page d = Raise e d) ∧
  (¬ (0 ≤ block < total_blocks cfg) →
     get_empty_page cfg block d = Raise ValueError_block d ∧
     raw_erase_block cfg block d = Raise ValueError_block d).
Proof.
  intros Hout. split.
  - intros e ->. destruct (decide (0 ≤ block < total_blocks cfg)) as [Hb|Hb].
    + assert (Hp : ¬ (0 ≤ page < pages_per_block cfg))
        by (intros Hp; apply Hout; by split).
      assert (Hchecks : ∀ A (k : M A),
                (check_block cfg block;; check_page cfg page;; k) d
                = Raise ValueError_page d).
      { intros A k.
        rewrite (bind_Return _ _ _ _ _ (check_block_ok cfg _ _ Hb)).
        apply bind_Raise. by apply check_page_fail. }
      split_and!.
      * apply Hchecks.
      * apply Hchecks.
      * apply Hchecks.
      * destruct pol; apply Hchecks.
    + assert (Hchecks : ∀ A (k : unit → M A),
                (check_block cfg block ≫= k) d = Raise ValueError_block d).
      { intros A k. apply bind_Raise. by apply check_block_fail. }
      split_and!.
      * apply Hchecks.
      * apply Hchecks.
      * apply Hchecks.
      * destruct pol; apply Hchecks.
  - intros Hb. split; apply bind_Raise; by apply check_block_fail.
Qed.

Lemma X1_out_of_range_witness :
  raw_write_page cfg21 Naive 0 2 0 disk_naive_one
    = Raise ValueError_block disk_naive_one ∧
  raw_read_page cfg21 0 1 disk_naive_one
    = Raise ValueError_page disk_naive_one ∧
  raw_erase_block cfg21 (-1) disk_naive_one
    = Raise ValueError_block disk_naive_one.
Proof.
  split_and!.
  - apply (X1_out_of_range cfg21 Naive 0 disk_naive_one 2 0);
      first [ cbv [in_range cfg21 total_blocks pages_per_block]; lia
            | vm_compute; reflexivity ].
  - apply (X1_out_of_range cfg21 Naive 0 disk_naive_one 0 1);
      first [ cbv [in_range cfg21 total_blocks pages_per_block]; lia
            | vm_compute; reflexivity ].
  - apply (X1_out_of_range cfg21 Naive 0 disk_naive_one (-1) 0);
      cbv [in_range cfg21 total_blocks pages_per_block]; lia.
Defined.

(** ** X2: the queries *)

Lemma ftl_page_unchanged block page d : unchanged (ftl_page block page d) d.
Proof.
  unfold ftl_page, ftl_block. rewrite bind_eq.
  destruct (_ftl d !! block) as [b|]; [|right; by eexists].
  destruct (pages b !! page); [left|right]; by eexists.
Qed.

Lemma scan_empty_page_unchanged block ps d :
  unchanged (scan_empty_page block ps d) d.
Proof.
  induction ps as [|p ps IH]; cbn [scan_empty_page].
  - right. by eexists.
  - rewrite bind_eq.
    destruct (ftl_page_unchanged block p d) as [[s ->]|[e ->]].
    + destruct (decide _); [left; by eexists|done].
    + right. by eexists.
Qed.

Lemma sum_blocks_unchanged key bs tot d :
  unchanged (sum_blocks key bs tot d) d.
Proof.
  revert tot. induction bs as [|b bs IH]; intros tot; cbn [sum_blocks].
  - left. by eexists.
  - rewrite bind_eq. unfold ftl_block.
    destruct (_ftl d !! b) as [blk|]; [apply IH|right; by eexists].
Qed.

(** X2: [get_empty_page], [number_of_empty_pages] and
    [number_of_dirty_pages] are queries: whatever the state and the
    argument, they return or raise with the disk exactly as it was.  On an
    in-range block whose cached [empty_count] is not positive,
    [get_empty_page] raises [ValueError] from its first check, without
    looking at the pages. *)
Theorem X2_queries cfg d block :
  ((∃ p, get_empty_page cfg block d = Return p d) ∨
   (∃ e, get_empty_page cfg block d = Raise e d)) ∧
  ((∃ n, number_of_empty_pages cfg d = Return n d) ∨
   (∃ e, number_of_empty_pages cfg d = Raise e d)) ∧
  ((∃ n, number_of_dirty_pages cfg d = Return n d) ∨
   (∃ e, number_of_dirty_pages cfg d = Raise e d)) ∧
  (∀ b, 0 ≤ block < total_blocks cfg → _ftl d !! block = Some b →
        empty_count b ≤ 0 →
        get_empty_page cfg block d = Raise ValueError_no_empty d).
Proof.
  split_and!.
  - unfold get_empty_page, check_block, ftl_block. rewrite !bind_eq.
    destruct (_ || _); [right; by eexists|]. rewrite !bind_eq.
    destruct (_ftl d !! block) as [b|]; [|right; by eexists].
    destruct (_ <=? _); [right; by eexists|].
    apply scan_empty_page_unchanged.
  - apply sum_blocks_unchanged.
  - apply sum_blocks_unchanged.
  - intros b Hblock Hb Hle. unfold get_empty_page.
    rewrite (bind_Return _ _ _ _ _ (check_block_ok cfg _ _ Hblock)).
    rewrite (bind_Return _ _ _ _ _ (ftl_block_eq _ _ _ Hb)).
    by destruct (Z.leb_spec (empty_count b) 0); [|lia].
Qed.

Lemma X2_queries_witness :
  get_empty_page cfg21 0 disk_naive_one
    = Raise ValueError_no_empty disk_naive_one.
Proof.
  apply (X2_queries cfg21 disk_naive_one 0) with (b := Block {[0 := PAGE_IN_USE]} 0 0).
  - cbv [cfg21 total_blocks]. lia.
  - vm_compute. reflexivity.
  - cbn. lia.
Defined.

(** ** X3 and X4: the page totals *)

Lemma sum_blocks_total key bs tot d :
  (∀ b, b ∈ bs → is_Some (_ftl d !! b)) →
  sum_blocks key bs tot d = Return (tot + block_total key (_ftl d) bs) d.
Proof.
  revert tot. induction bs as [|b bs IH]; intros tot Hall.
  - cbn. by rewrite Z.add_0_r.
  - destruct (Hall b) as [blk Hb]; [by left|].
    cbn [sum_blocks block_total].
    rewrite (bind_Return _ _ _ _ _ (ftl_block_eq _ _ _ Hb)), Hb.
    rewrite IH by (intros ? ?; apply Hall; by right).
    f_equal. lia.
Qed.

Lemma block_total_const key f bs v :
  (∀ b, b ∈ bs → ∃ blk, f !! b = Some blk ∧ key blk = v) →
  block_total key f bs = Z.of_nat (length bs) * v.
Proof.
  induction bs as [|b bs IH]; intros Hall; [done|].
  cbn [block_total length]. destruct (Hall b) as (blk & -> & ->); [by left|].
  rewrite IH by (intros ? ?; apply Hall; by right). lia.
Qed.

Lemma block_total_plus key1 key2 f bs :
  block_total (fun b => key1 b + key2 b) f bs
  = block_total key1 f bs + block_total key2 f bs.
Proof.
  induction bs as [|b bs IH]; [done|]. cbn [block_total]. rewrite IH.
  destruct (f !! b); lia.
Qed.

Lemma block_total_ext key1 key2 f bs :
  (∀ b blk, b ∈ bs → f !! b = Some blk → key1 blk = key2 blk) →
  block_total key1 f bs = block_total key2 f bs.
Proof.
  induction bs as [|b bs IH]; intros Hall; [done|]. cbn [block_total].
  rewrite IH by (intros ? ? ? ?; eapply Hall; [by right|done]).
  destruct (f !! b) as [blk|] eqn:Hb; [|done].
  rewrite (Hall b blk); [done|by left|done].
Qed.

Lemma block_total_nonneg key f bs :
  (∀ b blk, b ∈ bs → f !! b = Some blk → 0 ≤ key blk) →
  0 ≤ block_total key f bs.
Proof.
  induction bs as [|b bs IH]; intros Hall; [done|]. cbn [block_total].
  assert (0 ≤ block_total key f bs)
    by (apply IH; intros ? ? ? ?; eapply Hall; [by right|done]).
  destruct (f !! b) as [blk|] eqn:Hb; [|lia].
  assert (0 ≤ key blk) by (eapply Hall; [by left|done]). lia.
Qed.

Section Totals.

Variable cfg : config.

Lemma disk_ok_totals d :
  0 ≤ total_blocks cfg → 0 ≤ pages_per_block cfg → disk_ok cfg d →
  number_of_empty_pages cfg d = Return (pages_with cfg PAGE_EMPTY d) d ∧
  number_of_dirty_pages cfg d = Return (pages_with cfg PAGE_DIRTY d) d ∧
  pages_with cfg PAGE_EMPTY d + pages_with cfg PAGE_DIRTY d
    + pages_with cfg PAGE_IN_USE d
  = total_blocks cfg * pages_per_block cfg ∧
  0 ≤ pages_with cfg PAGE_EMPTY d ∧ 0 ≤ pages_with cfg PAGE_DIRTY d ∧
  0 ≤ pages_with cfg PAGE_IN_USE d.
Proof.
  intros Htb Hn Hok.
  assert (Hsome : ∀ b, b ∈ seqZ 0 (total_blocks cfg) → is_Some (_ftl d !! b)).
  { intros b Hb%elem_of_seqZ. destruct (Hok b) as (blk & -> & _); [lia|].
    by eexists. }
  assert (Hkey : ∀ b blk, b ∈ seqZ 0 (total_blocks cfg) →
            _ftl d !! b = Some blk → block_ok cfg blk).
  { intros b blk Hb%elem_of_seqZ Hlook.
    destruct (Hok b) as (blk' & Hlook' & Hokb); [lia|]. congruence. }
  unfold number_of_empty_pages, number_of_dirty_pages, pages_with.
  rewrite !sum_blocks_total by done. split_and!.
  - f_equal. rewrite Z.add_0_l. apply block_total_ext.
    intros b blk Hb Hlook. apply (Hkey b blk Hb Hlook).
  - f_equal. rewrite Z.add_0_l. apply block_total_ext.
    intros b blk Hb Hlook. apply (Hkey b blk Hb Hlook).
  - rewrite <- !block_total_plus.
    rewrite (block_total_const _ _ _ (pages_per_block cfg)).
    + rewrite length_seqZ. lia.
    + intros b Hb. destruct (Hsome b Hb) as [blk Hlook]. exists blk.
      split; [done|]. apply count_pages_total; [done|].
      apply (Hkey b blk Hb Hlook).
  - apply block_total_nonneg. intros. apply count_in_bounds.
  - apply block_total_nonneg. intros. apply count_in_bounds.
  - apply block_total_nonneg. intros. apply count_in_bounds.
Qed.

End Totals.

(** X3: on a new disk every in-range page is empty and reads as no data,
    [number_of_empty_pages()] is [total_blocks * pages_per_block] and
    [number_of_dirty_pages()] is 0.  The two geometry values are not
    negative. *)
Theorem X3_new_disk cfg :
  0 ≤ total_blocks cfg → 0 ≤ pages_per_block cfg →
  (∀ block page, in_range cfg block page →
     page_at (init_disk cfg) block page = Some PAGE_EMPTY ∧
     raw_read_page cfg block page (init_disk cfg)
       = Return false (init_disk cfg)) ∧
  number_of_empty_pages cfg (init_disk cfg)
    = Return (total_blocks cfg * pages_per_block cfg) (init_disk cfg) ∧
  number_of_dirty_pages cfg (init_disk cfg) = Return 0 (init_disk cfg).
Proof.
  intros Htb Hn.
  assert (Hblk : ∀ b, 0 ≤ b < total_blocks cfg →
            _ftl (init_disk cfg) !! b = Some (init_block cfg)).
  { intros b Hb. unfold init_disk. cbn [_ftl]. rewrite foldl_insert_lookup.
    rewrite decide_True; [done|]. apply elem_of_seqZ. lia. }
  assert (Hall : ∀ v (key : block_state → Z), key (init_block cfg) = v →
            ∀ b, b ∈ seqZ 0 (total_blocks cfg) →
            ∃ blk, _ftl (init_disk cfg) !! b = Some blk ∧ key blk = v).
  { intros v key Hv b Hb%elem_of_seqZ. exists (init_block cfg).
    split; [apply Hblk; lia|done]. }
  split_and!.
  - intros block page [Hblock Hpage].
    assert (Hp : pages (init_block cfg) !! page = Some PAGE_EMPTY)
      by (by apply (erased_range_lookup cfg ∅)).
    split.
    + unfold page_at. rewrite Hblk by done. exact Hp.
    + eapply raw_read_page_no_data; [by split|by apply Hblk|exact Hp|done].
  - unfold number_of_empty_pages. rewrite sum_blocks_total.
    + rewrite (block_total_const _ _ _ (pages_per_block cfg))
        by (by apply Hall).
      rewrite length_seqZ. f_equal. lia.
    + intros b Hb. destruct (Hall _ empty_count eq_refl b Hb) as (? & -> & _).
      by eexists.
  - unfold number_of_dirty_pages. rewrite sum_blocks_total.
    + rewrite (block_total_const _ _ _ 0) by (by apply Hall).
      f_equal. lia.
    + intros b Hb. destruct (Hall _ empty_count eq_refl b Hb) as (? & -> & _).
      by eexists.
Qed.

Lemma X3_new_disk_witness :
  (∀ block page, in_range cfg22 block page →
     page_at (init_disk cfg22) block page = Some PAGE_EMPTY ∧
     raw_read_page cfg22 block page (init_disk cfg22)
       = Return false (init_disk cfg22)) ∧
  number_of_empty_pages cfg22 (init_disk cfg22)
    = Return (total_blocks cfg22 * pages_per_block cfg22) (init_disk cfg22) ∧
  number_of_dirty_pages cfg22 (init_disk cfg22)
    = Return 0 (init_disk cfg22).
Proof.
  apply (X3_new_disk cfg22); cbv [cfg22 total_blocks pages_per_block]; lia.
Defined.

(** X4: in every reachable state of a disk of either class,
    [number_of_empty_pages()] and [number_of_dirty_pages()] return the
    actual numbers of empty and of dirty pages of the disk, and these two
    numbers plus the number of pages in use are
    [total_blocks * pages_per_block].  The two geometry values are not
    negative. *)
Theorem X4_page_totals cfg pol d :
  0 ≤ total_blocks cfg → 0 ≤ pages_per_block cfg →
  reachable cfg pol d →
  number_of_empty_pages cfg d = Return (pages_with cfg PAGE_EMPTY d) d ∧
  number_of_dirty_pages cfg d = Return (pages_with cfg PAGE_DIRTY d) d ∧
  pages_with cfg PAGE_EMPTY d + pages_with cfg PAGE_DIRTY d
    + pages_with cfg PAGE_IN_USE d
  = total_blocks cfg * pages_per_block cfg ∧
  0 ≤ pages_with cfg PAGE_EMPTY d ∧ 0 ≤ pages_with cfg PAGE_DIRTY d ∧
  0 ≤ pages_with cfg PAGE_IN_USE d.
Proof.
  intros Htb Hn Hreach. apply disk_ok_totals; [done..|].
  by eapply reachable_disk_ok.
Qed.

Lemma X4_page_totals_witness :
  number_of_empty_pages cfg22 disk_in_place_gc
    = Return (pages_with cfg22 PAGE_EMPTY disk_in_place_gc) disk_in_place_gc ∧
  number_of_dirty_pages cfg22 disk_in_place_gc
    = Return (pages_with cfg22 PAGE_DIRTY disk_in_place_gc) disk_in_place_gc ∧
  pages_with cfg22 PAGE_EMPTY disk_in_place_gc
    + pages_with cfg22 PAGE_DIRTY disk_in_place_gc
    + pages_with cfg22 PAGE_IN_USE disk_in_place_gc
  = total_blocks cfg22 * pages_per_block cfg22 ∧
  0 ≤ pages_with cfg22 PAGE_EMPTY disk_in_place_gc ∧
  0 ≤ pages_with cfg22 PAGE_DIRTY disk_in_place_gc ∧
  0 ≤ pages_with cfg22 PAGE_IN_USE disk_in_place_gc.
Proof.
  apply (X4_page_totals cfg22 InPlace disk_in_place_gc).
  - cbv [cfg22 total_blocks]. lia.
  - cbv [cfg22 pages_per_block]. lia.
  - apply (reachable_step _ _ _ disk_in_place_full (Host_write_page 0 0)
             1%nat true).
    + apply disk_in_place_full_reachable.
    + exact I.
    + cbv [op_in_range in_range cfg22 total_blocks pages_per_block]. lia.
    + vm_compute. reflexivity.
Defined.

Lemma disk_in_place_gc_reachable : reachable cfg22 InPlace disk_in_place_gc.
Proof.
  reach_from disk_in_place_full (Host_write_page 0 0).
  apply disk_in_place_full_reachable.
Defined.

(** ** X5: the elapsed time *)

Section Accounting.

Variable cfg : config.

Ltac account :=
  unfold keeps_account, accounted_time, incr_page_write_failed,
    incr_host_page_write_request;
  cbn [_elapsed_time _page_write_executed _page_read_executed
       _block_erase_executed _host_page_read_request];
  split; [lia|reflexivity].

Lemma policy_keeps_account pol fuel block page d r d' :
  disk_ok cfg d → in_range cfg block page →
  full_block_write_policy cfg pol fuel block page d = Return r d' →
  keeps_account cfg d d'.
Proof.
  intros Hok Hin Hrun. destruct (Hok block (proj1 Hin)) as (b & Hb & _).
  destruct (full_block_write_policy_cases cfg pol fuel block page b d
              Hok Hin Hb)
    as [(_ & _ & H)|[(_ & b0 & blk0 & p0 & _ & _ & _ & _ & _ & _ & _ & H)
       |[(_ & _ & H)|(_ & m' & rd & k & H & _)]]];
    rewrite H in Hrun; try discriminate; injection Hrun as <- <-; account.
Qed.

Lemma raw_write_page_keeps_account pol fuel block page d r d' :
  disk_ok cfg d → in_range cfg block page →
  raw_write_page cfg pol fuel block page d = Return r d' →
  keeps_account cfg d d'.
Proof.
  intros Hok Hin Hrun.
  destruct (raw_write_page_cases cfg pol fuel block page d Hok Hin)
    as (b & Hb & _ & [(_ & H)|[(_ & H)|[(_ & _ & np & _ & _ & _ & H)
                                       |(_ & _ & H)]]]);
    rewrite H in Hrun.
  - injection Hrun as <- <-. account.
  - injection Hrun as <- <-. account.
  - injection Hrun as <- <-. account.
  - destruct (full_block_write_policy cfg pol fuel block page d)
      as [[] d1|e d1|] eqn:Hpol; try discriminate;
      injection Hrun as <- <-;
      destruct (policy_keeps_account pol fuel block page d _ d1 Hok Hin Hpol)
        as [H1 H2]; unfold keeps_account, accounted_time in *;
      cbn [incr_page_write_failed _elapsed_time _page_write_executed
           _page_read_executed _block_erase_executed
           _host_page_read_request] in *; split; (lia || done).
Qed.

Lemma exec_keeps_account pol fuel o d r d' :
  disk_ok cfg d → op_in_range cfg o →
  exec cfg pol fuel o d = Return r d' →
  keeps_account cfg d d'.
Proof.
  intros Hok Hin Hrun. destruct o as [b p|b p|b p|b|b p]; cbn [exec] in Hrun.
  - by eapply raw_write_page_keeps_account.
  - rewrite (host_write_page_eq cfg pol fuel b p d Hin) in Hrun.
    destruct (raw_write_page cfg pol fuel b p d) as [[] d1|e d1|] eqn:Hraw;
      try discriminate; injection Hrun as <- <-;
      destruct (raw_write_page_keeps_account pol fuel b p d _ d1 Hok Hin Hraw)
        as [H1 H2]; unfold keeps_account, accounted_time in *;
      cbn [incr_host_page_write_request _elapsed_time _page_write_executed
           _page_read_executed _block_erase_executed
           _host_page_read_request] in *; split; (lia || done).
  - cbn [op_in_range] in Hin. pose proof Hin as [Hblock Hpage].
    destruct (Hok b Hblock) as (blk & Hb & Hkeys & _).
    destruct (Hkeys p Hpage) as [s Hs].
    destruct (decide (s = PAGE_IN_USE)) as [->|Hne].
    + rewrite (raw_read_page_in_use cfg b p blk d Hin Hb Hs) in Hrun.
      injection Hrun as <- <-. account.
    + rewrite (raw_read_page_no_data cfg b p blk s d Hin Hb Hs Hne) in Hrun.
      injection Hrun as <- <-. account.
  - cbn [op_in_range] in Hin. destruct (Hok b Hin) as (blk & Hb & _).
    rewrite (raw_erase_block_eq cfg b blk d Hin Hb) in Hrun.
    injection Hrun as <- <-. account.
  - by eapply policy_keeps_account.
Qed.

End Accounting.

(** X5: in every reachable state of a disk of either class the elapsed
    time is exactly what the counters account for,
    [_page_write_executed * write_page_time + _page_read_executed *
    read_page_time + _block_erase_executed * erase_block_time], and
    [_host_page_read_request] is still 0: no operation of the class
    increments it, and a write that fails or is discarded costs no
    time. *)
Theorem X5_time_accounting cfg pol d :
  0 ≤ pages_per_block cfg →
  reachable cfg pol d →
  _elapsed_time d
  = _page_write_executed d * write_page_time cfg
    + _page_read_executed d * read_page_time cfg
    + _block_erase_executed d * erase_block_time cfg ∧
  _host_page_read_request d = 0.
Proof.
  intros Hn Hreach.
  assert (disk_ok cfg d ∧ _elapsed_time d = accounted_time cfg d ∧
          _host_page_read_request d = 0) as (_ & H1 & H2); [|done].
  induction Hreach as [|d o fuel r d' _ (IHok & IHt & IHr) Hc Hin Hrun].
  - split; [by apply init_disk_ok|]. done.
  - destruct (exec_keeps_account cfg pol fuel o d r d' IHok Hin Hrun)
      as [Ht Hr].
    destruct (exec_ok cfg pol fuel o d Hn IHok Hin Hc)
      as [(_ & _ & Hout)|(r' & d'' & Hrun' & Hok' & _)]; [congruence|].
    rewrite Hrun in Hrun'. injection Hrun' as -> ->.
    split_and!; [done|lia|lia].
Qed.

Lemma X5_time_accounting_witness :
  _elapsed_time disk_in_place_gc
  = _page_write_executed disk_in_place_gc * write_page_time cfg22
    + _page_read_executed disk_in_place_gc * read_page_time cfg22
    + _block_erase_executed disk_in_place_gc * erase_block_time cfg22 ∧
  _host_page_read_request disk_in_place_gc = 0.
Proof.
  apply (X5_time_accounting cfg22 InPlace disk_in_place_gc).
  - cbv [cfg22 pages_per_block]. lia.
  - apply disk_in_place_gc_reachable.
Defined.

(** ** X6: the naive disk never reclaims a page *)

Lemma forward_only_same_ftl d d' : _ftl d' = _ftl d → forward_only d d'.
Proof.
  intros H b p. unfold page_at. rewrite H. split_and!; auto.
Qed.

Lemma forward_only_trans d1 d2 d3 :
  forward_only d1 d2 → forward_only d2 d3 → forward_only d1 d3.
Proof.
  intros H12 H23 b p.
  destruct (H12 b p) as (Ha & Hb & Hc). destruct (H23 b p) as (Ha' & Hb' & Hc').
  split_and!; [auto| |auto].
  intros Hu. destruct (Hb Hu) as [Hu'|Hd']; [auto|right; auto].
Qed.

(** One page of one block moves from [old] to [new], where [new] is not
    the empty status and [old] is not the dirty one. *)
Lemma forward_only_set_page d d' block b i old new e' dd' :
  _ftl d !! block = Some b → pages b !! i = Some old →
  _ftl d' = <[block := Block (<[i := new]> (pages b)) e' dd']> (_ftl d) →
  new ≠ PAGE_EMPTY → old ≠ PAGE_DIRTY →
  forward_only d d'.
Proof.
  intros Hb Hold Hftl Hnew Hnd b1 p1. unfold page_at. rewrite Hftl.
  destruct (decide (b1 = block)) as [->|Hne].
  - rewrite lookup_insert_eq, Hb. cbn.
    destruct (decide (p1 = i)) as [->|Hnp].
    + rewrite lookup_insert_eq, Hold. split_and!.
      * intros [= ->]. done.
      * intros _. destruct new; [by left|by right|done].
      * intros [= ->]. done.
    + rewrite lookup_insert_ne by done. split_and!; auto.
  - rewrite lookup_insert_ne by done. split_and!; auto.
Qed.

Section NaiveForward.

Variable cfg : config.

Lemma naive_policy_forward fuel block page d r d' :
  disk_ok cfg d → in_range cfg block page →
  page_at d block page ≠ Some PAGE_DIRTY →
  full_block_write_policy cfg Naive fuel block page d = Return r d' →
  forward_only d d'.
Proof.
  intros Hok Hin Hnd Hrun. destruct (Hok block (proj1 Hin)) as (b & Hb & Hokb).
  destruct (proj1 Hokb page (proj2 Hin)) as [s Hs].
  assert (Hsd : s ≠ PAGE_DIRTY)
    by (intros ->; apply Hnd; unfold page_at; by rewrite Hb).
  destruct (full_block_write_policy_cases cfg Naive fuel block page b d
              Hok Hin Hb)
    as [(_ & _ & H)|[(_ & b0 & blk0 & p0 & _ & Hne & Hb0 & _ & _ & _ & Hs0 & H)
       |[(? & _)|(? & _)]]]; try done; rewrite H in Hrun.
  - injection Hrun as <- <-. by apply forward_only_same_ftl.
  - injection Hrun as <- <-.
    apply forward_only_trans
      with (set_ftl <[block := Block (<[page := PAGE_DIRTY]> (pages b))
                                     (empty_count b) (dirty_count b + 1)]> d).
    + by eapply (forward_only_set_page d _ block b page s PAGE_DIRTY).
    + eapply (forward_only_set_page _ _ b0 blk0 p0 PAGE_EMPTY PAGE_IN_USE);
        [cbn; by rewrite lookup_insert_ne|done|reflexivity|done|done].
Qed.

Lemma naive_raw_write_forward fuel block page d r d' :
  disk_ok cfg d → in_range cfg block page →
  raw_write_page cfg Naive fuel block page d = Return r d' →
  forward_only d d'.
Proof.
  intros Hok Hin Hrun.
  destruct (raw_write_page_cases cfg Naive fuel block page d Hok Hin)
    as (b & Hb & _ & [(Hs & H)|[(_ & H)|[(Hs & _ & np & _ & Hnp & Hnew & H)
                                       |(Hs & _ & H)]]]);
    rewrite H in Hrun.
  - injection Hrun as <- <-.
    by eapply (forward_only_set_page d _ block b page PAGE_EMPTY PAGE_IN_USE).
  - injection Hrun as <- <-. by apply forward_only_same_ftl.
  - injection Hrun as <- <-.
    apply forward_only_trans
      with (set_ftl <[block := Block (<[page := PAGE_DIRTY]> (pages b))
                                     (empty_count b) (dirty_count b)]> d).
    + by eapply (forward_only_set_page d _ block b page PAGE_IN_USE PAGE_DIRTY).
    + eapply (forward_only_set_page _ _ block _ np PAGE_EMPTY PAGE_IN_USE);
        [cbn; apply lookup_insert_eq| |cbn; by rewrite insert_insert_eq
        |done|done].
      cbn. by rewrite lookup_insert_ne.
  - assert (Hnd : page_at d block page ≠ Some PAGE_DIRTY)
      by (unfold page_at; rewrite Hb; cbn; congruence).
    destruct (full_block_write_policy cfg Naive fuel block page d)
      as [[] d1|e d1|] eqn:Hpol; try discriminate; injection Hrun as <- <-.
    + by eapply naive_policy_forward.
    + apply forward_only_trans with d1; [by eapply naive_policy_forward|].
      by apply forward_only_same_ftl.
Qed.

End NaiveForward.

(** X6: on a naive disk nothing but [raw_erase_block] ever frees a page.
    From a reachable state, after any in-range [raw_write_page],
    [host_write_page], [raw_read_page] or (on a page in use)
    [full_block_write_policy] that returns, a page that was dirty is dirty,
    a page that was in use is in use or dirty, and a page that is empty was
    empty before. *)
Theorem X6_naive_never_reclaims cfg fuel o d r d' :
  reachable cfg Naive d →
  op_in_range cfg o → contract_op Naive o d →
  (∀ b, o ≠ Raw_erase_block b) →
  exec cfg Naive fuel o d = Return r d' →
  ∀ b p,
    (page_at d b p = Some PAGE_DIRTY → page_at d' b p = Some PAGE_DIRTY) ∧
    (page_at d b p = Some PAGE_IN_USE →
     page_at d' b p = Some PAGE_IN_USE ∨ page_at d' b p = Some PAGE_DIRTY) ∧
    (page_at d' b p = Some PAGE_EMPTY → page_at d b p = Some PAGE_EMPTY).
Proof.
  intros Hreach Hin Hc Hne Hrun. change (forward_only d d').
  assert (Hn : 0 ≤ pages_per_block cfg).
  { destruct o as [b p|b p|b p|b|b p]; cbn in Hin;
      try (destruct Hin as [_ ?]; lia). by destruct (Hne b). }
  pose proof (reachable_disk_ok cfg Naive d Hn Hreach) as Hok.
  destruct o as [b p|b p|b p|b|b p]; cbn [exec] in Hrun.
  - by eapply naive_raw_write_forward.
  - rewrite (host_write_page_eq cfg Naive fuel b p d Hin) in Hrun.
    destruct (raw_write_page cfg Naive fuel b p d) as [[] d1|e d1|] eqn:Hraw;
      try discriminate; injection Hrun as <- <-.
    + apply forward_only_trans with d1;
        [by eapply naive_raw_write_forward|by apply forward_only_same_ftl].
    + by eapply naive_raw_write_forward.
  - destruct (raw_read_page_ok cfg b p d Hok Hin) as (r' & d1 & Hrun' & Hf & _).
    rewrite Hrun in Hrun'. injection Hrun' as -> ->.
    by apply forward_only_same_ftl.
  - by destruct (Hne b).
  - destruct Hc as [?|Hs]; [done|].
    eapply naive_policy_forward; [done|done| |done]. congruence.
Qed.

Lemma X6_naive_never_reclaims_witness :
  exec cfg21 Naive 1 (Host_write_page 0 0) disk_naive_one
    = Return true disk_naive_full ∧
  ∀ b p,
    (page_at disk_naive_one b p = Some PAGE_DIRTY →
     page_at disk_naive_full b p = Some PAGE_DIRTY) ∧
    (page_at disk_naive_one b p = Some PAGE_IN_USE →
     page_at disk_naive_full b p = Some PAGE_IN_USE ∨
     page_at disk_naive_full b p = Some PAGE_DIRTY) ∧
    (page_at disk_naive_full b p = Some PAGE_EMPTY →
     page_at disk_naive_one b p = Some PAGE_EMPTY).
Proof.
  split; [vm_compute; reflexivity|].
  apply (X6_naive_never_reclaims cfg21 1 (Host_write_page 0 0)
           disk_naive_one true disk_naive_full).
  - apply disk_naive_one_reachable.
  - cbv [op_in_range in_range cfg21 total_blocks pages_per_block]. lia.
  - exact I.
  - discriminate.
  - vm_compute. reflexivity.
Defined.

(** ** X7: the write amplification of the naive disk *)

Lemma naive_raw_write_page_counts cfg fuel block page d r d' :
  disk_ok cfg d → in_range cfg block page →
  raw_write_page cfg Naive fuel block page d = Return r d' →
  _page_write_executed d'
    = _page_write_executed d + (if r then 1 else 0) ∧
  _host_page_write_request d' = _host_page_write_request d.
Proof.
  intros Hok Hin Hrun.
  destruct (raw_write_page_cases cfg Naive fuel block page d Hok Hin)
    as (b & Hb & _ & [(_ & H)|[(_ & H)|[(_ & _ & np & _ & _ & _ & H)
                                       |(_ & _ & H)]]]);
    rewrite H in Hrun; try (injection Hrun as <- <-; cbn; lia).
  destruct (full_block_write_policy_cases cfg Naive fuel block page b d
              Hok Hin Hb)
    as [(_ & _ & Hp)|[(_ & b0 & blk0 & p0 & _ & _ & _ & _ & _ & _ & _ & Hp)
       |[(? & _)|(? & _)]]]; try done;
    rewrite Hp in Hrun; injection Hrun as <- <-; cbn; lia.
Qed.

(** X7: on a naive disk driven by in-range [host_write_page],
    [raw_read_page] and [raw_erase_block] calls, every host write that is
    honoured costs exactly one page write: [_page_write_executed] equals
    [_host_page_write_request] in every state, and once a host write has
    succeeded [write_amplification()] returns exactly 1. *)
Theorem X7_naive_write_amplification cfg d :
  0 ≤ pages_per_block cfg →
  reachable_by cfg driver_op Naive d →
  _page_write_executed d = _host_page_write_request d ∧
  0 ≤ _host_page_write_request d ∧
  (_host_page_write_request d ≠ 0 →
   ∃ r, write_amplification d = inl r ∧ decimal_is_ratio r 1 1).
Proof.
  intros Hn Hreach.
  assert (disk_ok cfg d ∧
          _page_write_executed d = _host_page_write_request d ∧
          0 ≤ _host_page_write_request d) as (_ & Heq & Hpos).
  { induction Hreach as [|d o fuel r d' _ (IHok & IHe & IHp) Hc Hin Hrun].
    - split; [by apply init_disk_ok|]. cbn. lia.
    - assert (Hc' : contract_op Naive o d) by (destruct o; done).
      destruct (exec_ok cfg Naive fuel o d Hn IHok Hin Hc')
        as [(_ & _ & Hout)|(r' & d'' & Hrun' & Hok' & _)]; [congruence|].
      rewrite Hrun in Hrun'. injection Hrun' as <- <-. split; [done|].
      destruct o as [b p|b p|b p|b|b p]; try done; cbn [exec] in Hrun.
      + rewrite (host_write_page_eq cfg Naive fuel b p d Hin) in Hrun.
        destruct (raw_write_page cfg Naive fuel b p d) as [[] d1|e d1|] eqn:Hraw;
          try discriminate; injection Hrun as <- <-;
          destruct (naive_raw_write_page_counts cfg fuel b p d _ d1 IHok Hin
                      Hraw) as [H1 H2]; cbn; lia.
      + destruct (raw_read_page_ok cfg b p d IHok Hin)
          as (r' & d1 & Hrun' & _ & Hh & He & _).
        rewrite Hrun in Hrun'. injection Hrun' as -> ->. lia.
      + destruct (raw_erase_block_ok cfg b d IHok Hn Hin)
          as (d1 & Hrun' & _ & Hh & He & _).
        rewrite Hrun in Hrun'. injection Hrun' as -> ->. lia. }
  split_and!; [done|done|]. intros Hne.
  unfold write_amplification. rewrite Heq.
  rewrite (decimal_div_exact DECIMAL_PRECISION (_host_page_write_request d)
             (_host_page_write_request d) 1) by (done || lia).
  exists (Decimal 1). split; [reflexivity|]. reflexivity.
Qed.

Lemma X7_naive_write_amplification_witness :
  _page_write_executed disk_naive_full
    = _host_page_write_request disk_naive_full ∧
  0 ≤ _host_page_write_request disk_naive_full ∧
  (_host_page_write_request disk_naive_full ≠ 0 →
   ∃ r, write_amplification disk_naive_full = inl r ∧
        decimal_is_ratio r 1 1).
Proof.
  apply (X7_naive_write_amplification cfg21 disk_naive_full).
  - cbv [cfg21 pages_per_block]. lia.
  - apply disk_naive_full_driver.
Defined.

(** ** X8: the in-place disk never fails a write *)

Section InPlaceWrites.

Variable cfg : config.

Lemma in_place_raw_write_page_effect fuel block page d r d' :
  disk_ok cfg d → in_range cfg block page →
  raw_write_page cfg InPlace fuel block page d = Return r d' →
  _page_write_failed d' = _page_write_failed d ∧
  (r = false ↔ page_at d block page = Some PAGE_DIRTY) ∧
  (∀ b', b' ≠ block → _ftl d' !! b' = _ftl d !! b').
Proof.
  intros Hok Hin Hrun.
  destruct (raw_write_page_cases cfg InPlace fuel block page d Hok Hin)
    as (b & Hb & _ & [(Hs & H)|[(Hs & H)|[(Hs & _ & np & _ & _ & _ & H)
                                        |(Hs & _ & H)]]]);
    rewrite H in Hrun;
    assert (Hat : page_at d block page = pages b !! page)
      by (unfold page_at; by rewrite Hb).
  - injection Hrun as <- <-. rewrite Hat, Hs. split_and!; [done|done|].
    intros b' Hne. cbn. by rewrite lookup_insert_ne.
  - injection Hrun as <- <-. rewrite Hat, Hs. done.
  - injection Hrun as <- <-. rewrite Hat, Hs. split_and!; [done|done|].
    intros b' Hne. cbn. by rewrite lookup_insert_ne.
  - destruct (full_block_write_policy_cases cfg InPlace fuel block page b d
                Hok Hin Hb)
      as [(? & _)|[(? & _)|[(_ & _ & Hp)|(_ & m' & rd & k & Hp & _)]]];
      try done; rewrite Hp in Hrun; [discriminate|].
    injection Hrun as <- <-. rewrite Hat, Hs. split_and!; [done|done|].
    intros b' Hne. cbn. by rewrite lookup_insert_ne.
Qed.

Lemma in_place_exec_failed fuel o d r d' :
  disk_ok cfg d → op_in_range cfg o →
  exec cfg InPlace fuel o d = Return r d' →
  _page_write_failed d' = _page_write_failed d.
Proof.
  intros Hok Hin Hrun. destruct o as [b p|b p|b p|b|b p]; cbn [exec] in Hrun.
  - by destruct (in_place_raw_write_page_effect fuel b p d r d' Hok Hin Hrun).
  - rewrite (host_write_page_eq cfg InPlace fuel b p d Hin) in Hrun.
    destruct (raw_write_page cfg InPlace fuel b p d) as [[] d1|e d1|] eqn:Hraw;
      try discriminate; injection Hrun as <- <-;
      by destruct (in_place_raw_write_page_effect fuel b p d _ d1 Hok Hin Hraw).
  - destruct (raw_read_page_ok cfg b p d Hok Hin)
      as (r' & d1 & Hrun' & _ & _ & _ & Hf).
    rewrite Hrun in Hrun'. by injection Hrun' as -> ->.
  - cbn [op_in_range] in Hin. destruct (Hok b Hin) as (blk & Hb & _).
    rewrite (raw_erase_block_eq cfg b blk d Hin Hb) in Hrun.
    by injection Hrun as <- <-.
  - cbn [op_in_range] in Hin. destruct (Hok b (proj1 Hin)) as (blk & Hb & _).
    destruct (full_block_write_policy_cases cfg InPlace fuel b p blk d
                Hok Hin Hb)
      as [(? & _)|[(? & _)|[(_ & _ & Hp)|(_ & m' & rd & k & Hp & _)]]];
      try done; cbn [exec] in Hrun; rewrite Hp in Hrun; [discriminate|].
    by injection Hrun as <- <-.
Qed.

End InPlaceWrites.

(** X8: on an in-place disk no write ever fails.  In every reachable
    state [_page_write_failed] is 0, and an in-range [raw_write_page]
    returns [True] unless the page is dirty (then [False], the discarded
    write); [host_write_page] returns the same; and the write changes no
    block other than the one it addresses. *)
Theorem X8_in_place_never_fails cfg fuel d block page :
  reachable cfg InPlace d →
  in_range cfg block page →
  _page_write_failed d = 0 ∧
  ∃ r d',
    raw_write_page cfg InPlace (S fuel) block page d = Return r d' ∧
    host_write_page cfg InPlace (S fuel) block page d
      = Return r (if r then incr_host_page_write_request d' else d') ∧
    (r = false ↔ page_at d block page = Some PAGE_DIRTY) ∧
    _page_write_failed d' = 0 ∧
    (∀ b', b' ≠ block → _ftl d' !! b' = _ftl d !! b').
Proof.
  intros Hreach Hin.
  assert (Hn : 0 ≤ pages_per_block cfg) by (destruct Hin as [_ ?]; lia).
  assert (disk_ok cfg d ∧ _page_write_failed d = 0) as [Hok Hzero].
  { clear Hin.
    induction Hreach as [|d o fuel' r d' _ [IHok IHf] Hc Hin Hrun].
    - split; [by apply init_disk_ok|done].
    - destruct (exec_ok cfg InPlace fuel' o d Hn IHok Hin Hc)
        as [(_ & _ & Hout)|(r' & d'' & Hrun' & Hok' & _)]; [congruence|].
      rewrite Hrun in Hrun'. injection Hrun' as <- <-. split; [done|].
      rewrite (in_place_exec_failed cfg fuel' o d r d' IHok Hin Hrun). done. }
  split; [done|].
  destruct (raw_write_page_ok cfg InPlace (S fuel) block page d Hok Hin)
    as [(? & _)|(r & d' & Hrun & _)]; [done|].
  destruct (in_place_raw_write_page_effect cfg (S fuel) block page d r d'
              Hok Hin Hrun) as (Hf & Hiff & Hframe).
  exists r, d'. rewrite (host_write_page_eq cfg InPlace (S fuel) block page d Hin).
  rewrite Hrun. split_and!; try done; [by destruct r|lia].
Qed.

Lemma X8_in_place_never_fails_witness :
  _page_write_failed disk_in_place_full = 0 ∧
  ∃ r d',
    raw_write_page cfg22 InPlace 1 0 0 disk_in_place_full = Return r d' ∧
    host_write_page cfg22 InPlace 1 0 0 disk_in_place_full
      = Return r (if r then incr_host_page_write_request d' else d') ∧
    (r = false ↔ page_at disk_in_place_full 0 0 = Some PAGE_DIRTY) ∧
    _page_write_failed d' = 0 ∧
    (∀ b', b' ≠ 0 → _ftl d' !! b' = _ftl disk_in_place_full !! b').
Proof.
  apply (X8_in_place_never_fails cfg22 0 disk_in_place_full 0 0).
  - apply disk_in_place_full_reachable.
  - cbv [in_range cfg22 total_blocks pages_per_block]. lia.
Defined.

(** ** X9: what one in-place collection costs *)

(** X9: in a reachable state of an in-place disk, the policy called on an
    in-range page in use of a block with [u] pages in use reads the
    [u - 1] other pages in use (the target is marked dirty first, so it is
    not read), erases the block once and writes [u] pages: the read, erase
    and write counters and the elapsed time grow by exactly that, whether
    or not the block is full. *)
Theorem X9_in_place_cost cfg fuel d block page b :
  reachable cfg InPlace d →
  in_range cfg block page →
  _ftl d !! block = Some b →
  pages b !! page = Some PAGE_IN_USE →
  ∃ d',
    full_block_write_policy cfg InPlace (S fuel) block page d
      = Return true d' ∧
    1 ≤ count_pages cfg PAGE_IN_USE b ≤ pages_per_block cfg ∧
    _page_read_executed d'
      = _page_read_executed d + (count_pages cfg PAGE_IN_USE b - 1) ∧
    _block_erase_executed d' = _block_erase_executed d + 1 ∧
    _page_write_executed d'
      = _page_write_executed d + count_pages cfg PAGE_IN_USE b ∧
    _elapsed_time d'
      = _elapsed_time d
        + (count_pages cfg PAGE_IN_USE b - 1) * read_page_time cfg
        + erase_block_time cfg
        + count_pages cfg PAGE_IN_USE b * write_page_time cfg.
Proof.
  intros Hreach Hin Hb Hs. pose proof Hin as [Hblock Hpage].
  assert (Hn : 0 ≤ pages_per_block cfg) by lia.
  destruct (reachable_disk_ok cfg InPlace d Hn Hreach block Hblock)
    as (b0 & Hb0 & Hkeys & _).
  assert (b0 = b) as -> by congruence.
  destruct (in_place_policy_spec cfg fuel block page b d Hin Hb Hkeys)
    as (m' & r & k & Hrun & Hr & Hk & Hm' & _).
  assert (Hk' : k = count_pages cfg PAGE_IN_USE b).
  { rewrite Hk. apply count_in_iff. intros p Hp%elem_of_seqZ.
    rewrite Hm' by lia. split.
    - destruct (decide _) as [[?| ->]|]; [done|done|congruence].
    - intros Hu. by rewrite decide_True by auto. }
  assert (Hr' : r = count_pages cfg PAGE_IN_USE b - 1).
  { rewrite Hr.
    rewrite (count_range_insert cfg _ PAGE_IN_USE page PAGE_IN_USE PAGE_DIRTY)
      by done.
    unfold count_pages. rewrite decide_True by done.
    rewrite decide_False by done. lia. }
  assert (Hone : 1 ≤ count_pages cfg PAGE_IN_USE b).
  { apply (count_in_elem _ _ _ page); [apply elem_of_seqZ; lia|done]. }
  assert (Hmax : count_pages cfg PAGE_IN_USE b ≤ pages_per_block cfg).
  { pose proof (count_in_bounds (pages b) PAGE_IN_USE
                  (seqZ 0 (pages_per_block cfg))) as Hb'.
    rewrite length_seqZ in Hb'. unfold count_pages. lia. }
  eexists. split; [exact Hrun|]. cbn. subst k r. split_and!; lia.
Qed.

Lemma X9_in_place_cost_witness :
  ∃ d',
    full_block_write_policy cfg22 InPlace 1 0 0 disk_in_place_full
      = Return true d' ∧
    1 ≤ count_pages cfg22 PAGE_IN_USE
          (Block {[0 := PAGE_IN_USE; 1 := PAGE_IN_USE]} 0 0)
      ≤ pages_per_block cfg22 ∧
    _page_read_executed d'
      = _page_read_executed disk_in_place_full
        + (count_pages cfg22 PAGE_IN_USE
             (Block {[0 := PAGE_IN_USE; 1 := PAGE_IN_USE]} 0 0) - 1) ∧
    _block_erase_executed d' = _block_erase_executed disk_in_place_full + 1 ∧
    _page_write_executed d'
      = _page_write_executed disk_in_place_full
        + count_pages cfg22 PAGE_IN_USE
            (Block {[0 := PAGE_IN_USE; 1 := PAGE_IN_USE]} 0 0) ∧
    _elapsed_time d'
      = _elapsed_time disk_in_place_full
        + (count_pages cfg22 PAGE_IN_USE
             (Block {[0 := PAGE_IN_USE; 1 := PAGE_IN_USE]} 0 0) - 1)
          * read_page_time cfg22
        + erase_block_time cfg22
        + count_pages cfg22 PAGE_IN_USE
            (Block {[0 := PAGE_IN_USE; 1 := PAGE_IN_USE]} 0 0)
          * write_page_time cfg22.
Proof.
  apply (X9_in_place_cost cfg22 0 disk_in_place_full 0 0
           (Block {[0 := PAGE_IN_USE; 1 := PAGE_IN_USE]} 0 0)).
  - apply disk_in_place_full_reachable.
  - cbv [in_range cfg22 total_blocks pages_per_block]. lia.
  - vm_compute. reflexivity.
  - vm_compute. reflexivity.
Defined.

(** ** X10: the naive disk without an empty page *)

Lemma block_total_zero key f bs :
  (∀ b blk, b ∈ bs → f !! b = Some blk → 0 ≤ key blk) →
  block_total key f bs = 0 →
  ∀ b blk, b ∈ bs → f !! b = Some blk → key blk = 0.
Proof.
  induction bs as [|b0 bs IH]; intros Hall Hsum b blk Hb Hlook;
    [by inversion Hb|].
  cbn [block_total] in Hsum.
  assert (Hrest : 0 ≤ block_total key f bs)
    by (apply block_total_nonneg; intros ? ? ? ?; eapply Hall; [by right|done]).
  apply elem_of_cons in Hb as [->|Hb].
  - rewrite Hlook in Hsum.
    assert (0 ≤ key blk) by (eapply Hall; [by left|done]). lia.
  - apply (IH ltac:(intros ? ? ? ?; eapply Hall; [by right|done])) with b;
      [|done|done].
    destruct (f !! b0) as [blk0|] eqn:Hb0; [|lia].
    assert (0 ≤ key blk0) by (eapply Hall; [by left|done]). lia.
Qed.

(** X10: when [number_of_empty_pages()] is 0 in a reachable state of a
    naive disk, every in-range [raw_write_page] and [host_write_page]
    returns [False] and changes no page, no block counter, no time and no
    write counter other than [_page_write_failed]: only [raw_erase_block]
    makes the disk writable again. *)
Theorem X10_naive_disk_full cfg fuel d block page :
  reachable cfg Naive d →
  in_range cfg block page →
  number_of_empty_pages cfg d = Return 0 d →
  ∃ d',
    raw_write_page cfg Naive fuel block page d = Return false d' ∧
    host_write_page cfg Naive fuel block page d = Return false d' ∧
    (d' = d ∨ d' = incr_page_write_failed d).
Proof.
  intros Hreach Hin Hzero. pose proof Hin as [Hblock Hpage].
  assert (Hn : 0 ≤ pages_per_block cfg) by lia.
  pose proof (reachable_disk_ok cfg Naive d Hn Hreach) as Hok.
  assert (Hfull : ∀ b blk, 0 ≤ b < total_blocks cfg →
            _ftl d !! b = Some blk → empty_count blk = 0).
  { intros b blk Hb Hlook.
    unfold number_of_empty_pages in Hzero.
    rewrite sum_blocks_total in Hzero.
    - injection Hzero as Hsum.
      apply (block_total_zero empty_count (_ftl d)
               (seqZ 0 (total_blocks cfg))) with b; [|lia| |done].
      + intros b1 blk1 Hb1%elem_of_seqZ Hl1.
        destruct (Hok b1) as (blk1' & Hl1' & _ & He & _); [lia|].
        assert (blk1' = blk1) as -> by congruence.
        rewrite He. apply count_in_bounds.
      + apply elem_of_seqZ. lia.
    - intros b1 Hb1%elem_of_seqZ.
      destruct (Hok b1) as (blk1 & -> & _); [lia|]. by eexists. }
  assert (Hres : ∃ d', raw_write_page cfg Naive fuel block page d
                       = Return false d' ∧
                       (d' = d ∨ d' = incr_page_write_failed d)).
  { destruct (raw_write_page_cases cfg Naive fuel block page d Hok Hin)
      as (b & Hb & Hokb & [(Hs & H)|[(_ & H)|[(_ & Hroom & _)|(_ & _ & H)]]]).
    - exfalso. pose proof (Hfull block b Hblock Hb) as He0.
      destruct Hokb as (_ & He & _). rewrite He in He0.
      pose proof (count_in_elem (pages b) PAGE_EMPTY
                    (seqZ 0 (pages_per_block cfg)) page) as Hone.
      unfold count_pages in He0. rewrite He0 in Hone.
      assert (1 ≤ 0); [|lia]. apply Hone; [apply elem_of_seqZ; lia|done].
    - exists d. split; [done|by left].
    - pose proof (Hfull block b Hblock Hb). lia.
    - destruct (full_block_write_policy_cases cfg Naive fuel block page b d
                  Hok Hin Hb)
        as [(_ & _ & Hp)|[(_ & b0 & blk0 & p0 & Hb0 & _ & Hl0 & _ & Hpos & _)
           |[(? & _)|(? & _)]]]; try done.
      + rewrite Hp in H. exists (incr_page_write_failed d).
        split; [done|by right].
      + pose proof (Hfull b0 blk0 Hb0 Hl0). lia. }
  destruct Hres as (d' & Hraw & Hd'). exists d'. split_and!; [done| |done].
  by rewrite host_write_page_eq, Hraw.
Qed.

Lemma X10_naive_disk_full_witness :
  ∃ d',
    raw_write_page cfg21 Naive 0 1 0 disk_naive_full = Return false d' ∧
    host_write_page cfg21 Naive 0 1 0 disk_naive_full = Return false d' ∧
    (d' = disk_naive_full ∨ d' = incr_page_write_failed disk_naive_full).
Proof.
  apply (X10_naive_disk_full cfg21 0 disk_naive_full 1 0).
  - apply disk_naive_full_reachable.
  - cbv [in_range cfg21 total_blocks pages_per_block]. lia.
  - vm_compute. reflexivity.
Defined.

(** ** X11 and X12: reading back what was written *)

(** X11: on a disk of either class and in any state, writing an in-range
    empty page returns [True] and a [raw_read_page] of the same coordinate
    right after returns [True]: the page is in use, the read changes no
    page, and the two calls cost [write_page_time + read_page_time]. *)
Theorem X11_write_then_read cfg pol fuel d block page b :
  in_range cfg block page →
  _ftl d !! block = Some b →
  pages b !! page = Some PAGE_EMPTY →
  ∃ d1 d2,
    raw_write_page cfg pol fuel block page d = Return true d1 ∧
    page_at d1 block page = Some PAGE_IN_USE ∧
    raw_read_page cfg block page d1 = Return true d2 ∧
    _ftl d2 = _ftl d1 ∧
    _elapsed_time d2
      = _elapsed_time d + write_page_time cfg + read_page_time cfg ∧
    _page_write_executed d2 = _page_write_executed d + 1 ∧
    _page_read_executed d2 = _page_read_executed d + 1.
Proof.
  intros Hin Hb Hs. unfold raw_write_page.
  rewrite (raw_write_page_empty cfg _ block page b d Hin Hb Hs).
  eexists _, _. split; [reflexivity|]. split.
  { unfold page_at. cbn. rewrite lookup_insert_eq. cbn.
    by rewrite lookup_insert_eq. }
  split.
  { eapply raw_read_page_in_use; [done|cbn; apply lookup_insert_eq|].
    cbn. by rewrite lookup_insert_eq. }
  cbn. done.
Qed.

Lemma X11_write_then_read_witness :
  ∃ d1 d2,
    raw_write_page cfg22 InPlace 0 0 1 disk_in_place_one = Return true d1 ∧
    page_at d1 0 1 = Some PAGE_IN_USE ∧
    raw_read_page cfg22 0 1 d1 = Return true d2 ∧
    _ftl d2 = _ftl d1 ∧
    _elapsed_time d2
      = _elapsed_time disk_in_place_one + write_page_time cfg22
        + read_page_time cfg22 ∧
    _page_write_executed d2 = _page_write_executed disk_in_place_one + 1 ∧
    _page_read_executed d2 = _page_read_executed disk_in_place_one + 1.
Proof.
  apply (X11_write_then_read cfg22 InPlace 0 disk_in_place_one 0 1
           (Block {[0 := PAGE_IN_USE; 1 := PAGE_EMPTY]} 1 0)).
  - cbv [in_range cfg22 total_blocks pages_per_block]. lia.
  - vm_compute. reflexivity.
  - vm_compute. reflexivity.
Defined.

(** X12: overwriting a page in use of a block that still has room moves
    the data.  In a reachable state of a disk of either class the write
    returns [True]; right after, [raw_read_page] of the coordinate just
    written returns [False] (no data, and no cost), and [raw_read_page] of
    the page the data went to, the first empty page of the block, returns
    [True]. *)
Theorem X12_overwrite_then_read cfg pol fuel d block page b :
  reachable cfg pol d →
  in_range cfg block page →
  _ftl d !! block = Some b →
  pages b !! page = Some PAGE_IN_USE →
  0 < empty_count b →
  ∃ d1 newpage d2,
    raw_write_page cfg pol fuel block page d = Return true d1 ∧
    raw_read_page cfg block page d1 = Return false d1 ∧
    0 ≤ newpage < pages_per_block cfg ∧ newpage ≠ page ∧
    pages b !! newpage = Some PAGE_EMPTY ∧
    (∀ q, 0 ≤ q < newpage → pages b !! q ≠ Some PAGE_EMPTY) ∧
    raw_read_page cfg block newpage d1 = Return true d2.
Proof.
  intros Hreach Hin Hb Hs Hroom. pose proof Hin as [Hblock Hpage].
  assert (Hn : 0 ≤ pages_per_block cfg) by lia.
  destruct (reachable_disk_ok cfg pol d Hn Hreach block Hblock)
    as (b0 & Hb0 & Hokb).
  assert (b0 = b) as -> by congruence.
  destruct (raw_write_page_in_block cfg (full_block_write_policy cfg pol fuel)
              block page b d Hin Hb Hokb Hs Hroom)
    as (newpage & Hnew & Hnews & Hmin & Hrun).
  assert (Hne : newpage ≠ page) by (intros ->; congruence).
  eexists _, newpage, _. split; [exact Hrun|].
  split; [|split; [lia|]; split; [done|]; split; [done|]; split; [done|]].
  - eapply (raw_read_page_no_data cfg block page _ PAGE_DIRTY);
      [done|cbn; apply lookup_insert_eq| |done].
    cbn. by rewrite lookup_insert_ne, lookup_insert_eq.
  - eapply raw_read_page_in_use; [by split|cbn; apply lookup_insert_eq|].
    cbn. by rewrite lookup_insert_eq.
Qed.

Lemma X12_overwrite_then_read_witness :
  ∃ d1 newpage d2,
    raw_write_page cfg22 InPlace 0 0 0 disk_in_place_one = Return true d1 ∧
    raw_read_page cfg22 0 0 d1 = Return false d1 ∧
    0 ≤ newpage < pages_per_block cfg22 ∧ newpage ≠ 0 ∧
    pages (Block {[0 := PAGE_IN_USE; 1 := PAGE_EMPTY]} 1 0) !! newpage
      = Some PAGE_EMPTY ∧
    (∀ q, 0 ≤ q < newpage →
          pages (Block {[0 := PAGE_IN_USE; 1 := PAGE_EMPTY]} 1 0) !! q
            ≠ Some PAGE_EMPTY) ∧
    raw_read_page cfg22 0 newpage d1 = Return true d2.
Proof.
  apply (X12_overwrite_then_read cfg22 InPlace 0 disk_in_place_one 0 0
           (Block {[0 := PAGE_IN_USE; 1 := PAGE_EMPTY]} 1 0)).
  - apply disk_in_place_one_reachable.
  - cbv [in_range cfg22 total_blocks pages_per_block]. lia.
  - vm_compute. reflexivity.
  - vm_compute. reflexivity.
  - reflexivity.
Defined.

(** ** X13: writing after an erase *)

(** X13: erasing makes every page of the block writable.  In any state in
    which the in-range block exists, [raw_erase_block] followed by a
    [raw_write_page] of any in-range page of the block returns [True] both
    times, on a disk of either class; afterwards that page is in use, every
    other page of the block is empty, [empty_count] is
    [pages_per_block - 1] and [dirty_count] is 0. *)
Theorem X13_erase_then_write cfg pol fuel d block page b :
  in_range cfg block page →
  _ftl d !! block = Some b →
  ∃ d1 d2 b2,
    raw_erase_block cfg block d = Return true d1 ∧
    raw_write_page cfg pol fuel block page d1 = Return true d2 ∧
    _ftl d2 !! block = Some b2 ∧
    pages b2 !! page = Some PAGE_IN_USE ∧
    (∀ p, 0 ≤ p < pages_per_block cfg → p ≠ page →
          pages b2 !! p = Some PAGE_EMPTY) ∧
    empty_count b2 = pages_per_block cfg - 1 ∧
    dirty_count b2 = 0 ∧
    _elapsed_time d2
      = _elapsed_time d + erase_block_time cfg + write_page_time cfg.
Proof.
  intros Hin Hb. pose proof Hin as [Hblock Hpage].
  rewrite (raw_erase_block_eq cfg block b d Hblock Hb).
  eexists _, _, _. split; [reflexivity|]. unfold raw_write_page.
  erewrite raw_write_page_empty;
    [|done|cbn; apply lookup_insert_eq|cbn; by apply erased_range_lookup].
  split; [reflexivity|]. cbn. rewrite lookup_insert_eq.
  split; [reflexivity|]. cbn. split_and!; try done; try lia.
  - by rewrite lookup_insert_eq.
  - intros p Hp Hne. rewrite lookup_insert_ne by done.
    by apply erased_range_lookup.
Qed.

Lemma X13_erase_then_write_witness :
  ∃ d1 d2 b2,
    raw_erase_block cfg21 0 disk_naive_full = Return true d1 ∧
    raw_write_page cfg21 Naive 0 0 0 d1 = Return true d2 ∧
    _ftl d2 !! 0 = Some b2 ∧
    pages b2 !! 0 = Some PAGE_IN_USE ∧
    (∀ p, 0 ≤ p < pages_per_block cfg21 → p ≠ 0 →
          pages b2 !! p = Some PAGE_EMPTY) ∧
    empty_count b2 = pages_per_block cfg21 - 1 ∧
    dirty_count b2 = 0 ∧
    _elapsed_time d2
      = _elapsed_time disk_naive_full + erase_block_time cfg21
        + write_page_time cfg21.
Proof.
  apply (X13_erase_then_write cfg21 Naive 0 disk_naive_full 0 0
           (Block {[0 := PAGE_DIRTY]} 0 1)).
  - cbv [in_range cfg21 total_blocks pages_per_block]. lia.
  - vm_compute. reflexivity.
Defined.

(** ** X14 and X15: the counters only grow, and what [IOPS] does *)

Section Counters.

Variable cfg : config.

Ltac grow :=
  unfold counters_le, incr_page_write_failed, incr_host_page_write_request;
  cbn [_host_page_write_request _page_write_executed _page_write_failed
       _page_read_executed _block_erase_executed];
  lia.

Lemma counters_le_trans d1 d2 d3 :
  counters_le d1 d2 → counters_le d2 d3 → counters_le d1 d3.
Proof. unfold counters_le. lia. Qed.

Lemma policy_counters_le pol fuel block page d r d' :
  disk_ok cfg d → in_range cfg block page →
  full_block_write_policy cfg pol fuel block page d = Return r d' →
  counters_le d d'.
Proof.
  intros Hok Hin Hrun. destruct (Hok block (proj1 Hin)) as (b & Hb & _).
  destruct (full_block_write_policy_cases cfg pol fuel block page b d
              Hok Hin Hb)
    as [(_ & _ & H)|[(_ & b0 & blk0 & p0 & _ & _ & _ & _ & _ & _ & _ & H)
       |[(_ & _ & H)|(_ & m' & rd & k & H & -> & -> & _)]]];
    rewrite H in Hrun; try discriminate; injection Hrun as <- <-;
    try grow.
  pose proof (count_in_bounds (<[page := PAGE_DIRTY]> (pages b)) PAGE_IN_USE
                (seqZ 0 (pages_per_block cfg))).
  pose proof (count_in_bounds m' PAGE_IN_USE (seqZ 0 (pages_per_block cfg))).
  grow.
Qed.

Lemma raw_write_page_counters_le pol fuel block page d r d' :
  disk_ok cfg d → in_range cfg block page →
  raw_write_page cfg pol fuel block page d = Return r d' →
  counters_le d d'.
Proof.
  intros Hok Hin Hrun.
  destruct (raw_write_page_cases cfg pol fuel block page d Hok Hin)
    as (b & Hb & _ & [(_ & H)|[(_ & H)|[(_ & _ & np & _ & _ & _ & H)
                                       |(_ & _ & H)]]]);
    rewrite H in Hrun.
  - injection Hrun as <- <-. grow.
  - injection Hrun as <- <-. grow.
  - injection Hrun as <- <-. grow.
  - destruct (full_block_write_policy cfg pol fuel block page d)
      as [[] d1|e d1|] eqn:Hpol; try discriminate;
      injection Hrun as <- <-;
      pose proof (policy_counters_le pol fuel block page d _ d1 Hok Hin Hpol)
        as Hle; revert Hle; grow.
Qed.

Lemma exec_counters_le pol fuel o d r d' :
  disk_ok cfg d → op_in_range cfg o →
  exec cfg pol fuel o d = Return r d' →
  counters_le d d'.
Proof.
  intros Hok Hin Hrun. destruct o as [b p|b p|b p|b|b p]; cbn [exec] in Hrun.
  - by eapply raw_write_page_counters_le.
  - rewrite (host_write_page_eq cfg pol fuel b p d Hin) in Hrun.
    destruct (raw_write_page cfg pol fuel b p d) as [[] d1|e d1|] eqn:Hraw;
      try discriminate; injection Hrun as <- <-;
      pose proof (raw_write_page_counters_le pol fuel b p d _ d1 Hok Hin Hraw)
        as Hle; revert Hle; grow.
  - cbn [op_in_range] in Hin. pose proof Hin as [Hblock Hpage].
    destruct (Hok b Hblock) as (blk & Hb & Hkeys & _).
    destruct (Hkeys p Hpage) as [s Hs].
    destruct (decide (s = PAGE_IN_USE)) as [->|Hne].
    + rewrite (raw_read_page_in_use cfg b p blk d Hin Hb Hs) in Hrun.
      injection Hrun as <- <-. grow.
    + rewrite (raw_read_page_no_data cfg b p blk s d Hin Hb Hs Hne) in Hrun.
      injection Hrun as <- <-. grow.
  - cbn [op_in_range] in Hin. destruct (Hok b Hin) as (blk & Hb & _).
    rewrite (raw_erase_block_eq cfg b blk d Hin Hb) in Hrun.
    injection Hrun as <- <-. grow.
  - by eapply policy_counters_le.
Qed.

Lemma reachable_counters_nonneg pol d :
  0 ≤ pages_per_block cfg → reachable cfg pol d →
  counters_le (init_disk cfg) d.
Proof.
  intros Hn Hreach.
  assert (disk_ok cfg d ∧ counters_le (init_disk cfg) d) as [_ H]; [|done].
  induction Hreach as [|d o fuel r d' _ (IHok & IHle) Hc Hin Hrun].
  - split; [by apply init_disk_ok|]. unfold counters_le. lia.
  - destruct (exec_ok cfg pol fuel o d Hn IHok Hin Hc)
      as [(_ & _ & Hout)|(r' & d'' & Hrun' & Hok' & _)]; [congruence|].
    rewrite Hrun in Hrun'. injection Hrun' as -> ->.
    split; [done|]. eapply counters_le_trans; [exact IHle|].
    by eapply exec_counters_le.
Qed.

End Counters.

(** X14: no operation of the disk lowers a counter.  In every reachable
    state of a disk of either class the five counters are non-negative, and
    any in-range operation that returns leaves each of them at least as
    high as it was. *)
Theorem X14_counters_only_grow cfg pol d :
  0 ≤ pages_per_block cfg →
  reachable cfg pol d →
  (0 ≤ _host_page_write_request d ∧ 0 ≤ _page_write_executed d ∧
   0 ≤ _page_write_failed d ∧ 0 ≤ _page_read_executed d ∧
   0 ≤ _block_erase_executed d) ∧
  ∀ fuel o r d',
    op_in_range cfg o → exec cfg pol fuel o d = Return r d' →
    counters_le d d'.
Proof.
  intros Hn Hreach. split.
  - exact (reachable_counters_nonneg cfg pol d Hn Hreach).
  - intros fuel o r d' Hin Hrun.
    eapply exec_counters_le; [|exact Hin|exact Hrun].
    by eapply reachable_disk_ok.
Qed.

Lemma X14_counters_only_grow_witness :
  (0 ≤ _host_page_write_request disk_in_place_gc ∧
   0 ≤ _page_write_executed disk_in_place_gc ∧
   0 ≤ _page_write_failed disk_in_place_gc ∧
   0 ≤ _page_read_executed disk_in_place_gc ∧
   0 ≤ _block_erase_executed disk_in_place_gc) ∧
  ∀ fuel o r d',
    op_in_range cfg22 o →
    exec cfg22 InPlace fuel o disk_in_place_gc = Return r d' →
    counters_le disk_in_place_gc d'.
Proof.
  apply (X14_counters_only_grow cfg22 InPlace disk_in_place_gc).
  - cbv [cfg22 pages_per_block]. lia.
  - apply disk_in_place_gc_reachable.
Defined.

Lemma reachable_accounted cfg pol d :
  0 ≤ pages_per_block cfg → reachable cfg pol d →
  _elapsed_time d = accounted_time cfg d.
Proof.
  intros Hn Hreach.
  assert (disk_ok cfg d ∧ _elapsed_time d = accounted_time cfg d)
    as [_ H]; [|done].
  induction Hreach as [|d o fuel r d' _ (IHok & IHt) Hc Hin Hrun].
  - split; [by apply init_disk_ok|]. done.
  - destruct (exec_keeps_account cfg pol fuel o d r d' IHok Hin Hrun)
      as [Ht _].
    destruct (exec_ok cfg pol fuel o d Hn IHok Hin Hc)
      as [(_ & _ & Hout)|(r' & d'' & Hrun' & Hok' & _)]; [congruence|].
    rewrite Hrun in Hrun'. injection Hrun' as -> ->.
    split; [done|lia].
Qed.

Lemma decimal_to_int_nonneg q :
  0 ≤ coefficient q →
  0 ≤ decimal_to_int q ∧ (coefficient q = 0 → decimal_to_int q = 0).
Proof.
  intros Hq. unfold decimal_to_int.
  destruct (Z.leb_spec 0 (exponent q)) as [He|He].
  - pose proof (pow10_pos (exponent q) He). split; [nia|]. intros ->. lia.
  - pose proof (pow10_pos (- exponent q) ltac:(lia)). split.
    + apply Z.quot_pos; lia.
    + intros ->. apply Z.quot_0_l. lia.
Qed.

(** [elapsed_time] and [IOPS] once time has elapsed: two roundings, and
    the fraction dropped. *)
Lemma IOPS_spec d :
  0 < _elapsed_time d →
  0 ≤ _page_write_executed d + _page_read_executed d →
  ∃ t q,
    elapsed_time d = inl t ∧ 0 < coefficient t ∧
    decimal_half_even DECIMAL_PRECISION t (_elapsed_time d) 1000000 ∧
    decimal_half_even DECIMAL_PRECISION q
      (_page_write_executed d + _page_read_executed d) (coefficient t) ∧
    IOPS d
      = inl (decimal_to_int (Dec (coefficient q) (exponent q - exponent t))).
Proof.
  intros HE Hops. unfold IOPS, elapsed_time.
  destruct (decimal_div_integers DECIMAL_PRECISION (_elapsed_time d) 1000000
              ltac:(lia) ltac:(lia) ltac:(done)) as ([ct et] & -> & Ht & Hct).
  cbn [coefficient] in Hct. specialize (Hct HE). cbv zeta.
  exists (Dec ct et).
  destruct (Z.eq_dec (_page_write_executed d + _page_read_executed d) 0)
    as [Hz|Hnz].
  - exists (Dec 0 0). rewrite Hz. split_and!; [done|done|done| |].
    + apply half_even_zero; [done|by cbn].
    + unfold decimal_div, Decimal. cbn [coefficient exponent].
      destruct (Z.eqb_spec ct 0); [lia|]. reflexivity.
  - destruct (decimal_div_spec DECIMAL_PRECISION
                (_page_write_executed d + _page_read_executed d) 0 ct et
                ltac:(lia) Hct ltac:(done)) as (c & e & Hdiv & Hc & Hq).
    exists (Dec c e). unfold Decimal. rewrite Hdiv.
    cbn [coefficient exponent].
    replace (e + (0 - et)) with (e - et) by lia. done.
Qed.

(** X15: [elapsed_time] never raises and is the elapsed microseconds over
    [10^6] rounded half to even to the 12 digits of the context, the only
    decimal that [decimal_half_even] describes.  On a disk
    of either class whose page write and page read times are positive and
    whose block erase time is not negative, [IOPS] never raises
    [DivisionByZero]; it raises [InvalidOperation] exactly in the reachable
    states in which no time has elapsed, the new disk among them; in every
    other reachable state it returns a non-negative integer, which is 0
    when no page has been written or read: the integer part of the number
    of page writes and reads over the coefficient of [elapsed_time()],
    rounded half to even to 12 digits, with the exponent of
    [elapsed_time()] subtracted. *)
Theorem X15_IOPS cfg pol d :
  0 ≤ pages_per_block cfg →
  0 < write_page_time cfg → 0 < read_page_time cfg →
  0 ≤ erase_block_time cfg →
  reachable cfg pol d →
  (∃ t, elapsed_time d = inl t ∧
        decimal_rounds_ratio t (_elapsed_time d) 1000000 ∧
        decimal_half_even DECIMAL_PRECISION t (_elapsed_time d) 1000000 ∧
        (∀ t', decimal_half_even DECIMAL_PRECISION t' (_elapsed_time d)
                 1000000 → t' = t) ∧
        (_elapsed_time d ≠ 0 →
         ∃ q,
           decimal_half_even DECIMAL_PRECISION q
             (_page_write_executed d + _page_read_executed d)
             (coefficient t) ∧
           (∀ q', decimal_half_even DECIMAL_PRECISION q'
                    (_page_write_executed d + _page_read_executed d)
                    (coefficient t) → q' = q) ∧
           IOPS d
             = inl (decimal_to_int
                      (Dec (coefficient q) (exponent q - exponent t))))) ∧
  IOPS d ≠ inr DivisionByZero ∧
  (IOPS d = inr InvalidOperation ↔ _elapsed_time d = 0) ∧
  (_elapsed_time d ≠ 0 →
   ∃ n, IOPS d = inl n ∧ 0 ≤ n ∧
        (_page_write_executed d + _page_read_executed d = 0 → n = 0)).
Proof.
  intros Hn Hwt Hrt Het Hreach.
  pose proof (reachable_accounted cfg pol d Hn Hreach) as Hacc.
  destruct (reachable_counters_nonneg cfg pol d Hn Hreach)
    as (_ & Hw & _ & Hr & He).
  unfold accounted_time in Hacc. cbn in Hw, Hr, He.
  assert (HE : 0 ≤ _elapsed_time d) by nia.
  destruct (Z.eq_dec (_elapsed_time d) 0) as [Hz|Hnz].
  - assert (_page_write_executed d = 0 ∧ _page_read_executed d = 0)
      as [Hw0 Hr0] by nia.
    assert (HI : IOPS d = inr InvalidOperation).
    { unfold IOPS, elapsed_time. rewrite Hz, Hw0, Hr0. reflexivity. }
    rewrite HI. split_and!; [|done|done|done].
    destruct (decimal_div_integers DECIMAL_PRECISION (_elapsed_time d) 1000000
                HE ltac:(lia) ltac:(done)) as (t & Ht & Hhe & _).
    exists t. split_and!; [done|apply Hhe|done| |done].
    intros t' Ht'.
    apply (half_even_unique DECIMAL_PRECISION t' t (_elapsed_time d) 1000000);
      [lia|lia|done|done|done].
  - destruct (IOPS_spec d ltac:(lia) ltac:(lia))
      as (t & q & Ht & Hct & Hhe & Hq & HI).
    pose proof Hq as (Hc & _).
    destruct (decimal_to_int_nonneg
                (Dec (coefficient q) (exponent q - exponent t))
                ltac:(cbn; lia)) as [H0 H1].
    rewrite HI. split_and!; [|done|split; [done|lia]|].
    + exists t. split_and!; [done|apply Hhe|done| |].
      * intros t' Ht'.
        apply (half_even_unique DECIMAL_PRECISION t' t (_elapsed_time d)
                 1000000); [lia|lia|done|done|done].
      * intros _. exists q. split_and!; [done| |done].
        intros q' Hq'.
        apply (half_even_unique DECIMAL_PRECISION q' q
                 (_page_write_executed d + _page_read_executed d)
                 (coefficient t)); [lia|lia|done|done|done].
    + intros _. eexists. split_and!; [reflexivity|done|].
      intros Hops. apply H1. cbn [coefficient].
      rewrite (half_even_exact DECIMAL_PRECISION q
                 (_page_write_executed d + _page_read_executed d)
                 (coefficient t) 0) by (done || lia).
      reflexivity.
Qed.

Lemma X15_IOPS_witness :
  (∃ t, elapsed_time disk_in_place_gc = inl t ∧
        decimal_rounds_ratio t (_elapsed_time disk_in_place_gc) 1000000 ∧
        decimal_half_even DECIMAL_PRECISION t
          (_elapsed_time disk_in_place_gc) 1000000 ∧
        (∀ t', decimal_half_even DECIMAL_PRECISION t'
                 (_elapsed_time disk_in_place_gc) 1000000 → t' = t) ∧
        (_elapsed_time disk_in_place_gc ≠ 0 →
         ∃ q,
           decimal_half_even DECIMAL_PRECISION q
             (_page_write_executed disk_in_place_gc
              + _page_read_executed disk_in_place_gc)
             (coefficient t) ∧
           (∀ q', decimal_half_even DECIMAL_PRECISION q'
                    (_page_write_executed disk_in_place_gc
                     + _page_read_executed disk_in_place_gc)
                    (coefficient t) → q' = q) ∧
           IOPS disk_in_place_gc
             = inl (decimal_to_int
                      (Dec (coefficient q) (exponent q - exponent t))))) ∧
  IOPS disk_in_place_gc ≠ inr DivisionByZero ∧
  (IOPS disk_in_place_gc = inr InvalidOperation
   ↔ _elapsed_time disk_in_place_gc = 0) ∧
  (_elapsed_time disk_in_place_gc ≠ 0 →
   ∃ n, IOPS disk_in_place_gc = inl n ∧ 0 ≤ n ∧
        (_page_write_executed disk_in_place_gc
         + _page_read_executed disk_in_place_gc = 0 → n = 0)).
Proof.
  apply (X15_IOPS cfg22 InPlace disk_in_place_gc).
  - cbv [cfg22 pages_per_block]. lia.
  - cbv [cfg22 write_page_time]. lia.
  - cbv [cfg22 read_page_time]. lia.
  - cbv [cfg22 erase_block_time]. lia.
  - apply disk_in_place_gc_reachable.
Defined.

(** ** X16 and X17: the helpers of [common.py] *)

(** X16: for a non-negative number of pages and page size, [pages_to_mib]
    never raises, and returns what [bytes_to_mib] returns for the product.
    The result is within half a unit of its last digit of
    [pages * page_size_bytes / 2^20], and is exactly that number whenever
    the size is a whole number of MiB that fits the precision of the
    context. *)
Theorem X16_pages_to_mib prec pages page_size_bytes :
  0 < prec → 0 ≤ pages → 0 ≤ page_size_bytes →
  ∃ r,
    pages_to_mib prec pages page_size_bytes = inl r ∧
    bytes_to_mib prec (pages * page_size_bytes) = inl r ∧
    decimal_rounds_ratio r (pages * page_size_bytes) (2 ^ 20) ∧
    (∀ q, pages * page_size_bytes = q * 2 ^ 20 → q < 10 ^ prec →
          decimal_is_ratio r q 1).
Proof.
  intros Hp Hpages Hsize. unfold pages_to_mib, bytes_to_mib.
  change (2 ^ 20) with 1048576.
  destruct (decimal_div_integers prec (pages * page_size_bytes) 1048576
              ltac:(nia) ltac:(lia) Hp) as (r & Hr & Hhe & _).
  exists r. split_and!; [done|done|apply Hhe|].
  intros q Hq Hfit.
  rewrite (half_even_exact prec r (pages * page_size_bytes) 1048576 q)
    by (done || lia || nia).
  unfold decimal_is_ratio, Decimal. cbn [coefficient exponent].
  change (Z.max 0 (- 0)) with 0. change (Z.max 0 0) with 0.
  change (10 ^ 0) with 1. lia.
Qed.

Lemma X16_pages_to_mib_witness :
  ∃ r,
    pages_to_mib 12 256 4096 = inl r ∧
    bytes_to_mib 12 (256 * 4096) = inl r ∧
    decimal_rounds_ratio r (256 * 4096) (2 ^ 20) ∧
    (∀ q, 256 * 4096 = q * 2 ^ 20 → q < 10 ^ 12 →
          decimal_is_ratio r q 1).
Proof.
  apply (X16_pages_to_mib 12 256 4096); lia.
Defined.

Lemma digits_le_iff n prec :
  0 < n → 0 < prec → (digits n ≤ prec ↔ n < 10 ^ prec).
Proof.
  intros Hn Hp. destruct (digits_spec n Hn) as (Hd & Hlo & Hhi). split.
  - intros Hle.
    assert (10 ^ digits n ≤ 10 ^ prec) by (apply Z.pow_le_mono_r; lia). lia.
  - intros Hlt. apply Z.nlt_ge. intros Hgt.
    assert (10 ^ prec ≤ 10 ^ (digits n - 1))
      by (apply Z.pow_le_mono_r; lia). lia.
Qed.

(** [x.quantize(t)]: the coefficient is that of [x] rounded to the exponent
    of [t], and the call raises when it does not fit the precision. *)
Lemma decimal_quantize_spec prec x t :
  0 < prec →
  ∃ c,
    2 * Z.abs (c * 10 ^ Z.max 0 (exponent t - exponent x)
               - coefficient x * 10 ^ Z.max 0 (exponent x - exponent t))
      ≤ 10 ^ Z.max 0 (exponent t - exponent x) ∧
    decimal_quantize prec x t =
      if Z.abs c <? 10 ^ prec then inl (Dec c (exponent t))
      else inr InvalidOperation.
Proof.
  intros Hp. unfold decimal_quantize.
  set (c := if exponent t <=? exponent x
            then coefficient x * 10 ^ (exponent x - exponent t)
            else Z.sgn (coefficient x)
                 * div_half_even (Z.abs (coefficient x))
                     (10 ^ (exponent t - exponent x))).
  exists c. split.
  - subst c. destruct (Z.leb_spec (exponent t) (exponent x)) as [Hle|Hlt].
    + rewrite (Z.max_l 0 (exponent t - exponent x)) by lia.
      rewrite (Z.max_r 0 (exponent x - exponent t)) by lia.
      change (10 ^ 0) with 1. lia.
    + rewrite (Z.max_r 0 (exponent t - exponent x)) by lia.
      rewrite (Z.max_l 0 (exponent x - exponent t)) by lia.
      change (10 ^ 0) with 1.
      pose proof (pow10_pos (exponent t - exponent x) ltac:(lia)) as HD.
      pose proof (div_half_even_bound (Z.abs (coefficient x))
                    (10 ^ (exponent t - exponent x)) HD) as Hb.
      destruct (Z.sgn_spec (coefficient x)) as [[? ->]|[[? ->]|[? ->]]];
        [rewrite (Z.abs_eq (coefficient x)) in * by lia
        |replace (coefficient x) with 0 in * by lia;
         change (Z.abs 0) with 0 in *
        |rewrite (Z.abs_neq (coefficient x)) in * by lia]; lia.
  - pose proof (pow10_pos prec ltac:(lia)) as HP.
    destruct (Z.eqb_spec c 0) as [->|Hne]; cbn [orb].
    + change (Z.abs 0) with 0.
      destruct (Z.ltb_spec 0 (10 ^ prec)); [done|lia].
    + pose proof (digits_le_iff (Z.abs c) prec ltac:(lia) Hp) as Hiff.
      destruct (Z.leb_spec (digits (Z.abs c)) prec),
               (Z.ltb_spec (Z.abs c) (10 ^ prec)); try done; lia.
Qed.

(** X17: [get_quantized_decimal] returns a decimal of exactly two places
    and [get_integer_decimal] one of none, each within half a unit of its
    last place of the argument (and equal to it when the argument has no
    more places than that); each raises [InvalidOperation] exactly when the
    coefficient of that result would need more digits than the precision of
    the context. *)
Theorem X17_quantized_helpers prec dec :
  0 < prec →
  (∃ c,
     2 * Z.abs (c * 10 ^ Z.max 0 (- 2 - exponent dec)
                - coefficient dec * 10 ^ Z.max 0 (exponent dec + 2))
       ≤ 10 ^ Z.max 0 (- 2 - exponent dec) ∧
     get_quantized_decimal prec dec =
       if Z.abs c <? 10 ^ prec then inl (Dec c (- 2))
       else inr InvalidOperation) ∧
  (∃ c,
     2 * Z.abs (c * 10 ^ Z.max 0 (- exponent dec)
                - coefficient dec * 10 ^ Z.max 0 (exponent dec))
       ≤ 10 ^ Z.max 0 (- exponent dec) ∧
     get_integer_decimal prec dec =
       if Z.abs c <? 10 ^ prec then inl (Dec c 0)
       else inr InvalidOperation).
Proof.
  intros Hp. split.
  - destruct (decimal_quantize_spec prec dec TWOPLACES Hp) as (c & Hc & Hq).
    exists c. cbn [TWOPLACES exponent] in Hc, Hq.
    replace (exponent dec - -2) with (exponent dec + 2) in Hc by lia.
    done.
  - destruct (decimal_quantize_spec prec dec NOPLACES Hp) as (c & Hc & Hq).
    exists c. cbn [NOPLACES exponent] in Hc, Hq.
    replace (0 - exponent dec) with (- exponent dec) in Hc by lia.
    replace (exponent dec - 0) with (exponent dec) in Hc by lia.
    done.
Qed.

Lemma X17_quantized_helpers_witness :
  (∃ c,
     2 * Z.abs (c * 10 ^ Z.max 0 (- 2 - exponent (Dec 1005 (-3)))
                - coefficient (Dec 1005 (-3))
                  * 10 ^ Z.max 0 (exponent (Dec 1005 (-3)) + 2))
       ≤ 10 ^ Z.max 0 (- 2 - exponent (Dec 1005 (-3))) ∧
     get_quantized_decimal 12 (Dec 1005 (-3)) =
       if Z.abs c <? 10 ^ 12 then inl (Dec c (- 2))
       else inr InvalidOperation) ∧
  (∃ c,
     2 * Z.abs (c * 10 ^ Z.max 0 (- exponent (Dec 1005 (-3)))
                - coefficient (Dec 1005 (-3))
                  * 10 ^ Z.max 0 (exponent (Dec 1005 (-3))))
       ≤ 10 ^ Z.max 0 (- exponent (Dec 1005 (-3))) ∧
     get_integer_decimal 12 (Dec 1005 (-3)) =
       if Z.abs c <? 10 ^ 12 then inl (Dec c 0)
       else inr InvalidOperation).
Proof.
  apply (X17_quantized_helpers 12 (Dec 1005 (-3))). lia.
Defined.

(** ** X18: a write never loses a valid page *)

Lemma block_total_insert key f bs b old new :
  NoDup bs → b ∈ bs → f !! b = Some old →
  block_total key (<[b := new]> f) bs
  = block_total key f bs - key old + key new.
Proof.
  intros Hnd Hb Hf. induction bs as [|a bs IH]; [by inversion Hb|].
  apply NoDup_cons in Hnd as [Ha Hnd]. cbn [block_total].
  destruct (decide (a = b)) as [->|Hne].
  - rewrite lookup_insert_eq, Hf.
    assert (block_total key (<[b := new]> f) bs = block_total key f bs)
      as ->; [|lia].
    clear IH Hb Hnd. induction bs as [|a bs IH]; [done|].
    cbn [block_total]. apply not_elem_of_cons in Ha as [Hab Ha].
    rewrite lookup_insert_ne by done. by rewrite IH.
  - rewrite lookup_insert_ne by done.
    apply elem_of_cons in Hb as [->|Hb]; [done|].
    rewrite IH by done. lia.
Qed.

Section ValidPages.

Variable cfg : config.

Lemma count_pages_set_page s m e dc e' dc' i old new :
  0 ≤ i < pages_per_block cfg → m !! i = Some old →
  count_pages cfg s (Block (<[i := new]> m) e' dc')
  = count_pages cfg s (Block m e dc)
    - (if decide (old = s) then 1 else 0)
    + (if decide (new = s) then 1 else 0).
Proof.
  intros Hi Hm. unfold count_pages. cbn [pages].
  apply count_in_insert; [apply NoDup_seqZ|apply elem_of_seqZ; lia|done].
Qed.

Lemma pages_with_set_block s block old new el hw we wf hr re be f :
  0 ≤ block < total_blocks cfg → f !! block = Some old →
  pages_with cfg s (Disk el hw we wf hr re be (<[block := new]> f))
  = block_total (count_pages cfg s) f (seqZ 0 (total_blocks cfg))
    - count_pages cfg s old + count_pages cfg s new.
Proof.
  intros Hb Hf. unfold pages_with. cbn [_ftl].
  apply block_total_insert; [apply NoDup_seqZ|apply elem_of_seqZ; lia|done].
Qed.

Lemma policy_valid_pages pol fuel block page b d r d' :
  disk_ok cfg d → in_range cfg block page →
  _ftl d !! block = Some b → pages b !! page = Some PAGE_IN_USE →
  full_block_write_policy cfg pol fuel block page d = Return r d' →
  pages_with cfg PAGE_IN_USE d' = pages_with cfg PAGE_IN_USE d.
Proof.
  intros Hok Hin Hb Hs Hrun. pose proof Hin as [Hblock Hpage].
  destruct (full_block_write_policy_cases cfg pol fuel block page b d
              Hok Hin Hb)
    as [(_ & _ & H)|[(_ & b0 & blk0 & p0 & Hb0 & Hne & Hlook & _ & _ & Hp0
                       & Hs0 & H)
       |[(_ & _ & H)|(_ & m' & rd & k & H & _ & _ & Hm')]]];
    rewrite H in Hrun; try discriminate; injection Hrun as <- <-.
  - done.
  - rewrite pages_with_set_block with (old := blk0);
      [|done|by rewrite lookup_insert_ne].
    rewrite (block_total_insert _ _ _ block b);
      [|apply NoDup_seqZ|apply elem_of_seqZ; lia|done].
    destruct b as [m e dc], blk0 as [m0 e0 dc0]. cbn [pages] in *.
    rewrite (count_pages_set_page _ m e dc _ _ page PAGE_IN_USE) by done.
    rewrite (count_pages_set_page _ m0 e0 dc0 _ _ p0 PAGE_EMPTY) by done.
    unfold pages_with. cbn [empty_count dirty_count].
    repeat (destruct (decide _); try congruence). lia.
  - rewrite pages_with_set_block with (old := b) by done.
    assert (count_pages cfg PAGE_IN_USE
              (Block m' (pages_per_block cfg - k) 0)
            = count_pages cfg PAGE_IN_USE b) as ->.
    { unfold count_pages. cbn [pages]. apply count_in_iff.
      intros p Hp. apply elem_of_seqZ in Hp. rewrite Hm' by lia.
      destruct (decide _) as [[Hu | ->]|Hn].
      - by rewrite Hu.
      - by rewrite Hs.
      - split; [done|]. intros Hu. exfalso. apply Hn. by left. }
    unfold pages_with. lia.
Qed.

Lemma raw_write_page_valid_pages pol fuel block page d r d' :
  disk_ok cfg d → in_range cfg block page →
  raw_write_page cfg pol fuel block page d = Return r d' →
  pages_with cfg PAGE_IN_USE d'
  = pages_with cfg PAGE_IN_USE d
    + (if decide (page_at d block page = Some PAGE_EMPTY) then 1 else 0).
Proof.
  intros Hok Hin Hrun. pose proof Hin as [Hblock Hpage].
  destruct (raw_write_page_cases cfg pol fuel block page d Hok Hin)
    as (b & Hb & _ & [(Hs & H)|[(Hs & H)|[(Hs & _ & np & Hnp & Hne & Hnps & H)
                                         |(Hs & _ & H)]]]);
    rewrite H in Hrun;
    (assert (Hat : page_at d block page = pages b !! page)
       by (unfold page_at; by rewrite Hb));
    rewrite Hat, Hs.
  - injection Hrun as <- <-. rewrite decide_True by done.
    rewrite pages_with_set_block with (old := b) by done.
    destruct b as [m e dc]. cbn [pages] in *.
    rewrite (count_pages_set_page _ m e dc _ _ page PAGE_EMPTY) by done.
    unfold pages_with. cbn [empty_count dirty_count].
    repeat (destruct (decide _); try congruence). lia.
  - injection Hrun as <- <-. rewrite decide_False by done. lia.
  - injection Hrun as <- <-. rewrite decide_False by done.
    rewrite pages_with_set_block with (old := b) by done.
    destruct b as [m e dc]. cbn [pages] in *.
    rewrite (count_pages_set_page _ (<[page := PAGE_DIRTY]> m) e (dc + 1)
               _ _ np PAGE_EMPTY)
      by (try done; by rewrite lookup_insert_ne).
    rewrite (count_pages_set_page _ m e dc _ _ page PAGE_IN_USE) by done.
    unfold pages_with. cbn [empty_count dirty_count].
    repeat (destruct (decide _); try congruence). lia.
  - rewrite decide_False by done.
    destruct (full_block_write_policy cfg pol fuel block page d)
      as [[] d1|e d1|] eqn:Hpol; try discriminate;
      injection Hrun as <- <-;
      rewrite <- (policy_valid_pages pol fuel block page b d _ d1
                    Hok Hin Hb Hs Hpol); unfold pages_with; cbn; lia.
Qed.

End ValidPages.

(** X18: a write never loses a valid page.  In a reachable state of a disk
    of either class, a [raw_write_page] or [host_write_page] of an in-range
    page that returns leaves the number of pages in use where it was when
    the page was in use or dirty, whatever the policy did, and raises it by
    one when the page was empty. *)
Theorem X18_valid_pages cfg pol fuel d block page r d' :
  0 ≤ pages_per_block cfg →
  reachable cfg pol d →
  in_range cfg block page →
  raw_write_page cfg pol fuel block page d = Return r d' ∨
  host_write_page cfg pol fuel block page d = Return r d' →
  pages_with cfg PAGE_IN_USE d'
  = pages_with cfg PAGE_IN_USE d
    + (if decide (page_at d block page = Some PAGE_EMPTY) then 1 else 0).
Proof.
  intros Hn Hreach Hin Hrun.
  pose proof (reachable_disk_ok cfg pol d Hn Hreach) as Hok.
  destruct Hrun as [Hrun|Hrun].
  - by eapply raw_write_page_valid_pages.
  - rewrite (host_write_page_eq cfg pol fuel block page d Hin) in Hrun.
    destruct (raw_write_page cfg pol fuel block page d) as [r1 d1|e d1|]
      eqn:Hraw; try discriminate.
    rewrite <- (raw_write_page_valid_pages cfg pol fuel block page d r1 d1
                  Hok Hin Hraw).
    destruct r1; injection Hrun as <- <-; reflexivity.
Qed.

Lemma X18_valid_pages_witness :
  pages_with cfg22 PAGE_IN_USE disk_in_place_gc
  = pages_with cfg22 PAGE_IN_USE disk_in_place_full
    + (if decide (page_at disk_in_place_full 0 0 = Some PAGE_EMPTY)
       then 1 else 0).
Proof.
  apply (X18_valid_pages cfg22 InPlace 1 disk_in_place_full 0 0 true).
  - cbv [cfg22 pages_per_block]. lia.
  - apply disk_in_place_full_reachable.
  - cbv [in_range cfg22 total_blocks pages_per_block]. lia.
  - right. vm_compute. reflexivity.
Defined.
